(** * The QWeb compilation context of Owl (src/qweb/compilation_context.ts)

    A shallow embedding of the class [CompilationContext] and of the
    interpolation regular expression [INTERP_REGEXP], followed by the
    properties of the template compiler's specification that concern them.

    Conventions of the embedding.

    - The JavaScript store is a list of cells; an address is the rank of
      allocation.  A context is an object cell: own properties (a finite map
      from attribute names to values) and a prototype link.  [Object.create]
      is what makes a derived context; reads walk the prototype chain, writes
      create or update an own property of the receiver.
    - Arrays ([code], [keyStack]) and the variable mapping ([variables]) are
      cells of their own, so that every context that reaches the same cell
      sees the same mutations.  The variable mapping is a finite map with the
      entries that the compiler put there, its own properties; the members
      that it inherits from [Object.prototype], which the operator [in] sees
      as well, are listed in [Object_prototype].
    - The methods of the class live on its prototype and are not attributes:
      a call of a method is a call of the function here.  A context derived
      on a key that names a method would hold an own property in its place;
      the properties about calls through a derived context are stated for
      keys that name no method.
    - A [number] that the class handles is always an integer (identifiers,
      counters, levels): it is a [Z].  JavaScript numbers are exact on the
      integers from -2^53 to 2^53 and round beyond; the properties that are
      about the arithmetic itself (no identifier twice, [indent] and [dedent]
      inverse to each other) are stated for numbers in that range.  Likewise the
      strings that an engine can hold are bounded in length, here they are
      not: nothing is claimed about a failure for lack of room.  Strings are
      sequences of code units, here restricted to the 8-bit range.
    - The static field [CompilationContext.nextID] is the [nextID] component
      of the state.
    - An attribute may hold any value ([subContext] takes [value: any]).  Where
      a method needs a value of the declared TypeScript type and finds another
      one, the run stops with [IllTyped]. *)

From Stdlib Require Import ZArith Ascii String.
From stdpp Require Import gmap strings list pretty.

(** ** Values, cells, states *)

Abbreviation loc := nat (only parsing).

Inductive value :=
| VUndef
| VNull
| VBool (b : bool)
| VNum (n : Z)
| VStr (s : string)
| VRef (l : loc).

(** Modelled from the spec: the type [QWebVar] is declared in the expression
    parser, which is not part of the sources at hand.  Following the
    specification, an entry of the variable mapping is a string: either a
    literal replacement or the name of another variable. *)
Abbreviation QWebVar := string (only parsing).

Inductive cell :=
| Obj (proto : option loc) (props : gmap string value)
| Arr (items : list value)
| Dict (entries : gmap string QWebVar).

Record state := mkState { heap : list cell; nextID : Z }.

Inductive exn :=
| Error (msg : string)
| RangeError
| IllTyped.

Inductive outcome (A : Type) :=
| Ok (a : A)
| Throw (e : exn).
Arguments Ok {A} a.
Arguments Throw {A} e.

#[global] Instance value_eq_dec : EqDecision value.
Proof. solve_decision. Defined.

(** ** A state-and-exception monad

    A thrown exception leaves the state as it was when it was thrown. *)

Definition M (A : Type) := state → outcome A * state.

Definition ret {A} (a : A) : M A := λ st, (Ok a, st).

Definition throw {A} (e : exn) : M A := λ st, (Throw e, st).

Definition bind {A B} (m : M A) (k : A → M B) : M B :=
  λ st, match m st with
        | (Ok a, st') => k a st'
        | (Throw e, st') => (Throw e, st')
        end.

Notation "'let*' x ':=' m 'in' k" := (bind m (λ x, k))
  (at level 10, x name, m at level 100, k at level 200).
Notation "'do' m 'in' k" := (bind m (λ _, k))
  (at level 10, m at level 100, k at level 200).

(** ** The JavaScript operations the class uses *)

(** [ToBoolean]. *)
Definition truthy (v : value) : bool :=
  match v with
  | VUndef | VNull => false
  | VBool b => b
  | VNum n => negb (n =? 0)%Z
  | VStr s => negb (String.eqb s "")
  | VRef _ => true
  end.

(** [o[k]] as a read: the own property, else the prototype's.  [Object.create]
    links a new object to one that exists already, so a prototype has a smaller
    address than the objects derived from it; the walk follows such links only. *)
Fixpoint get_go (fuel : nat) (h : list cell) (l : loc) (k : string) : value :=
  match fuel with
  | O => VUndef
  | S fuel' =>
      match h !! l with
      | Some (Obj proto props) =>
          match props !! k with
          | Some v => v
          | None =>
              match proto with
              | Some p => if bool_decide (p < l) then get_go fuel' h p k else VUndef
              | None => VUndef
              end
          end
      | _ => VUndef
      end
  end.

Definition get (h : list cell) (l : loc) (k : string) : value :=
  get_go (S l) h l k.

(** [o[k] = v]: all attributes are plain data properties, so the assignment
    defines or updates an own property of [o] itself. *)
Definition set_own (h : list cell) (l : loc) (k : string) (v : value) : option (list cell) :=
  match h !! l with
  | Some (Obj proto props) => Some (<[l := Obj proto (<[k := v]> props)]> h)
  | _ => None
  end.

Definition read (l : loc) (k : string) : M value :=
  λ st, (Ok (get (heap st) l k), st).

Definition write (l : loc) (k : string) (v : value) : M unit :=
  λ st, match set_own (heap st) l k v with
        | Some h' => (Ok tt, mkState h' (nextID st))
        | None => (Throw IllTyped, st)
        end.

Definition alloc (c : cell) : M loc :=
  λ st, (Ok (List.length (heap st)), mkState (heap st ++ [c]) (nextID st)).

Definition as_num (v : value) : M Z :=
  match v with
  | VNum n => ret n
  | _ => throw IllTyped
  end.

(** The object a value refers to. *)
Definition as_obj (v : value) : M loc :=
  λ st, match v with
        | VRef l =>
            match heap st !! l with
            | Some (Obj _ _) => (Ok l, st)
            | _ => (Throw IllTyped, st)
            end
        | _ => (Throw IllTyped, st)
        end.

(** The items of the array a value refers to. *)
Definition items_of (h : list cell) (v : value) : option (list value) :=
  match v with
  | VRef l => match h !! l with Some (Arr xs) => Some xs | _ => None end
  | _ => None
  end.

(** The entries of the mapping a value refers to. *)
Definition entries_of (h : list cell) (v : value) : option (gmap string QWebVar) :=
  match v with
  | VRef l => match h !! l with Some (Dict m) => Some m | _ => None end
  | _ => None
  end.

Definition set_items (v : value) (xs : list value) : M unit :=
  λ st, match v with
        | VRef l => (Ok tt, mkState (<[l := Arr xs]> (heap st)) (nextID st))
        | _ => (Throw IllTyped, st)
        end.

(** [a.push(x)]. *)
Definition push (a : value) (x : value) : M unit :=
  λ st, match items_of (heap st) a with
        | Some xs => set_items a (xs ++ [x]) st
        | None => (Throw IllTyped, st)
        end.

(** [a.unshift(x)]. *)
Definition unshift (a : value) (x : value) : M unit :=
  λ st, match items_of (heap st) a with
        | Some xs => set_items a (x :: xs) st
        | None => (Throw IllTyped, st)
        end.

(** [a.length]. *)
Definition array_length (a : value) : M Z :=
  λ st, match items_of (heap st) a with
        | Some xs => (Ok (Z.of_nat (List.length xs)), st)
        | None => (Throw IllTyped, st)
        end.

Fixpoint repeat_string (n : nat) (s : string) : string :=
  match n with
  | O => ""
  | S n' => s +:+ repeat_string n' s
  end.

(** [new Array(n).join(sep)]: [n] holes joined by [sep], that is [n - 1]
    separators; a length outside [0, 2^32) is a RangeError.  (Within it an
    engine fails when it has no room for the string, also with a RangeError;
    strings have no bound here.) *)
Definition new_Array_join (n : Z) (sep : string) : M string :=
  if bool_decide (0 ≤ n < 2 ^ 32)%Z
  then ret (repeat_string (Z.to_nat (n - 1)) sep)
  else throw RangeError.

(** A value inside a template literal, [`${v}`], for the primitive values. *)
Definition to_string (v : value) : M string :=
  match v with
  | VUndef => ret "undefined"
  | VNull => ret "null"
  | VBool b => ret (if b then "true" else "false")
  | VNum n => ret (pretty n)
  | VStr s => ret s
  | VRef _ => throw IllTyped
  end.

(** [a === b] on the values of the embedding. *)
Definition strict_eq (a b : value) : bool := bool_decide (a = b).

Definition when (b : bool) (m : M unit) : M unit :=
  if b then m else ret tt.

Definition lift {A} (o : outcome A) : M A := λ st, (o, st).

Definition as_dict (v : value) : M (gmap string QWebVar) :=
  λ st, match entries_of (heap st) v with
        | Some m => (Ok m, st)
        | None => (Throw IllTyped, st)
        end.

(** [s.slice(start, end)], negative indices counting from the end. *)
Definition slice (s : string) (start stop : Z) : string :=
  let len := Z.of_nat (String.length s) in
  let from := if (start <? 0)%Z then Z.max (len + start) 0 else Z.min start len in
  let to := if (stop <? 0)%Z then Z.max (len + stop) 0 else Z.min stop len in
  String.substring (Z.to_nat from) (Z.to_nat (Z.max (to - from) 0)) s.

(** ** INTERP_REGEXP = /\{\{.*?\}\}/g

    The matcher follows the expression: two opening braces, then the lazy
    [.*?], which at each position first tries the two closing braces and
    otherwise consumes one character that [.] accepts. *)

(** [.]: any code unit but a line terminator; LF and CR are the ones in the
    8-bit range. *)
Definition dot (c : ascii) : bool :=
  negb (Ascii.eqb c "010" || Ascii.eqb c "013")%char.

(** [\}\}] at the head: the rest of the subject after it. *)
Definition closing (s : string) : option string :=
  match s with
  | String c (String d rest) =>
      if (Ascii.eqb c "}" && Ascii.eqb d "}")%char then Some rest else None
  | _ => None
  end.

(** [.*?\}\}] at the head: what it matched and the rest of the subject. *)
Fixpoint lazy_body (s : string) : option (string * string) :=
  match closing s with
  | Some rest => Some ("}}", rest)
  | None =>
      match s with
      | String c s' =>
          if dot c
          then match lazy_body s' with
               | Some (m, rest) => Some (String c m, rest)
               | None => None
               end
          else None
      | EmptyString => None
      end
  end.

(** The whole expression at the head of the subject. *)
Definition match_here (s : string) : option (string * string) :=
  match s with
  | String c (String d body) =>
      if (Ascii.eqb c "{" && Ascii.eqb d "{")%char
      then match lazy_body body with
           | Some (m, rest) => Some ("{{" +:+ m, rest)
           | None => None
           end
      else None
  | _ => None
  end.

(** A search with the expression: the leftmost match, with the text before it
    and the text after it. *)
Fixpoint INTERP_REGEXP (s : string) : option (string * string * string) :=
  match match_here s with
  | Some (m, rest) => Some ("", m, rest)
  | None =>
      match s with
      | String c s' =>
          match INTERP_REGEXP s' with
          | Some (before, m, rest) => Some (String c before, m, rest)
          | None => None
          end
      | EmptyString => None
      end
  end.

(** The successive matches of a global expression: each search resumes where
    the previous match ended. *)
Fixpoint regexp_matches (fuel : nat) (s : string) : list string :=
  match fuel with
  | O => []
  | S fuel' =>
      match INTERP_REGEXP s with
      | Some (_, m, rest) => m :: regexp_matches fuel' rest
      | None => []
      end
  end.

(** [s.match(INTERP_REGEXP)]: null when there is no match, else all matches. *)
Definition String_match (s : string) : option (list string) :=
  match regexp_matches (S (String.length s)) s with
  | [] => None
  | ms => Some ms
  end.

(** [s.replace(INTERP_REGEXP, f)] for a function [f]: every match is replaced
    by what [f] returns for it, taken literally. *)
Fixpoint String_replace_go (fuel : nat) (s : string) (f : string → M string) : M string :=
  match fuel with
  | O => ret s
  | S fuel' =>
      match INTERP_REGEXP s with
      | Some (before, m, rest) =>
          let* r := f m in
          let* tail := String_replace_go fuel' rest f in
          ret (before +:+ r +:+ tail)
      | None => ret s
      end
  end.

Definition String_replace (s : string) (f : string → M string) : M string :=
  String_replace_go (S (String.length s)) s f.

(** ** The class CompilationContext

    A method takes its receiver [this] first.  A method that returns a context
    returns its address. *)

Definition addLine (this : loc) (line : string) : M Z :=
  let* indentLevel := read this "indentLevel" in
  let* n := as_num indentLevel in
  let* prefix := new_Array_join (n + 2) "    " in
  let* code := read this "code" in
  do push code (VStr (prefix +:+ line)) in
  let* code := read this "code" in
  let* len := array_length code in
  ret (len - 1)%Z.

(** Field initialisers in the order of the class body, then the constructor's
    body.  [name] is the optional argument. *)
Definition new_CompilationContext (name : option string) : M loc :=
  let* this := alloc (Obj None ∅) in
  let* code := alloc (Arr []) in
  do write this "code" (VRef code) in
  let* variables := alloc (Dict ∅) in
  do write this "variables" (VRef variables) in
  do write this "escaping" (VBool false) in
  do write this "parentNode" VNull in
  do write this "parentTextNode" VNull in
  do write this "rootNode" VNull in
  do write this "indentLevel" (VNum 0) in
  do write this "shouldDefineParent" (VBool false) in
  do write this "shouldDefineScope" (VBool false) in
  do write this "shouldDefineQWeb" (VBool false) in
  do write this "shouldDefineUtils" (VBool false) in
  do write this "shouldDefineRefs" (VBool false) in
  do write this "shouldDefineResult" (VBool true) in
  do write this "loopNumber" (VNum 0) in
  do write this "inPreTag" (VBool false) in
  do write this "allowMultipleRoots" (VBool false) in
  do write this "hasParentWidget" (VBool false) in
  do write this "hasKey0" (VBool false) in
  let* keyStack := alloc (Arr []) in
  do write this "keyStack" (VRef keyStack) in
  do write this "subScopeID" VNull in
  do write this "rootContext" (VRef this) in
  do write this "templateName"
       (VStr match name with
             | Some n => if String.eqb n "" then "noname" else n
             | None => "noname"
             end) in
  do addLine this "let h = this.h;" in
  ret this.

(** [return CompilationContext.nextID++], on the integers: as the number
    does it from -2^53 up to 2^53. *)
Definition generateID (this : loc) : M Z :=
  λ st, (Ok (nextID st), mkState (heap st) (nextID st + 1)).

(** The loop [for (let i = start; i < bound; i++) key += `\${key${i}}__`]. *)
Fixpoint key_loop (fuel : nat) (i bound : Z) (key : string) : string :=
  match fuel with
  | O => key
  | S fuel' =>
      if (i <? bound)%Z
      then key_loop fuel' (i + 1)%Z bound (key +:+ "${key" +:+ pretty i +:+ "}__")
      else key
  end.

Definition generateTemplateKey (this : loc) (prefix : string) : M string :=
  let* id := generateID this in
  let* loopNumber := read this "loopNumber" in
  let* hasKey0 := read this "hasKey0" in
  if strict_eq loopNumber (VNum 0) && negb (truthy hasKey0)
  then ret ("'" +:+ prefix +:+ "__" +:+ pretty id +:+ "__'")
  else
    let key := "`" +:+ prefix +:+ "__" +:+ pretty id +:+ "__" in
    let start := if truthy hasKey0 then 0%Z else 1%Z in
    let* n := as_num loopNumber in
    let key := key_loop (Z.to_nat (n + 1 - start)) start (n + 1)%Z key in
    do addLine this ("let k" +:+ pretty id +:+ " = " +:+ key +:+ "`;") in
    ret ("k" +:+ pretty id).

(** [if (this.flag) this.code.unshift(line)]. *)
Definition define_if (this : loc) (flag : string) (line : string) : M unit :=
  let* b := read this flag in
  when (truthy b) (let* code := read this "code" in unshift code (VStr line)).

Definition generateCode (this : loc) : M value :=
  do define_if this "shouldDefineResult" "    let result;" in
  do define_if this "shouldDefineScope" "    let scope = Object.create(context);" in
  do define_if this "shouldDefineRefs"
       "    context.__owl__.refs = context.__owl__.refs || {};" in
  let* shouldDefineParent := read this "shouldDefineParent" in
  do when (truthy shouldDefineParent)
       (let* hasParentWidget := read this "hasParentWidget" in
        let* code := read this "code" in
        if truthy hasParentWidget
        then unshift code (VStr "    let parent = extra.parent;")
        else unshift code (VStr "    let parent = context;")) in
  do define_if this "shouldDefineQWeb" "    let QWeb = this.constructor;" in
  do define_if this "shouldDefineUtils" "    let utils = this.constructor.utils;" in
  read this "code".

Definition subContext (this : loc) (key : string) (v : value) : M loc :=
  let* newContext := alloc (Obj (Some this) ∅) in
  do write newContext key v in
  ret newContext.

Definition MULTIPLE_ROOTS : string :=
  "A template should not have more than one root node".

Definition withParent (this : loc) (node : Z) : M loc :=
  let* allowMultipleRoots := read this "allowMultipleRoots" in
  let* rootContext := read this "rootContext" in
  let* parentNode := read this "parentNode" in
  let* parentTextNode := read this "parentTextNode" in
  if negb (truthy allowMultipleRoots)
     && strict_eq (VRef this) rootContext
     && (truthy parentNode || truthy parentTextNode)
  then throw (Error MULTIPLE_ROOTS)
  else
    let* rootContext := read this "rootContext" in
    let* root := as_obj rootContext in
    let* rootNode := read root "rootNode" in
    do when (negb (truthy rootNode)) (write root "rootNode" (VNum node)) in
    let* parentNode := read this "parentNode" in
    let* emit :=
      (if truthy parentNode then ret false
       else
         let* rootContext := read this "rootContext" in
         let* root := as_obj rootContext in
         let* shouldDefineResult := read root "shouldDefineResult" in
         ret (truthy shouldDefineResult)) in
    do when emit (do addLine this ("result = vn" +:+ pretty node +:+ ";") in ret tt) in
    subContext this "parentNode" (VNum node).

(** [this.rootContext.indentLevel++] and [--], on the integers: as the number
    does it between -2^53 and 2^53. *)
Definition indent (this : loc) : M unit :=
  let* rootContext := read this "rootContext" in
  let* root := as_obj rootContext in
  let* indentLevel := read root "indentLevel" in
  let* n := as_num indentLevel in
  write root "indentLevel" (VNum (n + 1)).

Definition dedent (this : loc) : M unit :=
  let* rootContext := read this "rootContext" in
  let* root := as_obj rootContext in
  let* indentLevel := read root "indentLevel" in
  let* n := as_num indentLevel in
  write root "indentLevel" (VNum (n - 1)).

Definition addIf (this : loc) (condition : string) : M unit :=
  do addLine this ("if (" +:+ condition +:+ ") {") in
  indent this.

Definition addElse (this : loc) : M unit :=
  do dedent this in
  do addLine this "} else {" in
  indent this.

Definition closeIf (this : loc) : M unit :=
  do dedent this in
  do addLine this "}" in
  ret tt.

(** The members that the variable mapping, an object literal, inherits from
    [Object.prototype]. *)
Definition Object_prototype : list string :=
  [ "constructor"; "hasOwnProperty"; "isPrototypeOf"; "propertyIsEnumerable";
    "toLocaleString"; "toString"; "valueOf"; "__proto__";
    "__defineGetter__"; "__defineSetter__"; "__lookupGetter__"; "__lookupSetter__" ].

(** What [getValue] takes and returns ([val: any]): a string, or what the
    variable mapping holds under the name of an inherited member (a built-in
    function; under [__proto__], the prototype object). *)
Inductive resolvable :=
| Name (s : string)
| Inherited (member : string).

(** [ToPropertyKey], for [val in variables] and [variables[val]]: a string is
    its own key; a built-in function converts to its source text, which V8
    gives as [function f() { [native code] }] with the name of the function
    ([Object] for the member [constructor]); the prototype object converts to
    [[object Object]]. *)
Definition property_key (v : resolvable) : string :=
  match v with
  | Name s => s
  | Inherited member =>
      if String.eqb member "__proto__" then "[object Object]"
      else "function "
           +:+ (if String.eqb member "constructor" then "Object" else member)
           +:+ "() { [native code] }"
  end.

(** [val in this.variables] holds for the own properties of the mapping and
    for the members it inherits; [this.variables[val]] is then the entry, or
    the inherited member.  [getValue] calls itself once per link of the
    chain; [depth] is the number of calls the stack has room for, and the
    engine raises a RangeError when it is used up. *)
Fixpoint getValue (depth : nat) (this : loc) (val : resolvable) : M resolvable :=
  match depth with
  | O => throw RangeError
  | S depth' =>
      let* variables := read this "variables" in
      let* entries := as_dict variables in
      match entries !! property_key val with
      | Some next => getValue depth' this (Name next)
      | None =>
          if bool_decide (property_key val ∈ Object_prototype)
          then getValue depth' this (Inherited (property_key val))
          else ret val
      end
  end.

Definition startProtectScope (this : loc) : M Z :=
  let* protectID := generateID this in
  let* rootContext := read this "rootContext" in
  let* root := as_obj rootContext in
  do write root "shouldDefineScope" (VBool true) in
  do addLine this ("let _origScope" +:+ pretty protectID +:+ " = scope;") in
  do addLine this "scope = Object.assign(Object.create(context), scope);" in
  ret protectID.

Definition stopProtectScope (this : loc) (protectID : Z) : M unit :=
  do addLine this ("scope = _origScope" +:+ pretty protectID +:+ ";") in
  ret tt.

Definition startBlockScope (this : loc) : M loc :=
  let* rootContext := read this "rootContext" in
  let* root := as_obj rootContext in
  do write root "shouldDefineScope" (VBool true) in
  let* scopeID := generateID this in
  let* ctx := subContext this "subScopeID" (VNum scopeID) in
  do addLine ctx ("const subScope_" +:+ pretty scopeID
                  +:+ " = Object.assign(Object.create(context), scope);") in
  ret ctx.

Section WithResolver.

(** The expression resolver [compileExpr] of the expression parser: external
    to the class, textual, and free of effects on the store.  It returns the
    rewritten expression or throws. *)
Variable compileExpr : string → gmap string QWebVar → string → outcome string.

Definition formatExpression (this : loc) (expr : string) : M string :=
  let* rootContext := read this "rootContext" in
  let* root := as_obj rootContext in
  do write root "shouldDefineScope" (VBool true) in
  let* subScopeID := read this "subScopeID" in
  let* compiledScopeName :=
    (if truthy subScopeID
     then let* id := to_string subScopeID in ret ("subScope_" +:+ id)
     else ret "scope") in
  let* variables := read this "variables" in
  let* entries := as_dict variables in
  lift (compileExpr expr entries compiledScopeName).

Definition interpolate (this : loc) (s : string) : M string :=
  let matches := String_match s in
  if match matches with
     | Some (m0 :: _) => bool_decide (String.length m0 = String.length s)
     | _ => false
     end
  then
    let* e := formatExpression this (slice s 2 (-2)) in
    ret ("(" +:+ e +:+ ")")
  else
    let* r := String_replace s
                (λ m, let* e := formatExpression this (slice m 2 (-2)) in
                      ret ("${" +:+ e +:+ "}")) in
    ret ("`" +:+ r +:+ "`").

(** ** Runs of the compiler

    The template compiler drives contexts through their methods and by plain
    assignments to their attributes.  A run is a list of such calls; a call
    that throws leaves the state it reached, and the run goes on (the caller
    catches, or starts another template). *)

Inductive call :=
| New (name : option string)
| GenerateID (this : loc)
| GenerateTemplateKey (this : loc) (prefix : string)
| GenerateCode (this : loc)
| WithParent (this : loc) (node : Z)
| SubContext (this : loc) (key : string) (v : value)
| Indent (this : loc)
| Dedent (this : loc)
| AddLine (this : loc) (line : string)
| AddIf (this : loc) (condition : string)
| AddElse (this : loc)
| CloseIf (this : loc)
| GetValue (depth : nat) (this : loc) (val : resolvable)
| FormatExpression (this : loc) (expr : string)
| Interpolate (this : loc) (s : string)
| StartProtectScope (this : loc)
| StopProtectScope (this : loc) (protectID : Z)
| StartBlockScope (this : loc)
| Assign (this : loc) (key : string) (v : value).

Definition forget {A} (m : M A) : M unit := do m in ret tt.

Definition exec (c : call) : M unit :=
  match c with
  | New name => forget (new_CompilationContext name)
  | GenerateID this => forget (generateID this)
  | GenerateTemplateKey this prefix => forget (generateTemplateKey this prefix)
  | GenerateCode this => forget (generateCode this)
  | WithParent this node => forget (withParent this node)
  | SubContext this key v => forget (subContext this key v)
  | Indent this => indent this
  | Dedent this => dedent this
  | AddLine this line => forget (addLine this line)
  | AddIf this condition => addIf this condition
  | AddElse this => addElse this
  | CloseIf this => closeIf this
  | GetValue depth this val => forget (getValue depth this val)
  | FormatExpression this expr => forget (formatExpression this expr)
  | Interpolate this s => forget (interpolate this s)
  | StartProtectScope this => forget (startProtectScope this)
  | StopProtectScope this protectID => stopProtectScope this protectID
  | StartBlockScope this => forget (startBlockScope this)
  | Assign this key v => write this key v
  end.

Definition run (calls : list call) (st : state) : state :=
  foldl (λ st c, snd (exec c st)) st calls.

End WithResolver.

(** ** Notions of the specification *)

(** What a read depends on: the object cells at and below the address. *)
Definition obj_part (c : option cell) : option (option loc * gmap string value) :=
  match c with
  | Some (Obj proto props) => Some (proto, props)
  | _ => None
  end.

(** The whitespace in front of an instruction at an indent level. *)
Definition indentation (level : Z) : string :=
  repeat_string (Z.to_nat (level + 1)) "    ".

Fixpoint concat_strings (l : list string) : string :=
  match l with
  | [] => ""
  | s :: l' => s +:+ concat_strings l'
  end.

(** The loop levels whose iteration index enters a composite key: from level
    0 when it has an explicit key, else from level 1, up to the current loop
    depth inclusive. *)
Definition key_levels (hasKey0 : bool) (loopNumber : Z) : list Z :=
  let first := if hasKey0 then 0%Z else 1%Z in
  seqZ first (loopNumber + 1 - first).

(** The composite key: a string template that concatenates the prefix, the
    identifier and the iteration-index variable of each of these levels. *)
Definition composite_key (prefix : string) (id : Z) (hasKey0 : bool) (loopNumber : Z) : string :=
  "`" +:+ prefix +:+ "__" +:+ pretty id +:+ "__"
  +:+ concat_strings ((λ i, "${key" +:+ pretty i +:+ "}__") <$> key_levels hasKey0 loopNumber)
  +:+ "`".

(** A declaration of the prologue: present when the flag asks for it. *)
Definition declaration (needed : bool) (line : string) : list value :=
  if needed then [VStr line] else [].

(** The declarations in the order in which the specification lists them:
    result variable, scope variable, refs table, parent reference (from the
    extra parent when there is a parent component, else from the ambient
    context), compiler handle, utility helpers. *)
Definition declarations (result scope refs parent hasParentWidget qweb utils : bool) : list (list value) :=
  [ declaration result "    let result;";
    declaration scope "    let scope = Object.create(context);";
    declaration refs "    context.__owl__.refs = context.__owl__.refs || {};";
    declaration parent (if hasParentWidget
                        then "    let parent = extra.parent;"
                        else "    let parent = context;");
    declaration qweb "    let QWeb = this.constructor;";
    declaration utils "    let utils = this.constructor.utils;" ].

(** To prepend declarations one after the other, each to the front of what
    the previous ones left. *)
Definition prepend_each (decls : list (list value)) (code : list value) : list value :=
  foldl (λ acc d, d ++ acc) code decls.

(** The state in which the array at [a] holds [items]. *)
Definition with_items (st : state) (a : loc) (items : list value) : state :=
  mkState (<[a := Arr items]> (heap st)) (nextID st).

(** The attributes of a context as its constructor leaves them, for a context
    allocated at [this]: the arrays and the mapping it made come right after
    it in the store. *)
Definition fresh_attributes (this : loc) (name : option string) : gmap string value :=
  list_to_map
    [ ("code", VRef (this + 1)); ("variables", VRef (this + 2));
      ("escaping", VBool false); ("parentNode", VNull); ("parentTextNode", VNull);
      ("rootNode", VNull); ("indentLevel", VNum 0); ("rootContext", VRef this);
      ("shouldDefineParent", VBool false); ("shouldDefineScope", VBool false);
      ("shouldDefineQWeb", VBool false); ("shouldDefineUtils", VBool false);
      ("shouldDefineRefs", VBool false); ("shouldDefineResult", VBool true);
      ("loopNumber", VNum 0); ("inPreTag", VBool false);
      ("templateName", VStr match name with
                            | Some n => if String.eqb n "" then "noname" else n
                            | None => "noname"
                            end);
      ("allowMultipleRoots", VBool false); ("hasParentWidget", VBool false);
      ("hasKey0", VBool false); ("keyStack", VRef (this + 3)); ("subScopeID", VNull) ].

(** The assignments of the seven attributes that [generateCode] reads. *)
Definition assign_flags (this : loc) (result scope refs parent hasParentWidget qweb utils : bool) : M unit :=
  do write this "shouldDefineResult" (VBool result) in
  do write this "shouldDefineScope" (VBool scope) in
  do write this "shouldDefineRefs" (VBool refs) in
  do write this "shouldDefineParent" (VBool parent) in
  do write this "hasParentWidget" (VBool hasParentWidget) in
  do write this "shouldDefineQWeb" (VBool qweb) in
  write this "shouldDefineUtils" (VBool utils).

(** A series of [withParent] calls, each on some context with some node; a
    call that throws leaves the state it reached. *)
Definition run_withParent (calls : list (loc * Z)) (st : state) : state :=
  foldl (λ st c, snd (withParent c.1 c.2 st)) st calls.

(** The object whose own property a read of [k] at [l] returns, if any: the
    first owner of [k] along the prototype chain. *)
Fixpoint owner_go (fuel : nat) (h : list cell) (l : loc) (k : string) : option loc :=
  match fuel with
  | O => None
  | S fuel' =>
      match h !! l with
      | Some (Obj proto props) =>
          match props !! k with
          | Some _ => Some l
          | None =>
              match proto with
              | Some p => if bool_decide (p < l) then owner_go fuel' h p k else None
              | None => None
              end
          end
      | _ => None
      end
  end.

Definition owner (h : list cell) (l : loc) (k : string) : option loc :=
  owner_go (S l) h l k.

(** [state_rel R m]: a run of [m], whatever its outcome, takes a state to an
    [R]-related one. *)
Definition state_rel (R : relation state) {A} (m : M A) : Prop :=
  ∀ st, R st (snd (m st)).

(** [on_counter R] relates two states whose counters are [R]-related.  With
    [R] equality, [state_rel (on_counter R) m] says that [m] keeps the
    counter; with [R] the order, that [m] does not decrease it. *)
Definition on_counter (R : relation Z) : relation state :=
  λ st st', R (nextID st) (nextID st').

(** [throws_only P m]: an exception that [m] throws satisfies [P]. *)
Definition throws_only (P : exn → Prop) {A} (m : M A) : Prop :=
  ∀ st e, fst (m st) = Throw e → P e.

(** The guard of [withParent]: multiple roots are not allowed, the receiver is
    the root of its chain, and it has a parent node or parent text node
    already. *)
Definition second_root (st : state) (this : loc) : Prop :=
  truthy (get (heap st) this "allowMultipleRoots") = false ∧
  get (heap st) this "rootContext" = VRef this ∧
  (truthy (get (heap st) this "parentNode") = true ∨
   truthy (get (heap st) this "parentTextNode") = true).

(** [extends st st']: the later state has all the objects of the earlier one,
    and they read as before. *)
Definition extends : relation state :=
  λ st st',
    List.length (heap st) ≤ List.length (heap st') ∧
    ∀ l k, l < List.length (heap st) → get (heap st') l k = get (heap st) l k.

(** [rootNode_kept st st']: every [rootNode] that reads as a truthy value in
    the earlier state reads the same in the later one. *)
Definition rootNode_kept : relation state :=
  λ st st',
    ∀ root, truthy (get (heap st) root "rootNode") = true →
            get (heap st') root "rootNode" = get (heap st) root "rootNode".

(** One link of an indirection chain of the variable mapping: [a] refers to
    [b]. *)
Definition refers (m : gmap string QWebVar) (a b : string) : Prop :=
  m !! a = Some b.

(** No chain of references reaches itself. *)
Definition acyclic (m : gmap string QWebVar) : Prop :=
  ∀ x : string, ¬ tc (refers m) x x.

(** The chain of references from a name, over at most [depth] links: the
    name it ends in, which is not a key. *)
Fixpoint resolve (depth : nat) (m : gmap string QWebVar) (val : string) : option string :=
  match depth with
  | O => None
  | S depth' =>
      match m !! val with
      | Some next => resolve depth' m next
      | None => Some val
      end
  end.

(** [getValue] on a mapping that stays the same, in at most [depth] calls. *)
Fixpoint follow (depth : nat) (m : gmap string QWebVar) (val : resolvable) : option resolvable :=
  match depth with
  | O => None
  | S depth' =>
      match m !! property_key val with
      | Some next => follow depth' m (Name next)
      | None =>
          if bool_decide (property_key val ∈ Object_prototype)
          then follow depth' m (Inherited (property_key val))
          else Some val
      end
  end.

(** *** Interpolation markers, as the specification speaks of them *)

Fixpoint all_chars (p : ascii → bool) (s : string) : bool :=
  match s with
  | EmptyString => true
  | String c s' => p c && all_chars p s'
  end.

(** A marker: two opening braces, an expression on one line, two closing
    braces, and these are the first closing braces after the opening ones. *)
Definition is_marker (m : string) : Prop :=
  ∃ inner,
    m = "{{" +:+ inner +:+ "}}" ∧
    all_chars dot inner = true ∧
    ∀ u w, inner +:+ "}}" = u +:+ "}}" +:+ w → w = "".

(** A string cut into literal text and the expressions of its markers. *)
Inductive token :=
| Text (t : string)
| Marker (inner : string).

Definition raw (t : token) : string :=
  match t with
  | Text t => t
  | Marker inner => "{{" +:+ inner +:+ "}}"
  end.

(** The cut at the successive leftmost markers. *)
Fixpoint tokens_go (fuel : nat) (s : string) : list token :=
  match fuel with
  | O => [Text s]
  | S fuel' =>
      match INTERP_REGEXP s with
      | Some (before, m, rest) =>
          Text before :: Marker (slice m 2 (-2)) :: tokens_go fuel' rest
      | None => [Text s]
      end
  end.

Definition tokens (s : string) : list token :=
  tokens_go (S (String.length s)) s.

(** The body of a composite string template: literal text as it is, each
    marker as [${...}] around its formatted expression.  Formatting goes from
    left to right and stops at the first expression that fails. *)
Fixpoint render (fmt : string → outcome string) (ts : list token) : outcome string :=
  match ts with
  | [] => Ok ""
  | Text t :: ts' =>
      match render fmt ts' with
      | Ok r => Ok (t +:+ r)
      | Throw e => Throw e
      end
  | Marker inner :: ts' =>
      match fmt inner with
      | Ok e =>
          match render fmt ts' with
          | Ok r => Ok ("${" +:+ e +:+ "}" +:+ r)
          | Throw x => Throw x
          end
      | Throw x => Throw x
      end
  end.

(** A string with a marker somewhere. *)
Definition has_marker (s : string) : Prop :=
  ∃ before m rest, s = before +:+ m +:+ rest ∧ is_marker m.

(** Literal text holds no marker; a marker token holds the expression of a
    marker. *)
Definition token_ok (t : token) : Prop :=
  match t with
  | Text t => ¬ has_marker t
  | Marker inner => is_marker ("{{" +:+ inner +:+ "}}")
  end.

(** The name of the scope that expressions are compiled against, for a
    [subScopeID] of its declared type [null | number]. *)
Definition scope_name (subScopeID : value) : option string :=
  match subScopeID with
  | VNull => Some "scope"
  | VNum n => Some (if (n =? 0)%Z then "scope" else "subScope_" +:+ pretty n)
  | _ => None
  end.

(** The state once the ROOT at [root] has been marked as needing a scope
    variable. *)
Definition scope_needed (st : state) (root : loc) : state :=
  match set_own (heap st) root "shouldDefineScope" (VBool true) with
  | Some h' => mkState h' (nextID st)
  | None => st
  end.

Definition is_object (h : list cell) (l : loc) : bool :=
  match h !! l with
  | Some (Obj _ _) => true
  | _ => false
  end.

(** What [formatExpression] needs of a context: a root object, a variable
    mapping, a scope. *)
Record formattable (st : state) (this root : loc) (m : gmap string QWebVar) (name : string) : Prop := {
  fmt_root : get (heap st) this "rootContext" = VRef root;
  fmt_object : is_object (heap st) root = true;
  fmt_variables : entries_of (heap st) (get (heap st) this "variables") = Some m;
  fmt_scope : scope_name (get (heap st) this "subScopeID") = Some name
}.

(** *** Emitting through a context *)

(** The state in which the object at [l] has [v] as its own attribute [k]. *)
Definition with_attr (st : state) (l : loc) (k : string) (v : value) : state :=
  match set_own (heap st) l k v with
  | Some h' => mkState h' (nextID st)
  | None => st
  end.

(** The state in which the ROOT at [root] is at the indent level [level]. *)
Definition at_level (st : state) (root : loc) (level : Z) : state :=
  with_attr st root "indentLevel" (VNum level).

(** What the emitting methods need of a context: a ROOT that holds the indent
    level as its own attribute, which is the one the context reads, and a code
    array.  [level] and [items] are the current level and instructions. *)
Record emitting (st : state) (this root a : loc) (level : Z) (items : list value) : Prop := {
  em_root : get (heap st) this "rootContext" = VRef root;
  em_owner : owner (heap st) this "indentLevel" = Some root;
  em_level : get (heap st) root "indentLevel" = VNum level;
  em_code : get (heap st) this "code" = VRef a;
  em_items : heap st !! a = Some (Arr items)
}.

(** The instruction that [addLine] makes of a line at an indent level. *)
Definition instruction (level : Z) (line : string) : value :=
  VStr (indentation level +:+ line).

(** The body of a block: its lines, emitted one after the other. *)
Fixpoint addLines (this : loc) (lines : list string) : M unit :=
  match lines with
  | [] => ret tt
  | line :: lines' => do addLine this line in addLines this lines'
  end.

(** The names of the methods of the class: with the attributes, the keys
    that [subContext] takes ([keyof CompilationContext]). *)
Definition method_names : list string :=
  [ "generateID"; "generateTemplateKey"; "generateCode"; "withParent"; "subContext";
    "indent"; "dedent"; "addLine"; "addIf"; "addElse"; "closeIf"; "getValue";
    "formatExpression"; "interpolate"; "startProtectScope"; "stopProtectScope";
    "startBlockScope" ].

(** The declaration of the scope variable in the prologue. *)
Definition scope_declaration : value :=
  VStr "    let scope = Object.create(context);".

(** A name from which the references of the variable mapping lead into a
    cycle. *)
Definition cyclic_from (m : gmap string QWebVar) (val : string) : Prop :=
  ∃ x : string, rtc (refers m) val x ∧ tc (refers m) x x.

(** The calls that draw an identifier from the counter of the class. *)
Definition draws_identifier (c : call) : bool :=
  match c with
  | GenerateID _ | GenerateTemplateKey _ _ | StartProtectScope _ | StartBlockScope _ => true
  | _ => false
  end.

(** *** What a run leaves in place *)

(** [array_kept front st st']: what an array held is still there, in order
    and in one piece; new items come behind it, and in front of it only when
    [front] is set. *)
Definition array_kept (front : bool) : relation state :=
  λ st st',
    ∀ a items, heap st !! a = Some (Arr items) →
      ∃ pre more, heap st' !! a = Some (Arr (pre ++ items ++ more)) ∧
                  (front = false → pre = []).

(** [mapping_kept st st']: the variable mappings are as they were. *)
Definition mapping_kept : relation state :=
  λ st st', ∀ a m, heap st !! a = Some (Dict m) → heap st' !! a = Some (Dict m).

(** The attributes that the methods of the class assign on a context that
    exists already. *)
Definition written_by_methods : list string :=
  ["rootNode"; "indentLevel"; "shouldDefineScope"].

(** [attributes_kept st st']: the objects of the earlier state read as
    before, but for the attributes that the methods assign. *)
Definition attributes_kept : relation state :=
  λ st st',
    List.length (heap st) ≤ List.length (heap st') ∧
    ∀ l k, l < List.length (heap st) → k ∉ written_by_methods →
           get (heap st') l k = get (heap st) l k.

Definition is_generateCode (c : call) : bool :=
  match c with GenerateCode _ => true | _ => false end.

Definition is_assign (c : call) : bool :=
  match c with Assign _ _ _ => true | _ => false end.

(** ** States for the examples *)

(** A process that has made no context yet. *)
Definition boot : state := mkState [] 1.

(** The state after [new CompilationContext()]: the context is at address 0,
    its code array at 1, its variable mapping at 2, its key stack at 3. *)
Definition fresh : state := snd (new_CompilationContext None boot).

(** The fresh context taken inside one loop. *)
Definition in_loop : state := snd (write 0 "loopNumber" (VNum 1) fresh).

(** The fresh context with the variables [a], which refers to [b], and [b],
    which stands for [c]. *)
Definition chain : gmap string QWebVar := <["a" := "b"]> (<["b" := "c"]> ∅).

Definition with_chain : state :=
  mkState (<[2 := Dict chain]> (heap fresh)) (nextID fresh).

(** A resolver for the examples: the expression as a member of the scope. *)
Definition member_of_scope (expr : string) (_ : gmap string QWebVar) (scope : string) : outcome string :=
  Ok (scope +:+ "." +:+ expr).

(** The fresh context after three [dedent]s: its indent level is -3. *)
Definition dedented : state :=
  snd (dedent 0 (snd (dedent 0 (snd (dedent 0 fresh))))).

(** The fresh context with the variables [a] and [b], which refer to each
    other. *)
Definition loop : gmap string QWebVar := <["a" := "b"]> (<["b" := "a"]> ∅).

Definition with_loop : state :=
  mkState (<[2 := Dict loop]> (heap fresh)) (nextID fresh).

(** * Properties *)

(** ** The store *)

Arguments get : simpl never.

Lemma get_go_fuel h k n :
  ∀ l fuel1 fuel2, l < n → l < fuel1 → l < fuel2 →
    get_go fuel1 h l k = get_go fuel2 h l k.
Proof.
  induction n as [|n IH]; intros l fuel1 fuel2 Hn H1 H2; [lia|].
  destruct fuel1 as [|f1]; [lia|]. destruct fuel2 as [|f2]; [lia|].
  simpl. destruct (h !! l) as [[proto props| |]|]; try reflexivity.
  destruct (props !! k); [reflexivity|].
  destruct proto as [p|]; [|reflexivity].
  case_bool_decide; [|reflexivity].
  apply IH; lia.
Qed.

(** One step of the walk along the prototype chain. *)
Lemma get_unfold h l k :
  get h l k =
  match h !! l with
  | Some (Obj proto props) =>
      match props !! k with
      | Some v => v
      | None =>
          match proto with
          | Some p => if bool_decide (p < l) then get h p k else VUndef
          | None => VUndef
          end
      end
  | _ => VUndef
  end.
Proof.
  unfold get at 1. simpl.
  destruct (h !! l) as [[proto props| |]|]; try reflexivity.
  destruct (props !! k); [reflexivity|].
  destruct proto as [p|]; [|reflexivity].
  case_bool_decide; [|reflexivity].
  unfold get. apply (get_go_fuel h k (S l)); lia.
Qed.

Lemma get_ext h1 h2 k l :
  (∀ l', l' ≤ l → obj_part (h1 !! l') = obj_part (h2 !! l')) →
  get h1 l k = get h2 l k.
Proof.
  induction l as [l IH] using lt_wf_ind. intros Hagree.
  rewrite (get_unfold h1), (get_unfold h2).
  pose proof (Hagree l (Nat.le_refl l)) as Hl.
  destruct (h1 !! l) as [[p1 m1| |]|], (h2 !! l) as [[p2 m2| |]|];
    simpl in Hl; try discriminate; try reflexivity.
  injection Hl as -> ->.
  destruct (m2 !! k); [reflexivity|].
  destruct p2 as [p|]; [|reflexivity].
  case_bool_decide; [|reflexivity].
  apply IH; [assumption|]. intros l' Hl'. apply Hagree. lia.
Qed.

Lemma get_alloc h c l k :
  l < List.length h → get (h ++ [c]) l k = get h l k.
Proof.
  intros Hl. apply get_ext. intros l' Hl'.
  rewrite lookup_app_l by lia. reflexivity.
Qed.

Lemma get_set_items h l xs k a :
  is_Some (items_of h (VRef a)) →
  get (<[a := Arr xs]> h) l k = get h l k.
Proof.
  intros [ys Hys]. apply get_ext. intros l' _.
  simpl in Hys. destruct (decide (a = l')) as [->|Hne].
  - destruct (h !! l') as [[| |]|] eqn:E; try discriminate.
    rewrite list_lookup_insert_eq by (eapply lookup_lt_Some; eassumption).
    reflexivity.
  - rewrite list_lookup_insert_ne by assumption. reflexivity.
Qed.

Lemma set_own_lookup h t a w h' l :
  set_own h t a w = Some h' →
  h' !! l =
  if decide (l = t)
  then match h !! t with
       | Some (Obj proto props) => Some (Obj proto (<[a := w]> props))
       | _ => None
       end
  else h !! l.
Proof.
  unfold set_own. intros H.
  destruct (h !! t) as [[proto props| |]|] eqn:E; try discriminate.
  injection H as <-. destruct (decide (l = t)) as [->|Hne].
  - apply list_lookup_insert_eq. eapply lookup_lt_Some; eassumption.
  - apply list_lookup_insert_ne. congruence.
Qed.

(** A write to one attribute is invisible to reads of the others. *)
Lemma get_set_own_ne h t a w h' l k :
  set_own h t a w = Some h' → k ≠ a → get h' l k = get h l k.
Proof.
  intros Hset Hne. induction l as [l IH] using lt_wf_ind.
  rewrite (get_unfold h'), (get_unfold h), (set_own_lookup _ _ _ _ _ l Hset).
  destruct (decide (l = t)) as [->|Hl].
  - destruct (h !! t) as [[proto props| |]|]; try reflexivity.
    rewrite lookup_insert_ne by congruence.
    destruct (props !! k); [reflexivity|].
    destruct proto as [p|]; [|reflexivity].
    case_bool_decide; [|reflexivity]. apply IH. assumption.
  - destruct (h !! l) as [[proto props| |]|]; try reflexivity.
    destruct (props !! k); [reflexivity|].
    destruct proto as [p|]; [|reflexivity].
    case_bool_decide; [|reflexivity]. apply IH. assumption.
Qed.

(** The receiver of a write reads what was written. *)
Lemma get_set_own_eq h t a w h' :
  set_own h t a w = Some h' → get h' t a = w.
Proof.
  intros Hset. rewrite get_unfold, (set_own_lookup _ _ _ _ _ t Hset).
  rewrite decide_True by reflexivity.
  unfold set_own in Hset.
  destruct (h !! t) as [[proto props| |]|]; try discriminate.
  rewrite lookup_insert_eq. reflexivity.
Qed.

(** A write leaves the variable mappings as they are. *)
Lemma entries_of_set_own h t a w h' v :
  set_own h t a w = Some h' → entries_of h' v = entries_of h v.
Proof.
  intros Hset. destruct v as [| | | | |l]; try reflexivity. simpl.
  rewrite (set_own_lookup _ _ _ _ _ l Hset).
  destruct (decide (l = t)) as [->|]; [|reflexivity].
  unfold set_own in Hset.
  destruct (h !! t) as [[| |]|]; try discriminate. reflexivity.
Qed.

Lemma get_invalid h l k : List.length h ≤ l → get h l k = VUndef.
Proof.
  intros Hl. rewrite get_unfold. by rewrite lookup_ge_None_2.
Qed.

(** A write is seen by the reads that ended at the receiver, and by no other. *)
Lemma get_set_own_cases h t a w h' l :
  set_own h t a w = Some h' →
  get h' l a = get h l a ∨ (get h l a = get h t a ∧ get h' l a = w).
Proof.
  intros Hset. induction l as [l IH] using lt_wf_ind.
  destruct (decide (l = t)) as [->|Hl].
  - right. split; [reflexivity|]. by eapply get_set_own_eq.
  - rewrite (get_unfold h' l), (get_unfold h l), (set_own_lookup _ _ _ _ _ l Hset).
    rewrite decide_False by assumption.
    destruct (h !! l) as [[proto props| |]|]; try by left.
    destruct (props !! a); [by left|].
    destruct proto as [p|]; [|by left].
    case_bool_decide; [|by left]. by apply IH.
Qed.

Lemma owner_go_fuel h k n :
  ∀ l fuel1 fuel2, l < n → l < fuel1 → l < fuel2 →
    owner_go fuel1 h l k = owner_go fuel2 h l k.
Proof.
  induction n as [|n IH]; intros l fuel1 fuel2 Hn H1 H2; [lia|].
  destruct fuel1 as [|f1]; [lia|]. destruct fuel2 as [|f2]; [lia|].
  simpl. destruct (h !! l) as [[proto props| |]|]; try reflexivity.
  destruct (props !! k); [reflexivity|].
  destruct proto as [p|]; [|reflexivity].
  case_bool_decide; [|reflexivity].
  apply IH; lia.
Qed.

Lemma owner_unfold h l k :
  owner h l k =
  match h !! l with
  | Some (Obj proto props) =>
      match props !! k with
      | Some _ => Some l
      | None =>
          match proto with
          | Some p => if bool_decide (p < l) then owner h p k else None
          | None => None
          end
      end
  | _ => None
  end.
Proof.
  unfold owner at 1. simpl.
  destruct (h !! l) as [[proto props| |]|]; try reflexivity.
  destruct (props !! k); [reflexivity|].
  destruct proto as [p|]; [|reflexivity].
  case_bool_decide; [|reflexivity].
  unfold owner. apply (owner_go_fuel h k (S l)); lia.
Qed.

Lemma owner_le h l k t : owner h l k = Some t → t ≤ l.
Proof.
  induction l as [l IH] using lt_wf_ind. rewrite owner_unfold.
  destruct (h !! l) as [[proto props| |]|]; try discriminate.
  destruct (props !! k); [by intros [= ->]|].
  destruct proto as [p|]; [|discriminate].
  case_bool_decide; [|discriminate]. intros Ho. apply IH in Ho; lia.
Qed.

(** A write to the owner is seen by the read. *)
Lemma get_set_owner h l k t w h' :
  owner h l k = Some t → set_own h t k w = Some h' → get h' l k = w.
Proof.
  intros Ho Hset. induction l as [l IH] using lt_wf_ind.
  destruct (decide (l = t)) as [->|Hl]; [by eapply get_set_own_eq|].
  rewrite owner_unfold in Ho.
  rewrite get_unfold, (set_own_lookup _ _ _ _ _ l Hset), decide_False by assumption.
  destruct (h !! l) as [[proto props| |]|]; try discriminate.
  destruct (props !! k); [congruence|].
  destruct proto as [p|]; [|discriminate].
  case_bool_decide; [|discriminate]. by apply IH.
Qed.

(** ** Relations that every step of a method respects

    For a preorder [R], [state_rel R] passes through binds, so it is enough to
    look at the operations that change the state. *)

Section StateRel.

Context (R : relation state) `{!PreOrder R}.

Lemma rel_ret {A} (a : A) : state_rel R (ret a).
Proof. intros st. reflexivity. Qed.

Lemma rel_throw {A} e : state_rel R (@throw A e).
Proof. intros st. reflexivity. Qed.

Lemma rel_lift {A} (o : outcome A) : state_rel R (lift o).
Proof. intros st. reflexivity. Qed.

Lemma rel_bind {A B} (m : M A) (k : A → M B) :
  state_rel R m → (∀ a, state_rel R (k a)) → state_rel R (bind m k).
Proof.
  intros Hm Hk st. unfold bind. specialize (Hm st).
  destruct (m st) as [[a|e] st']; simpl in *; [|assumption].
  etransitivity; [eassumption|apply Hk].
Qed.

Lemma rel_read l k : state_rel R (read l k).
Proof. intros st. reflexivity. Qed.

Lemma rel_as_num v : state_rel R (as_num v).
Proof. intros st. destruct v; reflexivity. Qed.

Lemma rel_as_obj v : state_rel R (as_obj v).
Proof.
  intros st. unfold as_obj. destruct v; try reflexivity.
  destruct (heap st !! l) as [[| |]|]; reflexivity.
Qed.

Lemma rel_as_dict v : state_rel R (as_dict v).
Proof. intros st. unfold as_dict. destruct (entries_of _ _); reflexivity. Qed.

Lemma rel_to_string v : state_rel R (to_string v).
Proof. intros st. destruct v; reflexivity. Qed.

Lemma rel_array_length a : state_rel R (array_length a).
Proof. intros st. unfold array_length. destruct (items_of _ _); reflexivity. Qed.

Lemma rel_new_Array_join n sep : state_rel R (new_Array_join n sep).
Proof.
  unfold new_Array_join. case_bool_decide; [apply rel_ret|apply rel_throw].
Qed.

End StateRel.

Create HintDb rel discriminated.

#[local] Hint Resolve rel_ret rel_throw rel_lift rel_read rel_as_num rel_as_obj
  rel_as_dict rel_to_string rel_array_length rel_new_Array_join : rel.

(** Splits a method's body along its binds and branches. *)
Ltac rel_step :=
  match goal with
  | |- state_rel _ (bind _ _) => apply rel_bind; [typeclasses eauto| |intros ?]
  | |- state_rel _ (when ?b _) => unfold when
  | |- state_rel _ (forget _) => unfold forget
  | |- state_rel _ (if ?b then _ else _) => destruct b
  | |- state_rel _ (match ?x with _ => _ end) => destruct x
  | |- state_rel _ _ => solve [auto with rel typeclass_instances]
  end.

Ltac rel := repeat rel_step.

(** ** The identifier counter never goes back *)

#[global] Instance on_counter_preorder (R : relation Z) `{!PreOrder R} :
  PreOrder (on_counter R).
Proof.
  split.
  - intros st. unfold on_counter. reflexivity.
  - intros st1 st2 st3. unfold on_counter. apply transitivity.
Qed.

Section Counter.

Context (R : relation Z) `{!PreOrder R}.

Lemma counter_write l k v : state_rel (on_counter R) (write l k v).
Proof.
  intros st. unfold write, on_counter. destruct (set_own _ _ _ _); reflexivity.
Qed.

Lemma counter_alloc c : state_rel (on_counter R) (alloc c).
Proof. intros st. unfold on_counter. reflexivity. Qed.

Lemma counter_set_items a xs : state_rel (on_counter R) (set_items a xs).
Proof. intros st. unfold on_counter. destruct a; reflexivity. Qed.

Lemma counter_push a x : state_rel (on_counter R) (push a x).
Proof.
  intros st. unfold push.
  destruct (items_of _ _); [apply counter_set_items|unfold on_counter; reflexivity].
Qed.

Lemma counter_unshift a x : state_rel (on_counter R) (unshift a x).
Proof.
  intros st. unfold unshift.
  destruct (items_of _ _); [apply counter_set_items|unfold on_counter; reflexivity].
Qed.

Hint Resolve counter_write counter_alloc counter_push counter_unshift : rel.

Lemma counter_addLine this line : state_rel (on_counter R) (addLine this line).
Proof. unfold addLine. rel. Qed.

Lemma counter_subContext this key v :
  state_rel (on_counter R) (subContext this key v).
Proof. unfold subContext. rel. Qed.

Hint Resolve counter_addLine counter_subContext : rel.

Lemma counter_new name : state_rel (on_counter R) (new_CompilationContext name).
Proof. unfold new_CompilationContext. rel. Qed.

Lemma counter_generateCode this : state_rel (on_counter R) (generateCode this).
Proof. unfold generateCode, define_if. rel. Qed.

Lemma counter_withParent this node :
  state_rel (on_counter R) (withParent this node).
Proof. unfold withParent. rel. Qed.

Lemma counter_indent this : state_rel (on_counter R) (indent this).
Proof. unfold indent. rel. Qed.

Lemma counter_dedent this : state_rel (on_counter R) (dedent this).
Proof. unfold dedent. rel. Qed.

Lemma counter_getValue depth this val :
  state_rel (on_counter R) (getValue depth this val).
Proof.
  revert val. induction depth as [|depth IH]; intros val; simpl; rel.
Qed.

(** The methods that draw identifiers, for a relation that relates a counter
    to its successor. *)
Hypothesis R_succ : ∀ n : Z, R n (n + 1)%Z.

Lemma counter_generateID this : state_rel (on_counter R) (generateID this).
Proof. intros st. apply R_succ. Qed.

Hint Resolve counter_generateID counter_indent counter_dedent : rel.

Lemma counter_generateTemplateKey this prefix :
  state_rel (on_counter R) (generateTemplateKey this prefix).
Proof. unfold generateTemplateKey. rel. Qed.

Lemma counter_startProtectScope this :
  state_rel (on_counter R) (startProtectScope this).
Proof. unfold startProtectScope. rel. Qed.

Lemma counter_startBlockScope this :
  state_rel (on_counter R) (startBlockScope this).
Proof. unfold startBlockScope. rel. Qed.

Variable compileExpr : string → gmap string QWebVar → string → outcome string.

Lemma counter_formatExpression this expr :
  state_rel (on_counter R) (formatExpression compileExpr this expr).
Proof. unfold formatExpression. rel. Qed.

Hint Resolve counter_formatExpression : rel.

Lemma counter_String_replace_go fuel s f :
  (∀ m, state_rel (on_counter R) (f m)) →
  state_rel (on_counter R) (String_replace_go fuel s f).
Proof.
  intros Hf. revert s. induction fuel as [|fuel IH]; intros s; simpl; [rel|].
  destruct (INTERP_REGEXP s) as [[[before m] rest]|]; rel.
Qed.

Lemma counter_interpolate this s :
  state_rel (on_counter R) (interpolate compileExpr this s).
Proof.
  unfold interpolate.
  destruct (match String_match s with Some (m0 :: _) => _ | _ => false end).
  - rel.
  - apply rel_bind; [typeclasses eauto| |intros r; rel].
    apply counter_String_replace_go. intros m. rel.
Qed.

Lemma counter_exec c : state_rel (on_counter R) (exec compileExpr c).
Proof.
  pose proof counter_new. pose proof counter_generateTemplateKey.
  pose proof counter_generateCode. pose proof counter_withParent.
  pose proof counter_getValue. pose proof counter_startProtectScope.
  pose proof counter_startBlockScope. pose proof counter_interpolate.
  destruct c; simpl; unfold addIf, addElse, closeIf, stopProtectScope; rel.
Qed.

Lemma counter_run calls st :
  R (nextID st) (nextID (run compileExpr calls st)).
Proof.
  revert st. induction calls as [|c calls IH]; intros st; simpl; [reflexivity|].
  etransitivity; [apply (counter_exec c)|apply IH].
Qed.

End Counter.

(** ** Strings *)

Lemma append_cons (x : ascii) (a b : string) :
  String x a +:+ b = String x (a +:+ b).
Proof. reflexivity. Qed.

Lemma append_nil_l (a : string) : "" +:+ a = a.
Proof. reflexivity. Qed.

Lemma append_assoc (a b c : string) : (a +:+ b) +:+ c = a +:+ (b +:+ c).
Proof.
  induction a as [|x a IH]; [reflexivity|]. rewrite !append_cons. by rewrite IH.
Qed.

Lemma append_nil_r (a : string) : a +:+ "" = a.
Proof.
  induction a as [|x a IH]; [reflexivity|]. rewrite append_cons. by rewrite IH.
Qed.

Lemma length_append (a b : string) :
  String.length (a +:+ b) = String.length a + String.length b.
Proof.
  induction a as [|x a IH]; [reflexivity|]. rewrite append_cons. simpl.
  by rewrite IH.
Qed.

(** ** Emitting an instruction *)

(** [addLine] on a context that reaches an array through [code] and an indent
    level in range: the line goes to the end of that array, behind the
    whitespace of the level, and its index comes back. *)
Lemma addLine_ok this line st lvl a items :
  get (heap st) this "indentLevel" = VNum lvl →
  (0 ≤ lvl + 2 < 2 ^ 32)%Z →
  get (heap st) this "code" = VRef a →
  heap st !! a = Some (Arr items) →
  addLine this line st =
    (Ok (Z.of_nat (List.length items)),
     mkState (<[a := Arr (items ++ [VStr (indentation lvl +:+ line)])]> (heap st))
       (nextID st)).
Proof.
  intros Hlvl Hrange Hcode Ha.
  unfold addLine, bind, read. simpl. rewrite Hlvl. simpl.
  unfold new_Array_join. rewrite bool_decide_true by assumption. simpl.
  rewrite Hcode. unfold push. simpl. rewrite Ha. simpl.
  rewrite get_set_items by (simpl; rewrite Ha; eauto).
  rewrite Hcode. unfold array_length. simpl.
  rewrite list_lookup_insert_eq by (eapply lookup_lt_Some; eassumption).
  unfold ret, indentation. rewrite length_app. simpl.
  repeat f_equal; lia.
Qed.

Lemma array_length_state a st : snd (array_length a st) = st.
Proof. unfold array_length. destruct (items_of _ _); reflexivity. Qed.

(** Emitting an instruction changes no attribute of any context, whether it
    succeeds or not. *)
Lemma addLine_get this line st l k :
  get (heap (snd (addLine this line st))) l k = get (heap st) l k.
Proof.
  unfold addLine, bind, read. simpl.
  destruct (get (heap st) this "indentLevel"); try reflexivity. simpl.
  unfold new_Array_join. case_bool_decide; [|reflexivity]. simpl.
  unfold push. destruct (items_of (heap st) (get (heap st) this "code")) as [xs|] eqn:E;
    [|reflexivity].
  destruct (get (heap st) this "code") as [| | | | |a]; try discriminate. simpl.
  assert (∀ l' k', get (<[a := Arr (xs ++ [VStr (repeat_string (Z.to_nat (n + 2 - 1)) "    " +:+ line)])]> (heap st)) l' k' = get (heap st) l' k') as Hframe.
  { intros l' k'. apply get_set_items. rewrite E. eauto. }
  destruct (array_length _ _) as [[?|?] st'] eqn:E'; apply (f_equal snd) in E';
    rewrite array_length_state in E'; simpl in E'; subst st'; apply Hframe.
Qed.

Lemma addLine_length this line st :
  List.length (heap (snd (addLine this line st))) = List.length (heap st).
Proof.
  unfold addLine, bind, read. simpl.
  destruct (get (heap st) this "indentLevel"); try reflexivity. simpl.
  unfold new_Array_join. case_bool_decide; [|reflexivity]. simpl.
  unfold push. destruct (items_of (heap st) (get (heap st) this "code")) as [xs|] eqn:E;
    [|reflexivity].
  destruct (get (heap st) this "code") as [| | | | |a]; try discriminate. simpl.
  destruct (array_length _ _) as [[?|?] st'] eqn:E'; apply (f_equal snd) in E';
    rewrite array_length_state in E'; simpl in E'; subst st'; apply length_insert.
Qed.

(** ** Deriving a context *)

Lemma subContext_ok this key v st :
  subContext this key v st =
    (Ok (List.length (heap st)),
     mkState (heap st ++ [Obj (Some this) {[key := v]}]) (nextID st)).
Proof.
  unfold subContext, bind, alloc, write, set_own. simpl.
  rewrite lookup_app_r by lia. rewrite Nat.sub_diag. simpl.
  rewrite insert_app_r_alt by lia. rewrite Nat.sub_diag. simpl.
  rewrite insert_empty. reflexivity.
Qed.

(** ** Template keys *)

Lemma key_loop_levels fuel :
  ∀ i bound key, (bound - i ≤ Z.of_nat fuel)%Z →
    key_loop fuel i bound key =
    key +:+ concat_strings ((λ i, "${key" +:+ pretty i +:+ "}__") <$> seqZ i (bound - i)).
Proof.
  induction fuel as [|fuel IH]; intros i bound key Hfuel.
  - rewrite seqZ_nil by lia. simpl. by rewrite append_nil_r.
  - simpl. destruct (Z.ltb_spec i bound) as [Hlt|Hge].
    + rewrite IH by lia. rewrite (seqZ_cons i) by lia. simpl.
      rewrite append_assoc.
      by replace (Z.succ i) with (i + 1)%Z by lia;
         replace (Z.pred (bound - i)) with (bound - (i + 1))%Z by lia.
    + rewrite seqZ_nil by lia. simpl. by rewrite append_nil_r.
Qed.

(** C5.  On a context whose [loopNumber] is 0 and whose [hasKey0] is false,
    [generateTemplateKey(prefix)] returns the quoted literal
    ['<prefix>__<id>__'], where [id] is the identifier that [generateID]
    hands out in that state; the store is left as it was, so no instruction
    is appended to any code sequence, and the counter has advanced by one. *)
Theorem generateTemplateKey_literal this prefix st :
  get (heap st) this "loopNumber" = VNum 0 →
  get (heap st) this "hasKey0" = VBool false →
  ∃ id, fst (generateID this st) = Ok id ∧
    generateTemplateKey this prefix st =
      (Ok ("'" +:+ prefix +:+ "__" +:+ pretty id +:+ "__'"),
       mkState (heap st) (nextID st + 1)).
Proof.
  intros Hl Hk. exists (nextID st). split; [reflexivity|].
  unfold generateTemplateKey, bind, generateID, read. simpl.
  rewrite Hl, Hk. reflexivity.
Qed.

(** C6.  On a context inside loops or with an explicit key at level 0 (not
    both [loopNumber] 0 and [hasKey0] false), [generateTemplateKey(prefix)]
    appends exactly one instruction to the code sequence, the binding of the
    composite key to [k<id>], and returns the name [k<id>].  With
    [loopNumber] 1 and [hasKey0] false the composite key is
    [`<prefix>__<id>__${key1}__`]: it embeds [key1] and nothing else. *)
Theorem generateTemplateKey_composite this prefix st n b lvl a items :
  get (heap st) this "loopNumber" = VNum n →
  get (heap st) this "hasKey0" = VBool b →
  ¬ (n = 0%Z ∧ b = false) →
  get (heap st) this "indentLevel" = VNum lvl →
  (0 ≤ lvl + 2 < 2 ^ 32)%Z →
  get (heap st) this "code" = VRef a →
  heap st !! a = Some (Arr items) →
  ∃ id, fst (generateID this st) = Ok id ∧
    generateTemplateKey this prefix st =
      (Ok ("k" +:+ pretty id),
       mkState
         (<[a := Arr (items ++ [VStr (indentation lvl +:+ "let k" +:+ pretty id +:+ " = "
                                      +:+ composite_key prefix id b n +:+ ";")])]>
            (heap st))
         (nextID st + 1)) ∧
    (n = 1%Z → b = false →
     composite_key prefix id b n = "`" +:+ prefix +:+ "__" +:+ pretty id +:+ "__${key1}__`").
Proof.
  intros Hl Hk Hnot Hlvl Hrange Hcode Ha. exists (nextID st).
  split; [reflexivity|]. split.
  - unfold generateTemplateKey, bind, generateID, read. simpl.
    rewrite Hl, Hk. simpl.
    assert (strict_eq (VNum n) (VNum 0) && negb b = false) as ->.
    { unfold strict_eq. destruct b; [by rewrite andb_false_r|].
      rewrite bool_decide_false; [reflexivity|]. intros [= ->]. by apply Hnot. }
    erewrite addLine_ok; [|simpl; eassumption..]. simpl. unfold ret.
    rewrite key_loop_levels by (destruct b; lia).
    unfold composite_key, key_levels. rewrite !append_assoc. reflexivity.
  - intros -> ->. reflexivity.
Qed.

(** ** Final code assembly *)

Section CodeArray.

Variables (st : state) (a : loc) (items : list value).
Hypothesis Ha : heap st !! a = Some (Arr items).

Lemma with_items_get xs l k :
  get (heap (with_items st a xs)) l k = get (heap st) l k.
Proof. apply get_set_items. simpl. rewrite Ha. eauto. Qed.

Lemma with_items_lookup xs : heap (with_items st a xs) !! a = Some (Arr xs).
Proof.
  simpl. apply list_lookup_insert_eq. eapply lookup_lt_Some; eassumption.
Qed.

Lemma with_items_id : with_items st a items = st.
Proof. unfold with_items. rewrite list_insert_id by assumption. by destruct st. Qed.

Lemma unshift_with_items x xs :
  unshift (VRef a) x (with_items st a xs) = (Ok tt, with_items st a (x :: xs)).
Proof.
  unfold unshift. cbn [items_of]. rewrite with_items_lookup.
  unfold set_items, with_items. simpl. by rewrite list_insert_insert_eq.
Qed.

Variable this : loc.
Hypothesis Hcode : get (heap st) this "code" = VRef a.

Lemma define_if_with_items flag line xs :
  define_if this flag line (with_items st a xs) =
    (Ok tt, with_items st a (declaration (truthy (get (heap st) this flag)) line ++ xs)).
Proof.
  unfold define_if, bind, read, when. rewrite !with_items_get.
  destruct (truthy (get (heap st) this flag)); [|reflexivity].
  rewrite with_items_get, Hcode. apply unshift_with_items.
Qed.

Lemma generateCode_with_items xs :
  generateCode this (with_items st a xs) =
    (Ok (VRef a),
     with_items st a
       (prepend_each
          (declarations
             (truthy (get (heap st) this "shouldDefineResult"))
             (truthy (get (heap st) this "shouldDefineScope"))
             (truthy (get (heap st) this "shouldDefineRefs"))
             (truthy (get (heap st) this "shouldDefineParent"))
             (truthy (get (heap st) this "hasParentWidget"))
             (truthy (get (heap st) this "shouldDefineQWeb"))
             (truthy (get (heap st) this "shouldDefineUtils")))
          xs)).
Proof.
  unfold generateCode.
  unfold bind at 1. rewrite define_if_with_items.
  unfold bind at 1. rewrite define_if_with_items.
  unfold bind at 1. rewrite define_if_with_items.
  unfold bind at 1. unfold read at 1. rewrite with_items_get.
  unfold bind at 1.
  assert (∀ ys,
    when (truthy (get (heap st) this "shouldDefineParent"))
      (let* hasParentWidget := read this "hasParentWidget" in
       let* code := read this "code" in
       if truthy hasParentWidget
       then unshift code (VStr "    let parent = extra.parent;")
       else unshift code (VStr "    let parent = context;"))
      (with_items st a ys) =
    (Ok tt,
     with_items st a
       (declaration (truthy (get (heap st) this "shouldDefineParent"))
          (if truthy (get (heap st) this "hasParentWidget")
           then "    let parent = extra.parent;"
           else "    let parent = context;") ++ ys))) as ->.
  { intros ys. unfold when, bind, read.
    destruct (truthy (get (heap st) this "shouldDefineParent")); [|reflexivity].
    rewrite !with_items_get, Hcode.
    destruct (truthy (get (heap st) this "hasParentWidget"));
      apply unshift_with_items. }
  unfold bind at 1. rewrite define_if_with_items.
  unfold bind at 1. rewrite define_if_with_items.
  unfold read. rewrite with_items_get, Hcode. reflexivity.
Qed.

End CodeArray.

(** The layout that the successive prepends produce: the declaration
    prepended last comes first. *)
Lemma prepend_each_declarations result scope refs parent hasParentWidget qweb utils code :
  prepend_each (declarations result scope refs parent hasParentWidget qweb utils) code =
  declaration utils "    let utils = this.constructor.utils;"
  ++ declaration qweb "    let QWeb = this.constructor;"
  ++ declaration parent (if hasParentWidget
                         then "    let parent = extra.parent;"
                         else "    let parent = context;")
  ++ declaration refs "    context.__owl__.refs = context.__owl__.refs || {};"
  ++ declaration scope "    let scope = Object.create(context);"
  ++ declaration result "    let result;"
  ++ code.
Proof. reflexivity. Qed.

(** C8.  [generateCode], on a context that reads the ROOT's should-define
    flags (the ROOT itself, or a context derived from it that overrides none
    of them), prepends to the accumulated instruction sequence the
    declarations the flags ask for, one after the other in the order result
    variable, scope variable, refs table, parent reference, compiler handle,
    utility helpers; a cleared flag contributes no line; the parent
    reference reads [extra.parent] when [hasParentWidget] is set and the
    ambient [context] otherwise.  The sequence is updated in place and
    returned; nothing else changes.  Since each declaration goes to the
    front, the last one prepended is the first line of the result. *)
Theorem generateCode_prologue this root st a items :
  get (heap st) this "rootContext" = VRef root →
  (∀ flag, flag ∈ ["shouldDefineResult"; "shouldDefineScope"; "shouldDefineRefs";
                   "shouldDefineParent"; "shouldDefineQWeb"; "shouldDefineUtils"] →
           get (heap st) this flag = get (heap st) root flag) →
  get (heap st) this "code" = VRef a →
  heap st !! a = Some (Arr items) →
  let flag name := truthy (get (heap st) root name) in
  let hasParentWidget := truthy (get (heap st) this "hasParentWidget") in
  let decls :=
    declarations (flag "shouldDefineResult") (flag "shouldDefineScope")
      (flag "shouldDefineRefs") (flag "shouldDefineParent") hasParentWidget
      (flag "shouldDefineQWeb") (flag "shouldDefineUtils") in
  generateCode this st = (Ok (VRef a), with_items st a (prepend_each decls items)) ∧
  prepend_each decls items =
    declaration (flag "shouldDefineUtils") "    let utils = this.constructor.utils;"
    ++ declaration (flag "shouldDefineQWeb") "    let QWeb = this.constructor;"
    ++ declaration (flag "shouldDefineParent")
         (if hasParentWidget
          then "    let parent = extra.parent;"
          else "    let parent = context;")
    ++ declaration (flag "shouldDefineRefs")
         "    context.__owl__.refs = context.__owl__.refs || {};"
    ++ declaration (flag "shouldDefineScope") "    let scope = Object.create(context);"
    ++ declaration (flag "shouldDefineResult") "    let result;"
    ++ items.
Proof.
  intros Hroot Hflags Hcode Ha. simpl. split.
  - rewrite <- (with_items_id st a items Ha) at 1.
    rewrite (generateCode_with_items st a items Ha this Hcode).
    rewrite (Hflags "shouldDefineResult"), (Hflags "shouldDefineScope"),
      (Hflags "shouldDefineRefs"), (Hflags "shouldDefineParent"),
      (Hflags "shouldDefineQWeb"), (Hflags "shouldDefineUtils")
      by (rewrite !elem_of_cons; tauto).
    reflexivity.
  - apply prepend_each_declarations.
Qed.

(** ** A fresh context *)

Lemma alloc_app h l n c :
  alloc c (mkState (h ++ l) n) =
    (Ok (List.length h + List.length l), mkState (h ++ (l ++ [c])) n).
Proof. unfold alloc. simpl. by rewrite length_app, app_assoc. Qed.

Lemma write_app h l n i k v p m :
  l !! i = Some (Obj p m) →
  write (List.length h + i) k v (mkState (h ++ l) n) =
    (Ok tt, mkState (h ++ <[i := Obj p (<[k := v]> m)]> l) n).
Proof.
  intros Hl. unfold write, set_own. simpl.
  rewrite lookup_app_r by lia. replace (length h + i - length h) with i by lia.
  rewrite Hl. rewrite insert_app_r_alt by lia.
  by replace (length h + i - length h) with i by lia.
Qed.

Lemma write_app_0 h l n k v p m :
  l !! 0 = Some (Obj p m) →
  write (List.length h) k v (mkState (h ++ l) n) =
    (Ok tt, mkState (h ++ <[0 := Obj p (<[k := v]> m)]> l) n).
Proof.
  intros Hl. rewrite <- (Nat.add_0_r (List.length h)). by apply write_app.
Qed.

Lemma get_app_root h l i k m :
  l !! i = Some (Obj None m) →
  get (h ++ l) (List.length h + i) k = default VUndef (m !! k).
Proof.
  intros Hl. rewrite get_unfold. rewrite lookup_app_r by lia.
  replace (length h + i - length h) with i by lia. rewrite Hl.
  by destruct (m !! k).
Qed.

Lemma lookup_app_plus {A} (h l : list A) i :
  (h ++ l) !! (List.length h + i) = l !! i.
Proof. rewrite lookup_app_r by lia. f_equal. lia. Qed.

Lemma insert_app_plus {A} (h l : list A) i x :
  <[List.length h + i := x]> (h ++ l) = h ++ <[i := x]> l.
Proof. rewrite insert_app_r_alt by lia. do 2 f_equal. lia. Qed.

(** Runs the assignments to the object at rank [0] of the store's tail. *)
Ltac run_writes :=
  repeat (unfold bind at 1; erewrite write_app by reflexivity;
          cbn [list_insert insert]).

(** The constructor: the new context and its three cells at the end of the
    store, the h-binding line emitted. *)
Lemma new_CompilationContext_ok name st :
  new_CompilationContext name st =
    (Ok (List.length (heap st)),
     mkState (heap st ++ [Obj None (fresh_attributes (List.length (heap st)) name);
                          Arr [VStr "    let h = this.h;"]; Dict ∅; Arr []])
       (nextID st)).
Proof.
  destruct st as [h n]. simpl. rewrite <- (app_nil_r h) at 1.
  unfold new_CompilationContext.
  unfold bind at 1. rewrite alloc_app. cbn [List.length app].
  unfold bind at 1. rewrite alloc_app. cbn [List.length app].
  run_writes.
  unfold bind at 1. rewrite alloc_app. cbn [List.length app].
  run_writes.
  unfold bind at 1. rewrite alloc_app. cbn [List.length app].
  run_writes.
  unfold bind at 1.
  erewrite (addLine_ok _ _ _ 0 (List.length h + 1) []);
    [ | cbn [heap]; erewrite get_app_root by reflexivity; vm_compute; reflexivity
      | cbn; lia
      | cbn [heap]; erewrite get_app_root by reflexivity; vm_compute; reflexivity
      | cbn [heap]; by rewrite lookup_app_plus ].
  unfold ret. cbn [heap nextID]. rewrite insert_app_plus, Nat.add_0_r.
  reflexivity.
Qed.

(** C10.  The constructor, with or without a name, emits one instruction: the
    code sequence of a fresh context is exactly the line ["    let h = this.h;"].
    So the first [addLine] after it returns the index 1, and what
    [generateCode] prepends (for the flags as the constructor leaves them: the
    result variable only; for any setting of the flags: the declarations they
    ask for) ends up in front of that line. *)
Theorem fresh_context_code name st :
  let r := new_CompilationContext name st in
  ∃ this a,
    fst r = Ok this ∧
    get (heap (snd r)) this "code" = VRef a ∧
    heap (snd r) !! a = Some (Arr [VStr "    let h = this.h;"]) ∧
    (∀ line, fst (addLine this line (snd r)) = Ok 1%Z) ∧
    (let r' := generateCode this (snd r) in
     fst r' = Ok (VRef a) ∧
     heap (snd r') !! a = Some (Arr [VStr "    let result;"; VStr "    let h = this.h;"])) ∧
    (∀ result scope refs parent hasParentWidget qweb utils,
       let r' := generateCode this
                   (snd (assign_flags this result scope refs parent
                           hasParentWidget qweb utils (snd r))) in
       fst r' = Ok (VRef a) ∧
       heap (snd r') !! a =
         Some (Arr (declaration utils "    let utils = this.constructor.utils;"
                    ++ declaration qweb "    let QWeb = this.constructor;"
                    ++ declaration parent (if hasParentWidget
                                           then "    let parent = extra.parent;"
                                           else "    let parent = context;")
                    ++ declaration refs
                         "    context.__owl__.refs = context.__owl__.refs || {};"
                    ++ declaration scope "    let scope = Object.create(context);"
                    ++ declaration result "    let result;"
                    ++ [VStr "    let h = this.h;"]))).
Proof.
  cbn zeta. rewrite new_CompilationContext_ok. destruct st as [h n].
  cbn [fst snd heap nextID].
  exists (List.length h), (List.length h + 1).
  assert (∀ L m k, L !! 0 = Some (Obj None m) →
            get (h ++ L) (List.length h) k = default VUndef (m !! k)) as Hget.
  { intros L m k HL. rewrite <- (Nat.add_0_r (List.length h)).
    by apply get_app_root. }
  split; [reflexivity|].
  split; [erewrite Hget by reflexivity; vm_compute; reflexivity|].
  split; [by rewrite lookup_app_plus|].
  split; [|split].
  - intros line.
    erewrite (addLine_ok _ _ _ 0 (List.length h + 1) [VStr "    let h = this.h;"]);
      [ reflexivity
      | cbn [heap]; erewrite Hget by reflexivity; vm_compute; reflexivity
      | cbn; lia
      | cbn [heap]; erewrite Hget by reflexivity; vm_compute; reflexivity
      | cbn [heap]; by rewrite lookup_app_plus ].
  - match goal with |- context [generateCode _ ?s] => set (st1 := s) end.
    assert (heap st1 !! (List.length h + 1) = Some (Arr [VStr "    let h = this.h;"]))
      as Ha by (subst st1; cbn [heap]; by rewrite lookup_app_plus).
    assert (get (heap st1) (List.length h) "code" = VRef (List.length h + 1)) as Hcode
      by (subst st1; cbn [heap]; erewrite Hget by reflexivity; vm_compute; reflexivity).
    rewrite <- (with_items_id _ _ _ Ha).
    rewrite (generateCode_with_items _ _ _ Ha _ Hcode). cbn [fst snd].
    split; [reflexivity|]. rewrite (with_items_lookup _ _ _ Ha).
    subst st1. cbn [heap]. erewrite !Hget by reflexivity. reflexivity.
  - intros result scope refs parent hasParentWidget qweb utils.
    match goal with
    | |- context [assign_flags ?t ?b1 ?b2 ?b3 ?b4 ?b5 ?b6 ?b7 ?s] =>
        remember (assign_flags t b1 b2 b3 b4 b5 b6 b7 s) as m eqn:Hm
    end.
    unfold assign_flags in Hm.
    repeat (unfold bind at 1 in Hm; erewrite write_app_0 in Hm by reflexivity;
            cbn [list_insert insert] in Hm).
    erewrite write_app_0 in Hm by reflexivity. cbn [list_insert insert] in Hm.
    subst m. cbn [snd].
    match goal with |- context [generateCode _ ?s] => set (st1 := s) end.
    assert (heap st1 !! (List.length h + 1) = Some (Arr [VStr "    let h = this.h;"]))
      as Ha by (subst st1; cbn [heap]; by rewrite lookup_app_plus).
    assert (get (heap st1) (List.length h) "code" = VRef (List.length h + 1)) as Hcode
      by (subst st1; cbn [heap]; erewrite Hget by reflexivity; vm_compute; reflexivity).
    rewrite <- (with_items_id _ _ _ Ha).
    rewrite (generateCode_with_items _ _ _ Ha _ Hcode). cbn [fst snd].
    split; [reflexivity|]. rewrite (with_items_lookup _ _ _ Ha).
    subst st1. cbn [heap]. erewrite !Hget by reflexivity.
    destruct result, scope, refs, parent, hasParentWidget, qweb, utils; reflexivity.
Qed.

(** ** What a method can throw *)

Section Throws.

Variable P : exn → Prop.
Hypothesis P_IllTyped : P IllTyped.
Hypothesis P_RangeError : P RangeError.

Lemma throws_ret {A} (a : A) : throws_only P (ret a).
Proof. intros st e. discriminate. Qed.

Lemma throws_bind {A B} (m : M A) (k : A → M B) :
  throws_only P m → (∀ a, throws_only P (k a)) → throws_only P (bind m k).
Proof.
  intros Hm Hk st e. unfold bind. specialize (Hm st).
  destruct (m st) as [[a|e'] st']; simpl in *; [apply Hk|].
  intros [= <-]. by apply Hm.
Qed.

Lemma throws_read l k : throws_only P (read l k).
Proof. intros st e. discriminate. Qed.

Lemma throws_write l k v : throws_only P (write l k v).
Proof.
  intros st e. unfold write. destruct (set_own _ _ _ _); simpl; [discriminate|].
  by intros [= <-].
Qed.

Lemma throws_alloc c : throws_only P (alloc c).
Proof. intros st e. discriminate. Qed.

Lemma throws_as_num v : throws_only P (as_num v).
Proof. intros st e. destruct v; simpl; try discriminate; by intros [= <-]. Qed.

Lemma throws_as_obj v : throws_only P (as_obj v).
Proof.
  intros st e. unfold as_obj. destruct v; simpl; try by intros [= <-].
  destruct (heap st !! l) as [[| |]|]; simpl; try discriminate; by intros [= <-].
Qed.

Lemma throws_push a x : throws_only P (push a x).
Proof.
  intros st e. unfold push. destruct (items_of _ _) eqn:E; [|by intros [= <-]].
  destruct a; discriminate.
Qed.

Lemma throws_array_length a : throws_only P (array_length a).
Proof.
  intros st e. unfold array_length.
  destruct (items_of _ _); simpl; [discriminate|]. by intros [= <-].
Qed.

Lemma throws_new_Array_join n sep : throws_only P (new_Array_join n sep).
Proof.
  intros st e. unfold new_Array_join.
  case_bool_decide; simpl; [discriminate|]. by intros [= <-].
Qed.

End Throws.

Create HintDb throws discriminated.

#[local] Hint Resolve throws_ret throws_read throws_write throws_alloc
  throws_as_num throws_as_obj throws_push throws_array_length
  throws_new_Array_join : throws.

Ltac throws_step :=
  match goal with
  | |- throws_only _ (bind _ _) => apply throws_bind; [|intros ?]
  | |- throws_only _ (when ?b _) => unfold when
  | |- throws_only _ (if ?b then _ else _) => destruct b
  | |- throws_only _ _ => solve [auto with throws]
  end.

Ltac throws := repeat throws_step.

(** ** The single-root guard *)

(** C1, as the code has it.  [withParent] throws the structural-violation
    error exactly when its guard holds: multiple roots are not allowed, the
    receiver is the root context, and the receiver's [parentNode] or
    [parentTextNode] is set already (to a truthy value).  Then it fails at
    once, before any change of state, so a second call fails in the same
    way, whatever node identifiers are passed.  [withParent] does not assign
    the root's own [parentNode]: where the guard does not hold (a fresh root)
    no call of it throws this error. *)
Theorem withParent_structural_violation this st :
  (second_root st this →
   ∀ node1 node2,
     withParent this node1 st = (Throw (Error MULTIPLE_ROOTS), st) ∧
     withParent this node2 (snd (withParent this node1 st)) =
       (Throw (Error MULTIPLE_ROOTS), st)) ∧
  (¬ second_root st this →
   ∀ node, fst (withParent this node st) ≠ Throw (Error MULTIPLE_ROOTS)).
Proof.
  split.
  - intros (Hallow & Hroot & Hparent).
    assert (∀ node, withParent this node st = (Throw (Error MULTIPLE_ROOTS), st)) as H.
    { intros node. unfold withParent, bind, read. simpl.
      rewrite Hallow, Hroot. unfold strict_eq. rewrite bool_decide_true by reflexivity.
      destruct Hparent as [-> | ->]; simpl; [reflexivity|].
      by rewrite orb_true_r. }
    intros node1 node2. rewrite (H node1). simpl. by rewrite (H node2).
  - intros Hnot node.
    unfold withParent.
    unfold bind at 1, read at 1. unfold bind at 1, read at 1.
    unfold bind at 1, read at 1. unfold bind at 1, read at 1.
    destruct (negb _ && strict_eq _ _ && (_ || _)) eqn:Hguard.
    + exfalso. apply Hnot.
      apply andb_true_iff in Hguard as [Hguard Hparent].
      apply andb_true_iff in Hguard as [Hallow Hroot].
      unfold strict_eq in Hroot. apply bool_decide_eq_true in Hroot.
      split; [by apply negb_true_iff|]. split; [done|].
      by apply orb_true_iff.
    + intros Hthrow. revert Hthrow.
      match goal with
      | |- fst (?m st) = Throw ?e → False =>
          enough (throws_only (λ e', e' ≠ e) m) as H by (intros Hthrow; by eapply H)
      end.
      assert (∀ this line, throws_only (λ e', e' ≠ Error MULTIPLE_ROOTS) (addLine this line))
        as HaddLine by (intros; unfold addLine; throws).
      assert (∀ this key v, throws_only (λ e', e' ≠ Error MULTIPLE_ROOTS) (subContext this key v))
        as HsubContext by (intros; unfold subContext; throws).
      throws.
Qed.

(** ** The root node *)

#[global] Instance extends_preorder : PreOrder extends.
Proof.
  split.
  - intros st. split; [lia|done].
  - intros st1 st2 st3 [Hlen12 H12] [Hlen23 H23]. split; [lia|].
    intros l k Hl. rewrite H23 by lia. by apply H12.
Qed.

#[global] Instance rootNode_kept_preorder : PreOrder rootNode_kept.
Proof.
  split.
  - intros st root _. reflexivity.
  - intros st1 st2 st3 H12 H23 root Htruthy.
    rewrite H23, H12; [reflexivity|assumption|]. by rewrite H12.
Qed.

Lemma extends_rootNode_kept st st' : extends st st' → rootNode_kept st st'.
Proof.
  intros [_ Hget] root Htruthy. apply Hget.
  destruct (decide (root < List.length (heap st))) as [|Hge]; [assumption|].
  rewrite get_invalid in Htruthy by lia. discriminate.
Qed.

Lemma extends_addLine this line : state_rel extends (addLine this line).
Proof.
  intros st. split; [by rewrite addLine_length|].
  intros l k _. apply addLine_get.
Qed.

Lemma extends_subContext this key v : state_rel extends (subContext this key v).
Proof.
  intros st. rewrite subContext_ok. split; cbn [snd heap].
  - rewrite length_app. lia.
  - intros l k Hl. by apply get_alloc.
Qed.

#[local] Hint Resolve extends_addLine extends_subContext : rel.

(** [withParent] after its guard and the assignment of [rootNode]. *)
Lemma extends_withParent_tail this node :
  state_rel extends
    (let* parentNode := read this "parentNode" in
     let* emit :=
       (if truthy parentNode then ret false
        else
          let* rootContext := read this "rootContext" in
          let* root := as_obj rootContext in
          let* shouldDefineResult := read root "shouldDefineResult" in
          ret (truthy shouldDefineResult)) in
     do when emit (do addLine this ("result = vn" +:+ pretty node +:+ ";") in ret tt) in
     subContext this "parentNode" (VNum node)).
Proof. rel. Qed.

Lemma as_obj_state v st : snd (as_obj v st) = st.
Proof.
  unfold as_obj. destruct v; try reflexivity.
  destruct (heap st !! l) as [[| |]|]; reflexivity.
Qed.

Lemma rootNode_kept_withParent this node :
  state_rel rootNode_kept (withParent this node).
Proof.
  intros st. unfold withParent.
  unfold bind at 1, read at 1. unfold bind at 1, read at 1.
  unfold bind at 1, read at 1. unfold bind at 1, read at 1.
  destruct (negb _ && strict_eq _ _ && (_ || _)); [reflexivity|].
  unfold bind at 1, read at 1. unfold bind at 1.
  pose proof (as_obj_state (get (heap st) this "rootContext") st) as Hst0.
  destruct (as_obj _ st) as [[root'|e] st0]; simpl in Hst0; subst st0;
    [|reflexivity].
  unfold bind at 1, read at 1. unfold bind at 1.
  destruct (truthy (get (heap st) root' "rootNode")) eqn:Hset; simpl.
  - apply extends_rootNode_kept, extends_withParent_tail.
  - unfold write at 1.
    destruct (set_own (heap st) root' "rootNode" (VNum node)) as [h1|] eqn:Hw;
      [|reflexivity].
    etransitivity; [|apply extends_rootNode_kept, extends_withParent_tail].
    intros root Htruthy. simpl.
    destruct (get_set_own_cases _ _ _ _ _ root Hw) as [Hsame|[Hthrough _]];
      [assumption|].
    rewrite Hthrough, Hset in Htruthy. discriminate.
Qed.

(** C4, as the code has it.  The ROOT's [rootNode] is write-once for truthy
    values: once it reads as a value that is neither null nor [0], every
    later [withParent], on any context and with any node, leaves it
    unchanged, whether the call returns or throws. *)
Theorem rootNode_write_once root st calls :
  truthy (get (heap st) root "rootNode") = true →
  get (heap (run_withParent calls st)) root "rootNode" =
    get (heap st) root "rootNode".
Proof.
  revert st. induction calls as [|[this node] calls IH]; intros st Htruthy;
    simpl; [reflexivity|].
  pose proof (rootNode_kept_withParent this node st root Htruthy) as Hstep.
  rewrite IH; [exact Hstep|]. by rewrite Hstep.
Qed.

(** The first write: a call of [withParent] that returns, on a context whose
    root has no root node yet, records its node as the root's [rootNode]. *)
Lemma withParent_records_rootNode this root node st ctx st' :
  get (heap st) this "rootContext" = VRef root →
  truthy (get (heap st) root "rootNode") = false →
  withParent this node st = (Ok ctx, st') →
  get (heap st') root "rootNode" = VNum node.
Proof.
  intros Hroot Hunset. unfold withParent.
  unfold bind at 1, read at 1. unfold bind at 1, read at 1.
  unfold bind at 1, read at 1. unfold bind at 1, read at 1.
  destruct (negb _ && strict_eq _ _ && (_ || _)); [discriminate|].
  unfold bind at 1, read at 1. unfold bind at 1. rewrite Hroot.
  unfold as_obj at 1. destruct (heap st !! root) as [[proto props| |]|] eqn:Hcell;
    try discriminate.
  unfold bind at 1, read at 1. rewrite Hunset.
  unfold bind at 1. cbn [negb when]. unfold write, set_own. rewrite Hcell.
  match goal with |- ?m ?s = _ → _ => set (st1 := s); intros Hrun;
    pose proof (extends_withParent_tail this node st1) as [_ Hget]
  end.
  rewrite Hrun in Hget. cbn [snd] in Hget. rewrite Hget.
  - subst st1. cbn [heap]. eapply get_set_own_eq. unfold set_own.
    by rewrite Hcell.
  - subst st1. cbn [heap]. rewrite length_insert.
    eapply lookup_lt_Some; eassumption.
Qed.

(** ** Derived contexts *)

(** C2.  The context that [subContext(key, v)] derives from a context [this]
    reads [v] for [key] and, for every other attribute, what [this] reads at
    the time of the read: in every later store in which the derived context
    itself has not been assigned to, whatever else happened.  In particular
    an assignment through [this] to another attribute is seen through the
    derived context, and so is an assignment through the ROOT (or any
    ancestor) to an attribute that [this] reads from it. *)
Theorem subContext_reads this key v st :
  this < List.length (heap st) →
  ∃ ctx st',
    subContext this key v st = (Ok ctx, st') ∧
    (∀ h', h' !! ctx = heap st' !! ctx →
       get h' ctx key = v ∧ ∀ k, k ≠ key → get h' ctx k = get h' this k) ∧
    (∀ k w h', k ≠ key →
       set_own (heap st') this k w = Some h' → get h' ctx k = w) ∧
    (∀ root k w h', k ≠ key →
       owner (heap st') this k = Some root →
       set_own (heap st') root k w = Some h' → get h' ctx k = w).
Proof.
  intros Hthis. rewrite subContext_ok. eexists _, _. split; [reflexivity|].
  cbn [heap].
  assert ((heap st ++ [Obj (Some this) {[key := v]}]) !! List.length (heap st)
          = Some (Obj (Some this) {[key := v]})) as Hcell.
  { rewrite lookup_app_r by lia. by rewrite Nat.sub_diag. }
  assert (∀ h', h' !! List.length (heap st) = Some (Obj (Some this) {[key := v]}) →
            get h' (List.length (heap st)) key = v ∧
            ∀ k, k ≠ key → get h' (List.length (heap st)) k = get h' this k) as Hreads.
  { intros h' Hh'. split.
    - by rewrite get_unfold, Hh', lookup_singleton_eq.
    - intros k Hk. rewrite get_unfold, Hh', lookup_singleton_ne by done.
      by rewrite bool_decide_true. }
  split; [|split].
  - intros h' Hh'. apply Hreads. by rewrite Hh'.
  - intros k w h' Hk Hset.
    assert (h' !! List.length (heap st) = Some (Obj (Some this) {[key := v]})) as Hh'
      by (rewrite (set_own_lookup _ _ _ _ _ _ Hset), decide_False by lia; done).
    destruct (Hreads h' Hh') as [_ Hother]. rewrite Hother by assumption.
    by eapply get_set_own_eq.
  - intros root k w h' Hk Howner Hset. pose proof (owner_le _ _ _ _ Howner).
    assert (h' !! List.length (heap st) = Some (Obj (Some this) {[key := v]})) as Hh'
      by (rewrite (set_own_lookup _ _ _ _ _ _ Hset), decide_False by lia; done).
    destruct (Hreads h' Hh') as [_ Hother]. rewrite Hother by assumption.
    by eapply get_set_owner.
Qed.

(** ** Resolving a variable *)

Lemma getValue_follow this st m depth :
  entries_of (heap st) (get (heap st) this "variables") = Some m →
  ∀ val,
    getValue depth this val st =
      (match follow depth m val with
       | Some v => Ok v
       | None => Throw RangeError
       end, st).
Proof.
  intros Hm. induction depth as [|depth IH]; intros val; [reflexivity|].
  simpl. unfold bind, read, as_dict. simpl. rewrite Hm.
  destruct (m !! property_key val) as [next|]; [apply IH|].
  case_bool_decide; [apply IH|reflexivity].
Qed.

(** What [follow] ends in is neither a key of the mapping nor the name of an
    inherited member. *)
Lemma follow_final depth : ∀ m val r,
  follow depth m val = Some r →
  m !! property_key r = None ∧ property_key r ∉ Object_prototype.
Proof.
  induction depth as [|depth IH]; intros m val r; [discriminate|]. simpl.
  destruct (m !! property_key val) as [next|] eqn:E; [apply IH|].
  case_bool_decide; [apply IH|]. by intros [= <-].
Qed.

Lemma follow_unfold depth m val :
  follow (S depth) m val =
  match m !! property_key val with
  | Some next => follow depth m (Name next)
  | None =>
      if bool_decide (property_key val ∈ Object_prototype)
      then follow depth m (Inherited (property_key val))
      else Some val
  end.
Proof. reflexivity. Qed.

Lemma follow_more depth : ∀ m val r,
  follow depth m val = Some r → follow (S depth) m val = Some r.
Proof.
  induction depth as [|depth IH]; intros m val r; [discriminate|].
  rewrite (follow_unfold (S depth)), (follow_unfold depth).
  destruct (m !! property_key val) as [next|]; [by apply IH|].
  case_bool_decide; [by apply IH|done].
Qed.

Lemma follow_le depth depth' m val r :
  depth ≤ depth' → follow depth m val = Some r → follow depth' m val = Some r.
Proof.
  induction 1 as [|depth' _ IH]; [done|]. intros H. by apply follow_more, IH.
Qed.

Lemma resolve_more depth m (val v : string) :
  resolve depth m val = Some v → resolve (S depth) m val = Some v.
Proof.
  revert val. induction depth as [|depth IH]; intros val; [discriminate|].
  intros H. simpl in *. destruct (m !! val) as [next|]; [|assumption].
  by apply IH.
Qed.

Lemma resolve_le depth depth' m (val v : string) :
  depth ≤ depth' → resolve depth m val = Some v → resolve depth' m val = Some v.
Proof.
  induction 1 as [|depth' _ IH]; [done|]. intros H. by apply resolve_more, IH.
Qed.

(** A resolution that never meets [x] does not depend on the entry of [x]. *)
Lemma resolve_delete depth m (x val v : string) :
  resolve depth (delete x m) val = Some v → v ≠ x →
  resolve depth m val = Some v ∧ m !! v = None ∧ rtc (refers m) val v.
Proof.
  revert val. induction depth as [|depth IH]; intros val; [discriminate|].
  simpl. destruct (delete x m !! val) as [next|] eqn:E.
  - apply lookup_delete_Some in E as [Hne E]. rewrite E. intros H Hv.
    destruct (IH _ H Hv) as (? & ? & ?). split; [done|]. split; [done|].
    by eapply rtc_l.
  - intros [= ->] Hv. apply lookup_delete_None in E as [->|E]; [done|].
    rewrite E. done.
Qed.

(** As long as the references go on, [follow] goes their way; where they
    end in a name that no object inherits, so does [follow]. *)
Lemma follow_resolve depth : ∀ m (val : string),
  match resolve depth m val with
  | Some v => v ∉ Object_prototype → follow depth m (Name val) = Some (Name v)
  | None => follow depth m (Name val) = None
  end.
Proof.
  induction depth as [|depth IH]; intros m val; [done|]. simpl.
  destruct (m !! val) as [next|]; [apply IH|].
  intros Hv. by rewrite bool_decide_false.
Qed.

(** C9.  The claim fails on the names that the variable mapping inherits.  On
    a fresh context the mapping is empty, hence acyclic, and ["toString"] is
    not a key of it.  Yet [getValue("toString")] does not return the name:
    [in] finds the member inherited from [Object.prototype], the method calls
    itself on that member, a function, and returns it, after two calls.  At
    no depth of the stack does the name come back. *)
Theorem getValue_inherited_member :
  entries_of (heap fresh) (get (heap fresh) 0 "variables") = Some ∅ ∧
  acyclic ∅ ∧
  getValue 2 0 (Name "toString") fresh = (Ok (Inherited "toString"), fresh) ∧
  ∀ depth r st',
    getValue depth 0 (Name "toString") fresh = (Ok r, st') → r ≠ Name "toString".
Proof.
  assert (entries_of (heap fresh) (get (heap fresh) 0 "variables") = Some ∅) as Hm
    by (vm_compute; reflexivity).
  split; [exact Hm|]. split; [|split].
  - intros x Hx. inversion Hx as [? ? H|? ? ? H _]; unfold refers in H;
      by rewrite lookup_empty in H.
  - rewrite (getValue_follow _ _ _ _ Hm). vm_compute. reflexivity.
  - intros depth r st' Hrun. rewrite (getValue_follow _ _ _ _ Hm) in Hrun.
    destruct (follow depth ∅ (Name "toString")) as [r'|] eqn:Hr; [|discriminate].
    apply (f_equal fst) in Hrun. cbn [fst] in Hrun. injection Hrun as ->.
    apply follow_final in Hr as [_ Hr].
    intros ->. apply Hr. apply (bool_decide_unpack _). vm_compute. exact I.
Qed.

(** ** The interpolation expression *)

Lemma closing_spec s rest : closing s = Some rest ↔ s = "}}" +:+ rest.
Proof.
  unfold closing. split.
  - destruct s as [|c [|d s']]; try discriminate.
    destruct (Ascii.eqb c "}") eqn:Ec; [|discriminate].
    destruct (Ascii.eqb d "}") eqn:Ed; [|discriminate].
    apply Ascii.eqb_eq in Ec as ->. apply Ascii.eqb_eq in Ed as ->.
    by intros [= ->].
  - intros ->. reflexivity.
Qed.

Lemma lazy_body_cons c s :
  lazy_body (String c s) =
  match closing (String c s) with
  | Some rest => Some ("}}", rest)
  | None =>
      if dot c
      then match lazy_body s with
           | Some (m, rest) => Some (String c m, rest)
           | None => None
           end
      else None
  end.
Proof. reflexivity. Qed.

Lemma INTERP_REGEXP_cons c s :
  INTERP_REGEXP (String c s) =
  match match_here (String c s) with
  | Some (m, rest) => Some ("", m, rest)
  | None =>
      match INTERP_REGEXP s with
      | Some (before, m, rest) => Some (String c before, m, rest)
      | None => None
      end
  end.
Proof. reflexivity. Qed.

(** What the lazy part matches: an expression on one line up to the first
    two closing braces. *)
Lemma lazy_body_sound s :
  ∀ m rest, lazy_body s = Some (m, rest) →
    ∃ inner,
      m = inner +:+ "}}" ∧ s = inner +:+ "}}" +:+ rest ∧
      all_chars dot inner = true ∧
      ∀ u w, inner +:+ "}}" = u +:+ "}}" +:+ w → w = "".
Proof.
  induction s as [|c s IH]; intros m rest; [discriminate|].
  rewrite lazy_body_cons. destruct (closing (String c s)) as [rest'|] eqn:Ec.
  - intros [= <- <-]. apply closing_spec in Ec. exists "".
    split; [reflexivity|]. split; [assumption|]. split; [reflexivity|].
    intros u w H. apply (f_equal String.length) in H.
    rewrite !length_append in H. simpl in H.
    destruct w; [reflexivity|]. simpl in H. lia.
  - destruct (dot c) eqn:Hdot; [|discriminate].
    destruct (lazy_body s) as [[m' rest']|] eqn:El; [|discriminate].
    intros [= <- <-].
    destruct (IH _ _ eq_refl) as (inner & -> & -> & Hall & Hmin).
    exists (String c inner). split; [reflexivity|]. split; [reflexivity|].
    split; [simpl; by rewrite Hdot|].
    intros u w H. destruct u as [|c' u].
    + exfalso. rewrite append_nil_l in H.
      assert (closing (String c (inner +:+ "}}" +:+ rest')) = Some (w +:+ rest')) as Hc.
      { apply closing_spec.
        change (String c (inner +:+ "}}" +:+ rest'))
          with (String c inner +:+ "}}" +:+ rest').
        rewrite <- !append_assoc. rewrite H. by rewrite !append_assoc. }
      congruence.
    + rewrite !append_cons in H. injection H as _ H. by eapply Hmin.
Qed.

Lemma lazy_body_complete inner :
  ∀ rest,
    all_chars dot inner = true →
    (∀ u w, inner +:+ "}}" = u +:+ "}}" +:+ w → w = "") →
    lazy_body (inner +:+ "}}" +:+ rest) = Some (inner +:+ "}}", rest).
Proof.
  induction inner as [|c inner IH]; intros rest Hall Hmin; [reflexivity|].
  rewrite append_cons, lazy_body_cons.
  destruct (closing (String c (inner +:+ "}}" +:+ rest))) as [rest'|] eqn:Ec.
  - exfalso. apply closing_spec in Ec.
    destruct inner as [|d inner].
    + injection Ec as -> Ec.
      specialize (Hmin "" "}"). discriminate Hmin. reflexivity.
    + rewrite append_cons in Ec. injection Ec as -> -> Ec.
      specialize (Hmin "" (inner +:+ "}}") eq_refl).
      apply (f_equal String.length) in Hmin. rewrite length_append in Hmin.
      simpl in Hmin. lia.
  - simpl in Hall. apply andb_true_iff in Hall as [-> Hall].
    rewrite IH; [reflexivity|assumption|].
    intros u w H. apply (Hmin (String c u) w). rewrite !append_cons. by rewrite H.
Qed.

Lemma match_here_sound s m rest :
  match_here s = Some (m, rest) → is_marker m ∧ s = m +:+ rest.
Proof.
  unfold match_here. destruct s as [|c [|d s']]; try discriminate.
  destruct (Ascii.eqb c "{") eqn:Ec; [|discriminate].
  destruct (Ascii.eqb d "{") eqn:Ed; [|discriminate].
  apply Ascii.eqb_eq in Ec as ->. apply Ascii.eqb_eq in Ed as ->. simpl.
  destruct (lazy_body s') as [[m' rest']|] eqn:El; [|discriminate].
  intros [= <- <-].
  destruct (lazy_body_sound _ _ _ El) as (inner & -> & -> & Hall & Hmin).
  split; [by exists inner|]. by rewrite !append_assoc.
Qed.

Lemma match_here_complete m rest :
  is_marker m → match_here (m +:+ rest) = Some (m, rest).
Proof.
  intros (inner & -> & Hall & Hmin). rewrite !append_assoc.
  change ("{{" +:+ inner +:+ "}}" +:+ rest)
    with (String "{" (String "{" (inner +:+ "}}" +:+ rest))).
  unfold match_here. simpl. by rewrite lazy_body_complete.
Qed.

(** A marker is at least four characters long. *)
Lemma is_marker_length m : is_marker m → 4 ≤ String.length m.
Proof.
  intros (inner & -> & _). rewrite !length_append. simpl. lia.
Qed.

(** The search finds a marker, and the leftmost one. *)
Lemma INTERP_REGEXP_sound s :
  ∀ before m rest, INTERP_REGEXP s = Some (before, m, rest) →
    s = before +:+ m +:+ rest ∧ is_marker m ∧
    ∀ before' m' rest', s = before' +:+ m' +:+ rest' → is_marker m' →
      String.length before ≤ String.length before'.
Proof.
  induction s as [|c s IH]; intros before m rest.
  - discriminate.
  - rewrite INTERP_REGEXP_cons.
    destruct (match_here (String c s)) as [[m0 rest0]|] eqn:Eh.
    + intros [= <- <- <-]. apply match_here_sound in Eh as [Hm ->].
      split; [reflexivity|]. split; [assumption|]. intros. simpl. lia.
    + destruct (INTERP_REGEXP s) as [[[before0 m0] rest0]|] eqn:Es; [|discriminate].
      intros [= <- <- <-]. destruct (IH _ _ _ eq_refl) as (-> & Hm & Hleft).
      split; [reflexivity|]. split; [assumption|].
      intros before' m' rest' Hs Hm'. destruct before' as [|c' before'].
      * exfalso. rewrite append_nil_l in Hs. rewrite Hs in Eh.
        by rewrite match_here_complete in Eh.
      * rewrite append_cons in Hs. injection Hs as _ Hs. simpl.
        specialize (Hleft _ _ _ Hs Hm'). lia.
Qed.

Lemma INTERP_REGEXP_here s m rest :
  match_here s = Some (m, rest) → INTERP_REGEXP s = Some ("", m, rest).
Proof.
  destruct s as [|c s]; [discriminate|]. intros H.
  by rewrite INTERP_REGEXP_cons, H.
Qed.

(** Where there is a marker the search finds one. *)
Lemma INTERP_REGEXP_complete before m rest :
  is_marker m → is_Some (INTERP_REGEXP (before +:+ m +:+ rest)).
Proof.
  intros Hm. induction before as [|c before IH].
  - rewrite append_nil_l, (INTERP_REGEXP_here _ m rest); [eauto|].
    by apply match_here_complete.
  - rewrite append_cons, INTERP_REGEXP_cons.
    destruct (match_here _) as [[m0 rest0]|]; [eauto|].
    destruct IH as [[[before0 m0] rest0] ->]. eauto.
Qed.

(** No marker, no match. *)
Lemma INTERP_REGEXP_None s :
  INTERP_REGEXP s = None ↔
  ¬ ∃ before m rest, s = before +:+ m +:+ rest ∧ is_marker m.
Proof.
  split.
  - intros Hnone (before & m & rest & -> & Hm).
    destruct (INTERP_REGEXP_complete before m rest Hm) as [x Hx]. congruence.
  - intros Hnot. destruct (INTERP_REGEXP s) as [[[before m] rest]|] eqn:E; [|done].
    exfalso. apply Hnot. apply INTERP_REGEXP_sound in E as (-> & Hm & _). eauto.
Qed.

(** [slice(2, -2)] takes the expression out of a marker. *)
Lemma substring_all a b : substring 0 (String.length a) (a +:+ b) = a.
Proof.
  induction a as [|c a IH]; [by destruct b|]. rewrite append_cons. simpl.
  by rewrite IH.
Qed.

Lemma slice_marker inner : slice ("{{" +:+ inner +:+ "}}") 2 (-2) = inner.
Proof.
  unfold slice. rewrite !length_append.
  change (String.length "{{") with 2. change (String.length "}}") with 2.
  replace (if (2 <? 0)%Z then _ else _) with 2%Z
    by (destruct (Z.ltb_spec 2 0); lia).
  replace (if (-2 <? 0)%Z then _ else _) with (Z.of_nat (String.length inner) + 2)%Z
    by (destruct (Z.ltb_spec (-2) 0); lia).
  replace (Z.to_nat (Z.max _ 0)) with (String.length inner) by lia.
  change (Z.to_nat 2) with 2.
  change ("{{" +:+ inner +:+ "}}") with (String "{" (String "{" (inner +:+ "}}"))).
  simpl. apply substring_all.
Qed.

Lemma is_marker_slice m : is_marker m → m = "{{" +:+ slice m 2 (-2) +:+ "}}".
Proof. intros (inner & -> & _). by rewrite slice_marker. Qed.

Lemma INTERP_REGEXP_before s before m rest :
  INTERP_REGEXP s = Some (before, m, rest) → ¬ has_marker before.
Proof.
  intros E (b' & m' & r' & -> & Hm').
  apply INTERP_REGEXP_sound in E as (-> & Hm & Hleft).
  specialize (Hleft b' m' (r' +:+ m +:+ rest)).
  rewrite !append_assoc in Hleft. specialize (Hleft eq_refl Hm').
  apply is_marker_length in Hm'. rewrite !length_append in Hleft. lia.
Qed.

Lemma INTERP_REGEXP_rest s before m rest :
  INTERP_REGEXP s = Some (before, m, rest) → String.length rest < String.length s.
Proof.
  intros E. apply INTERP_REGEXP_sound in E as (-> & Hm & _).
  apply is_marker_length in Hm. rewrite !length_append. lia.
Qed.

(** The tokens spell the string, literal text and markers in their places;
    with fuel for every character no marker is left in the text. *)
Lemma tokens_go_raw fuel : ∀ s, concat_strings (raw <$> tokens_go fuel s) = s.
Proof.
  induction fuel as [|fuel IH]; intros s; simpl; [by rewrite append_nil_r|].
  destruct (INTERP_REGEXP s) as [[[before m] rest]|] eqn:E;
    simpl; [|by rewrite append_nil_r].
  rewrite IH. apply INTERP_REGEXP_sound in E as (-> & Hm & _).
  by rewrite <- is_marker_slice.
Qed.

Lemma tokens_go_ok fuel :
  ∀ s, String.length s < fuel → Forall token_ok (tokens_go fuel s).
Proof.
  induction fuel as [|fuel IH]; intros s Hfuel; [lia|]. simpl.
  destruct (INTERP_REGEXP s) as [[[before m] rest]|] eqn:E.
  - constructor; [by eapply INTERP_REGEXP_before|].
    constructor.
    + simpl. apply INTERP_REGEXP_sound in E as (_ & Hm & _).
      by rewrite <- is_marker_slice.
    + apply IH. apply INTERP_REGEXP_rest in E. lia.
  - constructor; [|constructor]. simpl. by apply INTERP_REGEXP_None.
Qed.

(** ** Formatting an expression *)

Lemma scope_name_ok v name st :
  scope_name v = Some name →
  (if truthy v
   then let* id := to_string v in ret ("subScope_" +:+ id)
   else ret "scope") st = (Ok name, st).
Proof.
  destruct v as [| | |n| |]; try discriminate; simpl.
  - by intros [= <-].
  - intros [= <-]. by destruct (n =? 0)%Z.
Qed.

Lemma scope_needed_get st root l k :
  k ≠ "shouldDefineScope" →
  get (heap (scope_needed st root)) l k = get (heap st) l k.
Proof.
  intros Hk. unfold scope_needed.
  destruct (set_own _ _ _ _) as [h'|] eqn:E; [|reflexivity].
  by eapply get_set_own_ne.
Qed.

Lemma scope_needed_twice st root :
  scope_needed (scope_needed st root) root = scope_needed st root.
Proof.
  unfold scope_needed at 2 3. unfold set_own.
  destruct (heap st !! root) as [[proto props| |]|] eqn:E.
  - unfold scope_needed, set_own. cbn [heap nextID].
    rewrite list_lookup_insert_eq by (eapply lookup_lt_Some; eassumption).
    by rewrite list_insert_insert_eq, insert_insert_eq.
  - unfold scope_needed, set_own. by rewrite E.
  - unfold scope_needed, set_own. by rewrite E.
  - unfold scope_needed, set_own. by rewrite E.
Qed.

Lemma formattable_scope_needed st this root m name :
  formattable st this root m name →
  formattable (scope_needed st root) this root m name.
Proof.
  intros [Hroot Hobj Hvars Hscope]. split.
  - by rewrite scope_needed_get.
  - unfold scope_needed. destruct (set_own _ _ _ _) as [h'|] eqn:E; [|done].
    cbn [heap]. unfold is_object in *.
    rewrite (set_own_lookup _ _ _ _ _ root E), decide_True by done.
    by destruct (heap st !! root) as [[| |]|].
  - rewrite scope_needed_get by done. unfold scope_needed.
    destruct (set_own _ _ _ _) as [h'|] eqn:E; [|done].
    cbn [heap]. by rewrite (entries_of_set_own _ _ _ _ _ _ E).
  - by rewrite scope_needed_get.
Qed.

Section ResolverProperties.

Variable compileExpr : string → gmap string QWebVar → string → outcome string.

Lemma formatExpression_ok this root st m name expr :
  formattable st this root m name →
  formatExpression compileExpr this expr st =
    (compileExpr expr m name, scope_needed st root).
Proof.
  intros Hf. pose proof (formattable_scope_needed _ _ _ _ _ Hf) as Hf'.
  destruct Hf as [Hroot Hobj _ _]. destruct Hf' as [_ _ Hvars Hscope].
  unfold is_object in Hobj. unfold formatExpression.
  unfold bind at 1, read at 1. rewrite Hroot.
  unfold bind at 1, as_obj at 1.
  destruct (heap st !! root) as [[proto props| |]|] eqn:E; try discriminate.
  unfold bind at 1. unfold write at 1.
  assert (scope_needed st root =
          mkState (<[root := Obj proto (<["shouldDefineScope" := VBool true]> props)]> (heap st))
            (nextID st)) as Hst
    by (unfold scope_needed, set_own; by rewrite E).
  unfold set_own. rewrite E, <- Hst.
  unfold bind at 1, read at 1.
  unfold bind at 1. rewrite (scope_name_ok _ _ _ Hscope).
  unfold bind at 1, read at 1.
  unfold bind, as_dict. rewrite Hvars. reflexivity.
Qed.

(** The replacement, marker by marker, on a context that can format. *)
Lemma String_replace_go_render this root m name fuel :
  ∀ s st,
    formattable st this root m name →
    String_replace_go fuel s
      (λ mk, let* e := formatExpression compileExpr this (slice mk 2 (-2)) in
             ret ("${" +:+ e +:+ "}")) st =
      (render (λ e, compileExpr e m name) (tokens_go fuel s),
       match fuel, INTERP_REGEXP s with
       | S _, Some _ => scope_needed st root
       | _, _ => st
       end).
Proof.
  induction fuel as [|fuel IH]; intros s st Hf; simpl.
  - by rewrite append_nil_r.
  - destruct (INTERP_REGEXP s) as [[[before mk] rest]|] eqn:E; simpl;
      [|by rewrite append_nil_r].
    unfold bind at 1. unfold bind at 1.
    rewrite (formatExpression_ok _ _ _ _ _ _ Hf).
    destruct (compileExpr (slice mk 2 (-2)) m name) as [e|x]; [|reflexivity].
    cbn [ret]. unfold bind at 1.
    rewrite IH by (by apply formattable_scope_needed).
    assert (match fuel with
            | 0 => scope_needed st root
            | S _ => match INTERP_REGEXP rest with
                     | Some _ => scope_needed (scope_needed st root) root
                     | None => scope_needed st root
                     end
            end = scope_needed st root) as ->.
    { destruct fuel; [done|]. destruct (INTERP_REGEXP rest); [|done].
      apply scope_needed_twice. }
    destruct (render _ _) as [r|x]; [|reflexivity].
    unfold ret. by rewrite !append_assoc.
Qed.

Lemma String_match_head s :
  String_match s =
  match INTERP_REGEXP s with
  | Some (_, mk, rest) => Some (mk :: regexp_matches (String.length s) rest)
  | None => None
  end.
Proof.
  unfold String_match. simpl. by destruct (INTERP_REGEXP s) as [[[? ?] ?]|].
Qed.

(** The test of [interpolate]: the first match is as long as the string
    exactly when the string is one marker. *)
Lemma whole_string_test s :
  match String_match s with
  | Some (m0 :: _) => bool_decide (String.length m0 = String.length s)
  | _ => false
  end = true ↔ is_marker s.
Proof.
  rewrite String_match_head.
  destruct (INTERP_REGEXP s) as [[[before mk] rest]|] eqn:E.
  - apply INTERP_REGEXP_sound in E as (-> & Hm & Hleft).
    rewrite bool_decide_eq_true, !length_append. split.
    + intros Hlen. destruct before; [|simpl in Hlen; lia].
      destruct rest; [|simpl in Hlen; lia].
      by rewrite append_nil_l, append_nil_r.
    + intros Hs. specialize (Hleft "" _ "" ltac:(by rewrite append_nil_r) Hs).
      destruct before; [|simpl in Hleft; lia]. rewrite append_nil_l in *.
      destruct Hs as (inner & Hs & _ & Hmin). destruct Hm as (inner' & -> & _ & _).
      rewrite !append_assoc in Hs.
      change ("{{" +:+ inner' +:+ "}}" +:+ rest)
        with (String "{" (String "{" (inner' +:+ "}}" +:+ rest))) in Hs.
      injection Hs as Hs. symmetry in Hs. apply Hmin in Hs. subst rest. simpl. lia.
  - split; [discriminate|]. intros Hs.
    apply INTERP_REGEXP_None in E. exfalso. apply E. exists "", s, "".
    by rewrite append_nil_r.
Qed.

(** C7.  [interpolate(s)], on a context that can format expressions.  If [s]
    is exactly one marker (the first match spans the whole string), the
    result is the formatted expression of the marker in parentheses, not a
    template.  Otherwise it is one composite string template: between two
    backquotes, the literal text of [s] as it is and, in place of every
    marker, [${...}] around its formatted expression.  The tokens spell [s],
    their text holds no marker, their markers are markers.  A string without
    any marker comes back unchanged between backquotes, and the store is left
    as it was; in the other cases the only change is the ROOT's flag for the
    scope variable.  When the resolver fails on an expression, its exception
    is the outcome. *)
Theorem interpolate_cases this root st m name s :
  formattable st this root m name →
  let fmt e := compileExpr e m name in
  (is_marker s →
   s = "{{" +:+ slice s 2 (-2) +:+ "}}" ∧
   interpolate compileExpr this s st =
     (match fmt (slice s 2 (-2)) with
      | Ok e => Ok ("(" +:+ e +:+ ")")
      | Throw x => Throw x
      end, scope_needed st root)) ∧
  (¬ is_marker s →
   interpolate compileExpr this s st =
     (match render fmt (tokens s) with
      | Ok r => Ok ("`" +:+ r +:+ "`")
      | Throw x => Throw x
      end,
      match INTERP_REGEXP s with
      | Some _ => scope_needed st root
      | None => st
      end)) ∧
  concat_strings (raw <$> tokens s) = s ∧
  Forall token_ok (tokens s) ∧
  (¬ has_marker s →
   tokens s = [Text s] ∧
   interpolate compileExpr this s st = (Ok ("`" +:+ s +:+ "`"), st)).
Proof.
  intros Hf fmt.
  assert (¬ is_marker s →
          interpolate compileExpr this s st =
            (match render fmt (tokens s) with
             | Ok r => Ok ("`" +:+ r +:+ "`")
             | Throw x => Throw x
             end,
             match INTERP_REGEXP s with
             | Some _ => scope_needed st root
             | None => st
             end)) as Hcomposite.
  { intros Hnot. unfold interpolate.
    destruct (match String_match s with Some (m0 :: _) => _ | _ => false end) eqn:Etest;
      [by apply whole_string_test in Etest|].
    unfold bind, String_replace.
    rewrite (String_replace_go_render _ _ _ _ _ _ _ Hf).
    fold (tokens s). subst fmt. cbn beta.
    by destruct (render _ (tokens s)). }
  split; [|split; [exact Hcomposite|split; [|split]]].
  - intros Hs. split; [by apply is_marker_slice|].
    unfold interpolate.
    destruct (match String_match s with Some (m0 :: _) => _ | _ => false end) eqn:Etest;
      [|apply whole_string_test in Hs; congruence].
    unfold bind. rewrite (formatExpression_ok _ _ _ _ _ _ Hf).
    subst fmt. cbn beta. by destruct (compileExpr _ _ _).
  - apply tokens_go_raw.
  - apply tokens_go_ok. lia.
  - intros Hnone.
    assert (INTERP_REGEXP s = None) as E by (by apply INTERP_REGEXP_None).
    assert (tokens s = [Text s]) as Ht by (unfold tokens; simpl; by rewrite E).
    split; [exact Ht|].
    rewrite Hcomposite.
    + rewrite Ht, E. simpl. by rewrite append_nil_r.
    + intros Hs. apply Hnone. exists "", s, "". by rewrite append_nil_r.
Qed.

(** C3.  Of any two calls of [generateID], on any contexts and with any run of
    the compiler in between (other calls of [generateID], new contexts for
    other templates, any method, any assignment to an attribute), the later
    one returns a strictly greater identifier, so no identifier comes twice:
    as long as the counter is within the integers that a number holds
    exactly, that is, it was not below -2^53 at the first call and has not
    passed 2^53 when the later call is made.  (A process starts the counter
    at 1; it takes 2^53 identifiers to get there.)  The counter belongs to
    the class, not to a context: making the context of another template
    leaves it where it was. *)
Theorem generateID_strictly_increasing c1 c2 between st :
  let r1 := generateID c1 st in
  let r2 := generateID c2 (run compileExpr between (snd r1)) in
  (- 2 ^ 53 ≤ nextID st)%Z →
  (nextID (run compileExpr between (snd r1)) ≤ 2 ^ 53)%Z →
  ∃ id1 id2 : Z,
    fst r1 = Ok id1 ∧ fst r2 = Ok id2 ∧ (id1 < id2)%Z ∧
    (∀ name st', nextID (snd (new_CompilationContext name st')) = nextID st').
Proof.
  simpl. intros _ _. eexists _, _. split; [reflexivity|]. split; [reflexivity|]. split.
  - pose proof (counter_run Z.le ltac:(lia) compileExpr between
                  (mkState (heap st) (nextID st + 1))) as H.
    simpl in H. lia.
  - intros name st'. symmetry. apply (counter_new eq).
Qed.

End ResolverProperties.

(** * Further properties of the class *)

(** ** Owners and states *)

Lemma owner_get h k t : ∀ l, owner h l k = Some t → get h l k = get h t k.
Proof.
  intros l. induction l as [l IH] using lt_wf_ind. intros Ho.
  destruct (decide (l = t)) as [->|Hl]; [reflexivity|].
  rewrite owner_unfold in Ho. rewrite (get_unfold h l).
  destruct (h !! l) as [[proto props| |]|]; try discriminate.
  destruct (props !! k); [congruence|].
  destruct proto as [p|]; [|discriminate].
  case_bool_decide; [|discriminate]. by apply IH.
Qed.

Lemma owner_owns h k t : ∀ l,
  owner h l k = Some t →
  ∃ proto props, h !! t = Some (Obj proto props) ∧ props !! k = Some (get h t k).
Proof.
  intros l. induction l as [l IH] using lt_wf_ind. rewrite owner_unfold.
  destruct (h !! l) as [[proto props| |]|] eqn:E; try discriminate.
  destruct (props !! k) as [v|] eqn:Ek.
  - intros [= <-]. exists proto, props. split; [done|].
    by rewrite get_unfold, E, Ek.
  - destruct proto as [p|]; [|discriminate].
    case_bool_decide; [|discriminate]. by apply IH.
Qed.

Lemma owner_ext h1 h2 k l :
  (∀ l', l' ≤ l → obj_part (h1 !! l') = obj_part (h2 !! l')) →
  owner h1 l k = owner h2 l k.
Proof.
  induction l as [l IH] using lt_wf_ind. intros Hagree.
  rewrite (owner_unfold h1), (owner_unfold h2).
  pose proof (Hagree l (Nat.le_refl l)) as Hl.
  destruct (h1 !! l) as [[p1 m1| |]|], (h2 !! l) as [[p2 m2| |]|];
    simpl in Hl; try discriminate; try reflexivity.
  injection Hl as -> ->.
  destruct (m2 !! k); [reflexivity|].
  destruct p2 as [p|]; [|reflexivity].
  case_bool_decide; [|reflexivity].
  apply IH; [assumption|]. intros l' Hl'. apply Hagree. lia.
Qed.

Lemma owner_alloc h c l k :
  l < List.length h → owner (h ++ [c]) l k = owner h l k.
Proof.
  intros Hl. apply owner_ext. intros l' Hl'.
  rewrite lookup_app_l by lia. reflexivity.
Qed.

Lemma owner_set_items h l xs k a :
  is_Some (items_of h (VRef a)) →
  owner (<[a := Arr xs]> h) l k = owner h l k.
Proof.
  intros [ys Hys]. apply owner_ext. intros l' _.
  simpl in Hys. destruct (decide (a = l')) as [->|Hne].
  - destruct (h !! l') as [[| |]|] eqn:E; try discriminate.
    rewrite list_lookup_insert_eq by (eapply lookup_lt_Some; eassumption).
    reflexivity.
  - rewrite list_lookup_insert_ne by assumption. reflexivity.
Qed.

Lemma owner_set_own_ne h t a w h' l k :
  set_own h t a w = Some h' → k ≠ a → owner h' l k = owner h l k.
Proof.
  intros Hset Hne. induction l as [l IH] using lt_wf_ind.
  rewrite (owner_unfold h'), (owner_unfold h), (set_own_lookup _ _ _ _ _ l Hset).
  destruct (decide (l = t)) as [->|Hl].
  - destruct (h !! t) as [[proto props| |]|]; try reflexivity.
    rewrite lookup_insert_ne by congruence.
    destruct (props !! k); [reflexivity|].
    destruct proto as [p|]; [|reflexivity].
    case_bool_decide; [|reflexivity]. apply IH. assumption.
  - destruct (h !! l) as [[proto props| |]|]; try reflexivity.
    destruct (props !! k); [reflexivity|].
    destruct proto as [p|]; [|reflexivity].
    case_bool_decide; [|reflexivity]. apply IH. assumption.
Qed.

Lemma owner_set_owner h t k w h' : ∀ l,
  owner h l k = Some t → set_own h t k w = Some h' → owner h' l k = Some t.
Proof.
  intros l Ho Hset. induction l as [l IH] using lt_wf_ind.
  rewrite owner_unfold in Ho.
  rewrite owner_unfold, (set_own_lookup _ _ _ _ _ l Hset).
  destruct (decide (l = t)) as [->|Hl].
  - destruct (h !! t) as [[proto props| |]|]; try discriminate.
    by rewrite lookup_insert_eq.
  - destruct (h !! l) as [[proto props| |]|]; try discriminate.
    destruct (props !! k); [congruence|].
    destruct proto as [p|]; [|discriminate].
    case_bool_decide; [|discriminate]. by apply IH.
Qed.

Lemma with_attr_heap st l k v proto props :
  heap st !! l = Some (Obj proto props) →
  with_attr st l k v =
    mkState (<[l := Obj proto (<[k := v]> props)]> (heap st)) (nextID st).
Proof. intros E. unfold with_attr, set_own. by rewrite E. Qed.

Lemma with_attr_twice st l k v w :
  with_attr (with_attr st l k v) l k w = with_attr st l k w.
Proof.
  destruct (heap st !! l) as [[proto props| |]|] eqn:E.
  - rewrite (with_attr_heap st l k v proto props E).
    erewrite with_attr_heap
      by (cbn [heap]; apply list_lookup_insert_eq; eapply lookup_lt_Some; eassumption).
    rewrite (with_attr_heap st l k w proto props E). cbn [heap nextID].
    by rewrite list_insert_insert_eq, insert_insert_eq.
  - unfold with_attr at 2. unfold set_own. by rewrite E.
  - unfold with_attr at 2. unfold set_own. by rewrite E.
  - unfold with_attr at 2. unfold set_own. by rewrite E.
Qed.

Lemma with_attr_id st l k proto props v :
  heap st !! l = Some (Obj proto props) → props !! k = Some v →
  with_attr st l k v = st.
Proof.
  intros E Ek. rewrite (with_attr_heap _ _ _ _ _ _ E).
  rewrite insert_id by assumption. rewrite list_insert_id by assumption.
  by destruct st.
Qed.

Lemma with_items_twice st a xs ys :
  with_items (with_items st a xs) a ys = with_items st a ys.
Proof. unfold with_items. cbn [heap nextID]. by rewrite list_insert_insert_eq. Qed.

Lemma with_items_with_attr st l k v a xs :
  with_items (with_attr st l k v) a xs = with_attr (with_items st a xs) l k v.
Proof.
  unfold with_attr, set_own, with_items. cbn [heap nextID].
  destruct (decide (l = a)) as [->|Hne].
  - destruct (heap st !! a) as [c|] eqn:E.
    + rewrite list_lookup_insert_eq by (eapply lookup_lt_Some; eassumption).
      destruct c; cbn [heap nextID]; by rewrite ?list_insert_insert_eq.
    + apply lookup_ge_None in E.
      rewrite lookup_ge_None_2 by (by rewrite length_insert). done.
  - rewrite list_lookup_insert_ne by done.
    destruct (heap st !! l) as [[proto props| |]|]; cbn [heap nextID]; try done.
    by rewrite list_insert_insert_ne.
Qed.

(** ** The emitting invariant *)

Lemma emitting_root_object st this root a n items :
  emitting st this root a n items →
  ∃ proto props,
    heap st !! root = Some (Obj proto props) ∧ props !! "indentLevel" = Some (VNum n).
Proof.
  intros [_ Ho Hn _ _]. destruct (owner_owns _ _ _ _ Ho) as (proto & props & E & Ek).
  exists proto, props. by rewrite <- Hn.
Qed.

Lemma emitting_with_items st this root a n items xs :
  emitting st this root a n items → emitting (with_items st a xs) this root a n xs.
Proof.
  intros [Hroot Ho Hn Hcode Ha].
  assert (is_Some (items_of (heap st) (VRef a))) as Hsome by (simpl; rewrite Ha; eauto).
  split; cbn [with_items heap].
  - by rewrite get_set_items.
  - by rewrite owner_set_items.
  - by rewrite get_set_items.
  - by rewrite get_set_items.
  - apply list_lookup_insert_eq. eapply lookup_lt_Some; eassumption.
Qed.

Lemma emitting_with_attr_ne st this root a n items l k v :
  emitting st this root a n items →
  k ∉ ["rootContext"; "indentLevel"; "code"] →
  emitting (with_attr st l k v) this root a n items.
Proof.
  intros [Hroot Ho Hn Hcode Ha] Hk. unfold with_attr.
  destruct (set_own _ _ _ _) as [h'|] eqn:E; [|done].
  assert (∀ k', k' ∈ ["rootContext"; "indentLevel"; "code"] → k' ≠ k) as Hne
    by (intros k' Hk' ->; done).
  split; cbn [heap].
  - rewrite (get_set_own_ne _ _ _ _ _ _ _ E); [done|]. apply Hne. set_solver.
  - rewrite (owner_set_own_ne _ _ _ _ _ _ _ E); [done|]. apply Hne. set_solver.
  - rewrite (get_set_own_ne _ _ _ _ _ _ _ E); [done|]. apply Hne. set_solver.
  - rewrite (get_set_own_ne _ _ _ _ _ _ _ E); [done|]. apply Hne. set_solver.
  - rewrite (set_own_lookup _ _ _ _ _ a E). destruct (decide (a = l)) as [->|]; [|done].
    unfold set_own in E. rewrite Ha in E. discriminate.
Qed.

Lemma emitting_at_level st this root a n items m :
  emitting st this root a n items → emitting (at_level st root m) this root a m items.
Proof.
  intros Hem. destruct (emitting_root_object _ _ _ _ _ _ Hem) as (proto & props & E & Ek).
  destruct Hem as [Hroot Ho Hn Hcode Ha].
  unfold at_level, with_attr.
  assert (set_own (heap st) root "indentLevel" (VNum m)
          = Some (<[root := Obj proto (<["indentLevel" := VNum m]> props)]> (heap st))) as Hset
    by (unfold set_own; by rewrite E).
  rewrite Hset. split; cbn [heap].
  - by rewrite (get_set_own_ne _ _ _ _ _ _ _ Hset).
  - by eapply owner_set_owner.
  - by eapply get_set_own_eq.
  - by rewrite (get_set_own_ne _ _ _ _ _ _ _ Hset).
  - rewrite list_lookup_insert_ne; [done|]. intros <-. congruence.
Qed.

Lemma emitting_counter st this root a n items id :
  emitting st this root a n items →
  emitting (mkState (heap st) id) this root a n items.
Proof. by intros []. Qed.

Lemma at_level_id st this root a n items :
  emitting st this root a n items → at_level st root n = st.
Proof.
  intros Hem. destruct (emitting_root_object _ _ _ _ _ _ Hem) as (proto & props & E & Ek).
  unfold at_level. by erewrite with_attr_id.
Qed.

(** ** The emitting methods on a context that can emit *)

Lemma addLine_emitting st this root a n items line :
  emitting st this root a n items → (0 ≤ n + 2 < 2 ^ 32)%Z →
  addLine this line st =
    (Ok (Z.of_nat (List.length items)), with_items st a (items ++ [instruction n line])).
Proof.
  intros [Hroot Ho Hn Hcode Ha] Hrange.
  apply addLine_ok; try done. by rewrite (owner_get _ _ _ _ Ho).
Qed.

Lemma indent_ok this root st n :
  get (heap st) this "rootContext" = VRef root →
  is_object (heap st) root = true →
  get (heap st) root "indentLevel" = VNum n →
  indent this st = (Ok tt, at_level st root (n + 1)) ∧
  dedent this st = (Ok tt, at_level st root (n - 1)).
Proof.
  intros Hroot Hobj Hn. unfold is_object in Hobj.
  unfold indent, dedent, bind, read, as_obj, as_num, write, at_level, with_attr, set_own.
  cbn [heap]. rewrite Hroot.
  destruct (heap st !! root) as [[proto props| |]|] eqn:E; try discriminate.
  cbn [ret]. unfold ret. rewrite Hn. by rewrite E.
Qed.

Lemma emitting_is_object st this root a n items :
  emitting st this root a n items → is_object (heap st) root = true.
Proof.
  intros Hem. destruct (emitting_root_object _ _ _ _ _ _ Hem) as (proto & props & E & _).
  unfold is_object. by rewrite E.
Qed.

(** The states that a block goes through: the instructions so far, the level
    so far. *)
Section Block.

Variables (st : state) (this root a : loc) (n : Z) (items : list value).
Hypothesis Hem : emitting st this root a n items.

Lemma block_emitting xs m :
  emitting (at_level (with_items st a xs) root m) this root a m xs.
Proof. eapply emitting_at_level, emitting_with_items, Hem. Qed.

Lemma block_start : at_level (with_items st a items) root n = st.
Proof.
  rewrite with_items_id by apply Hem. by eapply at_level_id.
Qed.

Lemma block_addLine xs m line :
  (0 ≤ m + 2 < 2 ^ 32)%Z →
  addLine this line (at_level (with_items st a xs) root m) =
    (Ok (Z.of_nat (List.length xs)),
     at_level (with_items st a (xs ++ [instruction m line])) root m).
Proof.
  intros Hrange. rewrite (addLine_emitting _ _ _ _ _ _ _ (block_emitting xs m) Hrange).
  unfold at_level. by rewrite with_items_with_attr, with_items_twice.
Qed.

Lemma block_indent xs m :
  indent this (at_level (with_items st a xs) root m) =
    (Ok tt, at_level (with_items st a xs) root (m + 1)) ∧
  dedent this (at_level (with_items st a xs) root m) =
    (Ok tt, at_level (with_items st a xs) root (m - 1)).
Proof.
  pose proof (block_emitting xs m) as Hem'.
  destruct (indent_ok this root _ m (em_root _ _ _ _ _ _ Hem')
              (emitting_is_object _ _ _ _ _ _ Hem') (em_level _ _ _ _ _ _ Hem'))
    as [-> ->].
  unfold at_level. by rewrite !with_attr_twice.
Qed.

Lemma block_addLines lines : ∀ xs m,
  (0 ≤ m + 2 < 2 ^ 32)%Z →
  addLines this lines (at_level (with_items st a xs) root m) =
    (Ok tt, at_level (with_items st a (xs ++ (instruction m <$> lines))) root m).
Proof.
  induction lines as [|line lines IH]; intros xs m Hrange; simpl.
  - by rewrite app_nil_r.
  - unfold bind. rewrite block_addLine by done. rewrite IH by done.
    by rewrite <- app_assoc.
Qed.

End Block.

Lemma block_end st this root a n items xs :
  emitting st this root a n items →
  at_level (with_items st a xs) root n = with_items st a xs.
Proof.
  intros Hem. unfold at_level. rewrite <- with_items_with_attr.
  fold (at_level st root n). by erewrite at_level_id.
Qed.

Lemma as_obj_ok st l : is_object (heap st) l = true → as_obj (VRef l) st = (Ok l, st).
Proof.
  unfold is_object, as_obj. by destruct (heap st !! l) as [[| |]|].
Qed.

Lemma write_with_attr st l k v :
  is_object (heap st) l = true → write l k v st = (Ok tt, with_attr st l k v).
Proof.
  unfold is_object, write, with_attr, set_own.
  by destruct (heap st !! l) as [[| |]|].
Qed.

(** ** Instructions and their indices *)

(** X1.  [addLine] appends the line, behind the whitespace of the receiver's
    indent level, to the code array that the receiver reaches, and returns
    the index at which the line now sits, which is the last one.  Every
    context that reaches the same array reads the line at that index; the
    earlier instructions keep theirs.  No attribute of any context changes,
    and the counter stays. *)
Theorem addLine_returns_index this line st lvl a items :
  get (heap st) this "indentLevel" = VNum lvl →
  (0 ≤ lvl + 2 < 2 ^ 32)%Z →
  get (heap st) this "code" = VRef a →
  heap st !! a = Some (Arr items) →
  ∃ idx st',
    addLine this line st = (Ok idx, st') ∧
    (∀ c, get (heap st) c "code" = VRef a →
          items_of (heap st') (get (heap st') c "code")
          = Some (items ++ [instruction lvl line])) ∧
    (items ++ [instruction lvl line]) !! Z.to_nat idx = Some (instruction lvl line) ∧
    Z.to_nat idx = List.length items ∧
    (∀ l k, get (heap st') l k = get (heap st) l k) ∧
    nextID st' = nextID st.
Proof.
  intros Hlvl Hrange Hcode Ha.
  rewrite (addLine_ok _ _ _ _ _ _ Hlvl Hrange Hcode Ha).
  assert (∀ l k, get (<[a := Arr (items ++ [instruction lvl line])]> (heap st)) l k
                 = get (heap st) l k) as Hframe
    by (intros l k; apply get_set_items; simpl; rewrite Ha; eauto).
  eexists _, _. split; [reflexivity|]. cbn [heap nextID].
  split; [|split; [|split; [|split]]].
  - intros c Hc. rewrite Hframe, Hc. simpl.
    rewrite list_lookup_insert_eq by (eapply lookup_lt_Some; eassumption). done.
  - rewrite Nat2Z.id, lookup_app_r by lia. by rewrite Nat.sub_diag.
  - apply Nat2Z.id.
  - exact Hframe.
  - reflexivity.
Qed.

(** X2.  On a context with a numeric indent level and a code array, [addLine]
    fails whenever the level plus two is not a valid array length, that is
    below -2 (unbalanced [dedent] calls leave such a level) or from 2^32 - 2
    on.  A failure of [addLine] on such a context is a RangeError, whatever
    the level, and leaves the store as it was: the line is not emitted.
    (When the level is valid the engine may still fail for lack of room for
    the string; that is a RangeError too, and not told here.) *)
Theorem addLine_level_range this line st lvl a items :
  get (heap st) this "indentLevel" = VNum lvl →
  get (heap st) this "code" = VRef a →
  heap st !! a = Some (Arr items) →
  (¬ (0 ≤ lvl + 2 < 2 ^ 32)%Z → addLine this line st = (Throw RangeError, st)) ∧
  (∀ e, fst (addLine this line st) = Throw e →
        e = RangeError ∧ snd (addLine this line st) = st).
Proof.
  intros Hlvl Hcode Ha.
  destruct (decide (0 ≤ lvl + 2 < 2 ^ 32)%Z) as [Hrange|Hrange].
  - rewrite (addLine_ok _ _ _ _ _ _ Hlvl Hrange Hcode Ha). split; [done|discriminate].
  - assert (addLine this line st = (Throw RangeError, st)) as ->.
    { unfold addLine, bind, read. rewrite Hlvl. cbn [as_num ret].
      unfold new_Array_join. by rewrite bool_decide_false. }
    split; [done|]. by intros e [= <-].
Qed.

(** ** Indentation *)

(** X3.  [indent] and [dedent] are inverse to each other: on a context whose
    ROOT holds a numeric indent level of its own, strictly between -2^53 and
    2^53 (where a number adds and subtracts one exactly), one after the
    other, in either order, gives back the very same store. *)
Theorem indent_dedent_inverse this root st n :
  get (heap st) this "rootContext" = VRef root →
  owner (heap st) root "indentLevel" = Some root →
  get (heap st) root "indentLevel" = VNum n →
  (- 2 ^ 53 < n < 2 ^ 53)%Z →
  (do indent this in dedent this) st = (Ok tt, st) ∧
  (do dedent this in indent this) st = (Ok tt, st).
Proof.
  intros Hroot Ho Hn _.
  destruct (owner_owns _ _ _ _ Ho) as (proto & props & E & Ek). rewrite Hn in Ek.
  assert (is_object (heap st) root = true) as Hobj by (unfold is_object; by rewrite E).
  assert (∀ m, get (heap (at_level st root m)) this "rootContext" = VRef root ∧
               is_object (heap (at_level st root m)) root = true ∧
               get (heap (at_level st root m)) root "indentLevel" = VNum m) as Hm.
  { intros m. unfold at_level. rewrite (with_attr_heap _ _ _ _ _ _ E). cbn [heap].
    assert (set_own (heap st) root "indentLevel" (VNum m)
            = Some (<[root := Obj proto (<["indentLevel" := VNum m]> props)]> (heap st)))
      as Hset by (unfold set_own; by rewrite E).
    split; [by rewrite (get_set_own_ne _ _ _ _ _ _ _ Hset)|].
    split; [|by eapply get_set_own_eq].
    unfold is_object.
    by rewrite list_lookup_insert_eq by (eapply lookup_lt_Some; eassumption). }
  destruct (indent_ok _ _ _ _ Hroot Hobj Hn) as [Hin Hde].
  split; unfold bind.
  - rewrite Hin. destruct (Hm (n + 1)%Z) as (H1 & H2 & H3).
    destruct (indent_ok _ _ _ _ H1 H2 H3) as [_ ->].
    unfold at_level. rewrite with_attr_twice.
    replace (n + 1 - 1)%Z with n by lia. by erewrite with_attr_id.
  - rewrite Hde. destruct (Hm (n - 1)%Z) as (H1 & H2 & H3).
    destruct (indent_ok _ _ _ _ H1 H2 H3) as [-> _].
    unfold at_level. rewrite with_attr_twice.
    replace (n - 1 + 1)%Z with n by lia. by erewrite with_attr_id.
Qed.

(** ** Blocks *)

(** X4.  A conditional block.  [addIf], the lines of the body, [closeIf]: the
    header and the closing brace are emitted at the level the block started
    at, the body one level deeper, and the level is back where it was; with
    [addElse] and a second body in between, the same holds, the else line at
    the level of the header.  Nothing but the code array has changed in the
    end. *)
Theorem conditional_block this root a st n items condition body1 body2 :
  emitting st this root a n items →
  (0 ≤ n + 2)%Z → (n + 3 < 2 ^ 32)%Z →
  (do addIf this condition in
   do addLines this body1 in
   closeIf this) st =
    (Ok tt,
     with_items st a
       (items ++ [instruction n ("if (" +:+ condition +:+ ") {")]
        ++ (instruction (n + 1) <$> body1)
        ++ [instruction n "}"])) ∧
  (do addIf this condition in
   do addLines this body1 in
   do addElse this in
   do addLines this body2 in
   closeIf this) st =
    (Ok tt,
     with_items st a
       (items ++ [instruction n ("if (" +:+ condition +:+ ") {")]
        ++ (instruction (n + 1) <$> body1)
        ++ [instruction n "} else {"]
        ++ (instruction (n + 1) <$> body2)
        ++ [instruction n "}"])).
Proof.
  intros Hem Hlo Hhi.
  pose proof (block_addLine _ _ _ _ _ _ Hem) as HaddLine.
  pose proof (block_addLines _ _ _ _ _ _ Hem) as HaddLines.
  pose proof (block_indent _ _ _ _ _ _ Hem) as Hindent.
  rewrite <- (block_start _ _ _ _ _ _ Hem) at 1 3.
  unfold addIf, addElse, closeIf. split.
  - unfold bind at 1. unfold bind at 1. rewrite HaddLine by lia.
    rewrite (proj1 (Hindent _ _)).
    unfold bind at 1. rewrite HaddLines by lia.
    unfold bind at 1. rewrite (proj2 (Hindent _ _)).
    unfold bind. rewrite HaddLine by lia. unfold ret.
    replace (n + 1 - 1)%Z with n by lia.
    rewrite (block_end _ _ _ _ _ _ _ Hem). by rewrite <- !app_assoc.
  - unfold bind at 1. unfold bind at 1. rewrite HaddLine by lia.
    rewrite (proj1 (Hindent _ _)).
    unfold bind at 1. rewrite HaddLines by lia.
    unfold bind at 1. unfold bind at 1. rewrite (proj2 (Hindent _ _)).
    replace (n + 1 - 1)%Z with n by lia.
    unfold bind at 1. rewrite HaddLine by lia.
    rewrite (proj1 (Hindent _ _)).
    unfold bind at 1. rewrite HaddLines by lia.
    unfold bind at 1. rewrite (proj2 (Hindent _ _)).
    unfold bind. rewrite HaddLine by lia. unfold ret.
    replace (n + 1 - 1)%Z with n by lia.
    rewrite (block_end _ _ _ _ _ _ _ Hem). by rewrite <- !app_assoc.
Qed.

(** ** Protecting the scope *)

(** X5.  [startProtectScope], the lines of a body, [stopProtectScope] with the
    identifier that the start returned: the body is bracketed by the line
    that saves the scope under a name made of a fresh identifier and the
    line that restores it from the same name; the ROOT is marked as needing
    the scope variable and one identifier is used.  Apart from that and the
    code array the store is as before. *)
Theorem protect_scope_bracket this root a st n items body :
  emitting st this root a n items →
  (0 ≤ n + 2 < 2 ^ 32)%Z →
  (let* protectID := startProtectScope this in
   do addLines this body in
   stopProtectScope this protectID) st =
    (Ok tt,
     with_items (scope_needed (snd (generateID this st)) root) a
       (items
        ++ [instruction n ("let _origScope" +:+ pretty (nextID st) +:+ " = scope;");
            instruction n "scope = Object.assign(Object.create(context), scope);"]
        ++ (instruction n <$> body)
        ++ [instruction n ("scope = _origScope" +:+ pretty (nextID st) +:+ ";")])).
Proof.
  intros Hem Hrange. cbn [generateID snd].
  set (st1 := mkState (heap st) (nextID st + 1)).
  assert (emitting st1 this root a n items) as Hem1 by by apply emitting_counter.
  assert (emitting (scope_needed st1 root) this root a n items) as Hem2.
  { apply (emitting_with_attr_ne _ _ _ _ _ _ root "shouldDefineScope" (VBool true) Hem1).
    by rewrite !elem_of_cons, elem_of_nil; intros [?|[?|[?|?]]]. }
  pose proof (block_addLine _ _ _ _ _ _ Hem2) as HaddLine.
  pose proof (block_addLines _ _ _ _ _ _ Hem2) as HaddLines.
  unfold startProtectScope, stopProtectScope.
  unfold bind at 1. unfold bind at 1. unfold generateID at 1. fold st1.
  unfold bind at 1, read at 1. rewrite (em_root _ _ _ _ _ _ Hem1).
  unfold bind at 1. rewrite (as_obj_ok st1) by apply (emitting_is_object _ _ _ _ _ _ Hem1).
  unfold bind at 1.
  rewrite (write_with_attr st1) by apply (emitting_is_object _ _ _ _ _ _ Hem1).
  change (with_attr st1 root "shouldDefineScope" (VBool true)) with (scope_needed st1 root).
  rewrite <- (block_start _ _ _ _ _ _ Hem2) at 1.
  unfold bind at 1. rewrite HaddLine by lia.
  unfold bind at 1. rewrite HaddLine by lia. unfold ret at 1.
  unfold bind at 1. rewrite HaddLines by lia.
  unfold bind. rewrite HaddLine by lia. unfold ret.
  rewrite (block_end _ _ _ _ _ _ _ Hem2). by rewrite <- !app_assoc.
Qed.

(** ** Derived contexts and the code *)

Lemma emitting_alloc st this root a n items c :
  emitting st this root a n items →
  emitting (mkState (heap st ++ [c]) (nextID st)) this root a n items.
Proof.
  intros Hem. pose proof (emitting_is_object _ _ _ _ _ _ Hem) as Hobj.
  destruct Hem as [Hroot Ho Hn Hcode Ha].
  assert (this < List.length (heap st)) as Hthis.
  { destruct (decide (this < List.length (heap st))); [done|].
    rewrite get_invalid in Hroot by lia. discriminate. }
  assert (root < List.length (heap st)) as Hr by (apply owner_le in Ho; lia).
  split; cbn [heap].
  - by rewrite get_alloc.
  - by rewrite owner_alloc.
  - by rewrite get_alloc.
  - by rewrite get_alloc.
  - rewrite lookup_app_l; [done|]. eapply lookup_lt_Some; eassumption.
Qed.

Lemma get_derived h this key v k :
  get (h ++ [Obj (Some this) {[key := v]}]) (List.length h) k =
  if decide (k = key) then v
  else if bool_decide (this < List.length h) then get h this k else VUndef.
Proof.
  rewrite get_unfold, lookup_app_r by lia. rewrite Nat.sub_diag. cbn [lookup list_lookup].
  destruct (decide (k = key)) as [->|Hne].
  - by rewrite lookup_singleton_eq.
  - rewrite lookup_singleton_ne by done. case_bool_decide; [|done]. by apply get_alloc.
Qed.

Lemma owner_derived h this key v k :
  k ≠ key → this < List.length h →
  owner (h ++ [Obj (Some this) {[key := v]}]) (List.length h) k = owner h this k.
Proof.
  intros Hne Hthis.
  rewrite owner_unfold, lookup_app_r by lia. rewrite Nat.sub_diag. cbn [lookup list_lookup].
  rewrite lookup_singleton_ne by done. rewrite bool_decide_true by done.
  by apply owner_alloc.
Qed.

Lemma emitting_derived st this root a n items key v :
  emitting st this root a n items →
  key ∉ ["rootContext"; "indentLevel"; "code"] →
  emitting (mkState (heap st ++ [Obj (Some this) {[key := v]}]) (nextID st))
    (List.length (heap st)) root a n items.
Proof.
  intros Hem Hkey.
  destruct (emitting_alloc _ _ _ _ _ _ (Obj (Some this) {[key := v]}) Hem)
    as [Hroot Ho Hn Hcode Ha].
  assert (this < List.length (heap st)) as Hthis.
  { destruct (decide (this < List.length (heap st))); [done|].
    destruct Hem as [Hr _ _ _ _]. rewrite get_invalid in Hr by lia. discriminate. }
  assert (∀ k', k' ∈ ["rootContext"; "indentLevel"; "code"] → k' ≠ key) as Hne
    by (intros k' Hk' ->; done).
  destruct Hem as [Hroot0 Ho0 Hn0 Hcode0 Ha0].
  split; cbn [heap] in *.
  - rewrite get_derived, decide_False by (apply Hne; set_solver).
    by rewrite bool_decide_true.
  - rewrite owner_derived; [done| |done]. apply Hne. set_solver.
  - done.
  - rewrite get_derived, decide_False by (apply Hne; set_solver).
    by rewrite bool_decide_true.
  - done.
Qed.

(** X6.  A context derived by [subContext], on a key that names an attribute
    other than [rootContext], [indentLevel] and [code], emits into the code
    array of the context it comes from, at the indent level of the common
    ROOT: a line added through it is seen by its parent at the index
    returned, behind the instructions that were there, and an [indent]
    through it moves the level at which its parent emits.  (A key that names
    a method is left out: on the derived context it would stand in the place
    of the method.) *)
Theorem derived_context_emits this root a st n items key v line :
  emitting st this root a n items →
  (0 ≤ n + 2)%Z → (n + 3 < 2 ^ 32)%Z →
  key ∉ ["rootContext"; "indentLevel"; "code"] →
  key ∉ method_names →
  ∃ ctx st1,
    subContext this key v st = (Ok ctx, st1) ∧
    (∃ idx st2,
       addLine ctx line st1 = (Ok idx, st2) ∧
       ∀ c, c ∈ [this; ctx] →
            ∃ code', items_of (heap st2) (get (heap st2) c "code") = Some code' ∧
                     code' !! Z.to_nat idx = Some (instruction n line) ∧
                     take (Z.to_nat idx) code' = items) ∧
    (∃ st2,
       indent ctx st1 = (Ok tt, st2) ∧
       addLine this line st2 =
         (Ok (Z.of_nat (List.length items)),
          with_items st2 a (items ++ [instruction (n + 1) line]))).
Proof.
  intros Hem Hlo Hhi Hkey _. rewrite subContext_ok. eexists _, _. split; [reflexivity|].
  pose proof (emitting_derived _ _ _ _ _ _ key v Hem Hkey) as Hctx.
  pose proof (emitting_alloc _ _ _ _ _ _ (Obj (Some this) {[key := v]}) Hem) as Hthis.
  set (st1 := mkState (heap st ++ [Obj (Some this) {[key := v]}]) (nextID st)) in *.
  split.
  - rewrite (addLine_emitting _ _ _ _ _ _ line Hctx) by lia.
    eexists _, _. split; [reflexivity|]. intros c Hc.
    exists (items ++ [instruction n line]).
    assert (emitting (with_items st1 a (items ++ [instruction n line])) c root a n
              (items ++ [instruction n line])) as [_ _ _ Hcode Ha].
    { apply (emitting_with_items _ _ _ _ _ items).
      apply elem_of_cons in Hc as [->|Hc]; [done|].
      apply list_elem_of_singleton in Hc as ->. done. }
    rewrite Hcode. cbn [items_of]. rewrite Ha. split; [done|].
    rewrite Nat2Z.id. split.
    + rewrite lookup_app_r by lia. by rewrite Nat.sub_diag.
    + by rewrite take_app_length.
  - destruct (indent_ok _ _ _ _ (em_root _ _ _ _ _ _ Hctx)
                (emitting_is_object _ _ _ _ _ _ Hctx) (em_level _ _ _ _ _ _ Hctx))
      as [-> _].
    eexists. split; [reflexivity|].
    pose proof (emitting_at_level _ _ _ _ _ _ (n + 1)%Z Hthis) as Hup.
    by rewrite (addLine_emitting _ _ _ _ _ _ line Hup) by lia.
Qed.

(** ** Scopes *)

Lemma formattable_counter st this root m name id :
  formattable st this root m name →
  formattable (mkState (heap st) id) this root m name.
Proof. by intros []. Qed.

Lemma formattable_bound st this root m name :
  formattable st this root m name →
  this < List.length (heap st) ∧ root < List.length (heap st).
Proof.
  intros [Hroot Hobj _ _]. split.
  - destruct (decide (this < List.length (heap st))); [done|].
    rewrite get_invalid in Hroot by lia. discriminate.
  - unfold is_object in Hobj. destruct (heap st !! root) eqn:E; [|discriminate].
    eapply lookup_lt_Some; eassumption.
Qed.

Lemma entries_of_alloc h c v m : entries_of h v = Some m → entries_of (h ++ [c]) v = Some m.
Proof.
  destruct v as [| | | | |l]; try discriminate. simpl.
  destruct (h !! l) as [c'|] eqn:E; [|discriminate].
  rewrite lookup_app_l by (eapply lookup_lt_Some; eassumption). by rewrite E.
Qed.

Lemma is_object_alloc h c l : is_object h l = true → is_object (h ++ [c]) l = true.
Proof.
  unfold is_object. destruct (h !! l) as [c'|] eqn:E; [|discriminate].
  rewrite lookup_app_l by (eapply lookup_lt_Some; eassumption). by rewrite E.
Qed.

Lemma formattable_alloc st this root m name c :
  formattable st this root m name →
  formattable (mkState (heap st ++ [c]) (nextID st)) this root m name.
Proof.
  intros Hf. destruct (formattable_bound _ _ _ _ _ Hf) as [Hthis Hr].
  destruct Hf as [Hroot Hobj Hvars Hscope]. split; cbn [heap].
  - by rewrite get_alloc.
  - by apply is_object_alloc.
  - rewrite get_alloc by done. by apply entries_of_alloc.
  - by rewrite get_alloc.
Qed.

Lemma formattable_derived st this root m name0 name key v :
  formattable st this root m name0 →
  key ∉ ["rootContext"; "variables"] →
  scope_name (if decide (key = "subScopeID") then v else get (heap st) this "subScopeID")
  = Some name →
  formattable (mkState (heap st ++ [Obj (Some this) {[key := v]}]) (nextID st))
    (List.length (heap st)) root m name.
Proof.
  intros Hf Hkey Hname. destruct (formattable_bound _ _ _ _ _ Hf) as [Hthis Hr].
  destruct Hf as [Hroot Hobj Hvars Hscope].
  assert (∀ k', k' ∈ ["rootContext"; "variables"] → k' ≠ key) as Hne
    by (intros k' Hk' ->; done).
  split; cbn [heap].
  - rewrite get_derived, decide_False by (apply Hne; set_solver).
    by rewrite bool_decide_true.
  - by apply is_object_alloc.
  - rewrite get_derived, decide_False by (apply Hne; set_solver).
    rewrite bool_decide_true by done. by apply entries_of_alloc.
  - rewrite get_derived. destruct (decide (_ = key)) as [<-|Hk].
    + by rewrite decide_True in Hname.
    + rewrite decide_False in Hname by done. by rewrite bool_decide_true.
Qed.

Lemma formattable_with_items st this root m name a items xs :
  formattable st this root m name →
  heap st !! a = Some (Arr items) →
  formattable (with_items st a xs) this root m name.
Proof.
  intros [Hroot Hobj Hvars Hscope] Ha.
  assert (is_Some (items_of (heap st) (VRef a))) as Hsome by (simpl; rewrite Ha; eauto).
  split; cbn [with_items heap].
  - by rewrite get_set_items.
  - unfold is_object in *. destruct (decide (root = a)) as [->|Hne].
    + by rewrite Ha in Hobj.
    + by rewrite list_lookup_insert_ne.
  - rewrite get_set_items by done.
    destruct (get (heap st) this "variables") as [| | | | |l]; try discriminate.
    simpl in *. destruct (decide (l = a)) as [->|Hne].
    + by rewrite Ha in Hvars.
    + by rewrite list_lookup_insert_ne.
  - by rewrite get_set_items.
Qed.

Section ScopeProperties.

Variable compileExpr : string → gmap string QWebVar → string → outcome string.

(** X7.  [startBlockScope] draws an identifier, derives a context and
    declares the sub-scope [subScope_<id>] through it.  Expressions formatted
    through the derived context are compiled against that sub-scope (against
    the plain scope if the identifier is 0, which is no identifier for the
    test in [formatExpression]); through the original context they are
    compiled against its scope as before.  Both see the same variables, and
    the ROOT is marked as needing the scope variable. *)
Theorem startBlockScope_scope this root a st n items m name :
  emitting st this root a n items →
  (0 ≤ n + 2 < 2 ^ 32)%Z →
  formattable st this root m name →
  ∃ ctx st',
    startBlockScope this st = (Ok ctx, st') ∧
    nextID st' = (nextID st + 1)%Z ∧
    items_of (heap st') (VRef a)
    = Some (items ++ [instruction n ("const subScope_" +:+ pretty (nextID st)
                        +:+ " = Object.assign(Object.create(context), scope);")]) ∧
    (∀ expr,
       fst (formatExpression compileExpr ctx expr st') =
         compileExpr expr m
           (if (nextID st =? 0)%Z then "scope" else "subScope_" +:+ pretty (nextID st)) ∧
       fst (formatExpression compileExpr this expr st') = compileExpr expr m name) ∧
    get (heap st') root "shouldDefineScope" = VBool true.
Proof.
  intros Hem Hrange Hf.
  pose proof (emitting_is_object _ _ _ _ _ _ Hem) as Hobj.
  assert (emitting (scope_needed st root) this root a n items) as Hem1.
  { apply (emitting_with_attr_ne _ _ _ _ _ _ root "shouldDefineScope" (VBool true) Hem).
    by rewrite !elem_of_cons, elem_of_nil; intros [?|[?|[?|?]]]. }
  pose proof (formattable_scope_needed _ _ _ _ _ Hf) as Hf1.
  set (s2 := mkState (heap (scope_needed st root)) (nextID st + 1)).
  assert (emitting s2 this root a n items) as Hem2 by by apply emitting_counter.
  assert (formattable s2 this root m name) as Hf2 by by apply formattable_counter.
  set (cell := Obj (Some this) {["subScopeID" := VNum (nextID st)]}).
  set (s3 := mkState (heap s2 ++ [cell]) (nextID s2)).
  assert (emitting s3 (List.length (heap s2)) root a n items) as Hem3.
  { apply emitting_derived; [done|].
    by rewrite !elem_of_cons, elem_of_nil; intros [?|[?|[?|?]]]. }
  assert (formattable s3 (List.length (heap s2)) root m
            (if (nextID st =? 0)%Z then "scope" else "subScope_" +:+ pretty (nextID st)))
    as Hf3.
  { apply (formattable_derived s2 this root m name); [done| |done].
    by rewrite !elem_of_cons, elem_of_nil; intros [?|[?|?]]. }
  assert (formattable s3 this root m name) as Hf3' by by apply formattable_alloc.
  unfold startBlockScope.
  unfold bind at 1, read at 1. rewrite (em_root _ _ _ _ _ _ Hem).
  unfold bind at 1. rewrite as_obj_ok by done.
  unfold bind at 1. rewrite write_with_attr by done.
  change (with_attr st root "shouldDefineScope" (VBool true)) with (scope_needed st root).
  unfold bind at 1, generateID at 1.
  assert (nextID (scope_needed st root) = nextID st) as ->
    by (unfold scope_needed; by destruct (set_own _ _ _ _)).
  fold s2. unfold bind at 1. rewrite subContext_ok. fold cell s3.
  unfold bind. rewrite (addLine_emitting _ _ _ _ _ _ _ Hem3 Hrange). unfold ret.
  eexists _, _. split; [reflexivity|].
  split; [reflexivity|]. split; [|split].
  - cbn [items_of with_items heap].
    rewrite list_lookup_insert_eq; [done|].
    eapply lookup_lt_Some. exact (em_items _ _ _ _ _ _ Hem3).
  - intros expr. split.
    + erewrite formatExpression_ok; [done|].
      eapply formattable_with_items; [done|]. exact (em_items _ _ _ _ _ _ Hem3).
    + erewrite formatExpression_ok; [done|].
      eapply formattable_with_items; [done|]. exact (em_items _ _ _ _ _ _ Hem3).
  - assert (root < List.length (heap s2)) as Hr
      by apply (formattable_bound _ _ _ _ _ Hf2).
    cbn [with_items heap].
    rewrite get_set_items by (cbn [items_of]; rewrite (em_items _ _ _ _ _ _ Hem3); eauto).
    unfold s3. cbn [heap]. rewrite get_alloc by done.
    unfold s2, scope_needed. cbn [heap].
    unfold is_object in Hobj. unfold set_own.
    destruct (heap st !! root) as [[proto props| |]|] eqn:E; try discriminate.
    cbn [heap]. eapply get_set_own_eq. unfold set_own. by rewrite E.
Qed.

(** X8.  Once an expression has been formatted through a context, whether
    the resolver accepted it or threw, the code that [generateCode]
    assembles on the ROOT declares the scope variable: right in front of the
    declaration of the result variable, if that is asked for, and of what the
    code array held.  None of the declarations that come in front of it
    declares the scope again; so where the array held no declaration of the
    scope ([generateCode] had not run on it before), the assembled code has
    exactly one. *)
Theorem formatExpression_declares_scope this root a st m name items expr :
  formattable st this root m name →
  get (heap st) root "code" = VRef a →
  heap st !! a = Some (Arr items) →
  ∃ st1 st2 before,
    snd (formatExpression compileExpr this expr st) = st1 ∧
    generateCode root st1 = (Ok (VRef a), st2) ∧
    heap st2 !! a =
      Some (Arr (before
                 ++ [scope_declaration]
                 ++ declaration (truthy (get (heap st) root "shouldDefineResult"))
                      "    let result;"
                 ++ items)) ∧
    Forall (λ v, v ≠ scope_declaration) before ∧
    (scope_declaration ∉ items →
     List.length
       (filter (λ v, v = scope_declaration)
          (before
           ++ [scope_declaration]
           ++ declaration (truthy (get (heap st) root "shouldDefineResult"))
                "    let result;"
           ++ items)) = 1).
Proof.
  intros Hf Hcode Ha. rewrite (formatExpression_ok _ _ _ _ _ _ _ Hf). cbn [snd].
  pose proof (formattable_scope_needed _ _ _ _ _ Hf) as Hf1.
  assert (get (heap (scope_needed st root)) root "code" = VRef a) as Hcode1
    by by rewrite scope_needed_get.
  assert (heap (scope_needed st root) !! a = Some (Arr items)) as Ha1.
  { unfold scope_needed. destruct (set_own _ _ _ _) as [h'|] eqn:E; [|done].
    cbn [heap]. rewrite (set_own_lookup _ _ _ _ _ a E).
    destruct (decide (a = root)) as [->|]; [|done].
    unfold set_own in E. by rewrite Ha in E. }
  assert (get (heap (scope_needed st root)) root "shouldDefineScope" = VBool true) as Hflag.
  { destruct Hf as [_ Hobj _ _]. unfold is_object in Hobj. unfold scope_needed, set_own.
    destruct (heap st !! root) as [[proto props| |]|] eqn:E; try discriminate.
    cbn [heap]. eapply get_set_own_eq. unfold set_own. by rewrite E. }
  pose proof (generateCode_with_items _ _ _ Ha1 root Hcode1 items) as Hrun.
  rewrite (with_items_id _ _ _ Ha1) in Hrun.
  rewrite Hflag, !scope_needed_get in Hrun by done.
  set (result := truthy (get (heap st) root "shouldDefineResult")) in *.
  set (refs := truthy (get (heap st) root "shouldDefineRefs")) in *.
  set (parent := truthy (get (heap st) root "shouldDefineParent")) in *.
  set (widget := truthy (get (heap st) root "hasParentWidget")) in *.
  set (qweb := truthy (get (heap st) root "shouldDefineQWeb")) in *.
  set (utils := truthy (get (heap st) root "shouldDefineUtils")) in *.
  set (front :=
         declaration utils "    let utils = this.constructor.utils;"
         ++ declaration qweb "    let QWeb = this.constructor;"
         ++ declaration parent (if widget
                                then "    let parent = extra.parent;"
                                else "    let parent = context;")
         ++ declaration refs "    context.__owl__.refs = context.__owl__.refs || {};").
  assert (Forall (λ v, v ≠ scope_declaration) front) as Hfront.
  { unfold front. rewrite !Forall_app. unfold declaration, scope_declaration.
    destruct utils, qweb, parent, widget, refs;
      repeat split; repeat constructor; discriminate. }
  assert (∀ l, Forall (λ v, v ≠ scope_declaration) l →
               filter (λ v, v = scope_declaration) l = []) as Hfilter.
  { induction 1 as [|x l Hx _ IH]; [done|]. by rewrite filter_cons, decide_False. }
  exists (scope_needed st root).
  eexists.
  exists front.
  split; [reflexivity|]. split; [exact Hrun|]. split; [|split; [exact Hfront|]].
  - rewrite (with_items_lookup _ _ _ Ha1). do 2 f_equal.
    rewrite prepend_each_declarations. cbn [truthy declaration]. unfold front.
    by rewrite <- !app_assoc.
  - intros Hnone. rewrite !filter_app, (Hfilter _ Hfront).
    rewrite (Hfilter (declaration result _))
      by (unfold declaration, scope_declaration; destruct result;
          repeat constructor; discriminate).
    rewrite (Hfilter items) by (apply Forall_forall; by intros x Hx ->).
    by rewrite filter_cons, decide_True.
Qed.

(** X9.  Formatting is repeatable.  Once an expression has been formatted
    through a context, formatting any expression through it leaves the store
    as it is, and what comes back depends only on the expression, the
    variables and the scope of the context.  The first formatting changes
    nothing but the ROOT's flag for the scope variable. *)
Theorem formatExpression_repeatable this root st m name expr1 expr2 :
  formattable st this root m name →
  let st1 := snd (formatExpression compileExpr this expr1 st) in
  formatExpression compileExpr this expr2 st1 = (compileExpr expr2 m name, st1) ∧
  (∀ l k, k ≠ "shouldDefineScope" → get (heap st1) l k = get (heap st) l k) ∧
  (∀ l, l ≠ root → heap st1 !! l = heap st !! l) ∧
  nextID st1 = nextID st.
Proof.
  intros Hf st1. unfold st1. rewrite (formatExpression_ok _ _ _ _ _ _ _ Hf). cbn [snd].
  split; [|split; [|split]].
  - rewrite (formatExpression_ok _ _ _ _ _ _ _ (formattable_scope_needed _ _ _ _ _ Hf)).
    by rewrite scope_needed_twice.
  - intros l k Hk. by apply scope_needed_get.
  - intros l Hl. unfold scope_needed.
    destruct (set_own _ _ _ _) as [h'|] eqn:E; [|done]. cbn [heap].
    by rewrite (set_own_lookup _ _ _ _ _ l E), decide_False.
  - unfold scope_needed. by destruct (set_own _ _ _ _).
Qed.

End ScopeProperties.

(** X10.  [generateCode] is not idempotent: it prepends the declarations at
    each call, so a second call on the same context puts them in front a
    second time. *)
Theorem generateCode_twice this a st items :
  get (heap st) this "code" = VRef a →
  heap st !! a = Some (Arr items) →
  let decls :=
    declarations
      (truthy (get (heap st) this "shouldDefineResult"))
      (truthy (get (heap st) this "shouldDefineScope"))
      (truthy (get (heap st) this "shouldDefineRefs"))
      (truthy (get (heap st) this "shouldDefineParent"))
      (truthy (get (heap st) this "hasParentWidget"))
      (truthy (get (heap st) this "shouldDefineQWeb"))
      (truthy (get (heap st) this "shouldDefineUtils")) in
  (do generateCode this in generateCode this) st =
    (Ok (VRef a), with_items st a (prepend_each decls (prepend_each decls items))).
Proof.
  intros Hcode Ha decls. unfold bind.
  pose proof (generateCode_with_items _ _ _ Ha this Hcode) as Hrun.
  rewrite <- (with_items_id _ _ _ Ha) at 1. rewrite Hrun. apply Hrun.
Qed.

(** ** Variables that refer to themselves *)

Lemma tc_first {A} (R : relation A) x z : tc R x z → ∃ y, R x y ∧ rtc R y z.
Proof.
  destruct 1 as [x z H|x y z H Htc].
  - by exists z.
  - exists y. split; [done|]. by apply tc_rtc.
Qed.

Lemma cyclic_from_key m (val : string) : cyclic_from m val → is_Some (m !! val).
Proof.
  intros (x & Hreach & Hcycle). destruct Hreach as [|val y x Hstep _].
  - apply tc_first in Hcycle as (y & Hstep & _). exists y. exact Hstep.
  - exists y. exact Hstep.
Qed.

Lemma cyclic_from_step m (val next : string) :
  cyclic_from m val → m !! val = Some next → cyclic_from m next.
Proof.
  intros (x & Hreach & Hcycle) Hnext. destruct Hreach as [|val y x Hstep Hreach].
  - apply tc_first in Hcycle as (y & Hstep & Hback).
    unfold refers in Hstep. rewrite Hnext in Hstep. injection Hstep as <-.
    exists next. split; [done|]. eapply tc_rtc_l; [exact Hback|]. by apply tc_once.
  - unfold refers in Hstep. rewrite Hnext in Hstep. injection Hstep as <-.
    by exists x.
Qed.

Lemma resolve_cyclic depth : ∀ m (val : string),
  cyclic_from m val → resolve depth m val = None.
Proof.
  induction depth as [|depth IH]; intros m val Hcyc; [done|]. simpl.
  destruct (cyclic_from_key _ _ Hcyc) as [next Hnext]. rewrite Hnext.
  apply IH. by eapply cyclic_from_step.
Qed.

Lemma resolve_reaches depth : ∀ m (val v : string),
  resolve depth m val = Some v → rtc (refers m) val v.
Proof.
  induction depth as [|depth IH]; intros m val v; [done|]. simpl.
  destruct (m !! val) as [next|] eqn:E.
  - intros H. eapply rtc_l; [exact E|]. by apply IH.
  - by intros [= <-].
Qed.

Lemma cyclic_from_delete m (x val : string) :
  cyclic_from (delete x m) val → cyclic_from m val.
Proof.
  assert (∀ a b, refers (delete x m) a b → refers m a b) as Hsub
    by (intros a b Hab; unfold refers in *; by apply lookup_delete_Some in Hab as [_ ?]).
  intros (y & Hreach & Hcycle). exists y. split.
  - eapply rtc_subrel; [|exact Hreach]. exact Hsub.
  - eapply tc_congruence with (f := id); [|exact Hcycle]. exact Hsub.
Qed.

(** A name whose resolution does not end within as many calls as the mapping
    has entries, plus one, leads into a cycle. *)
Lemma resolve_None_cyclic depth : ∀ m (val : string),
  size m < depth → resolve depth m val = None → cyclic_from m val.
Proof.
  induction depth as [|depth IH]; intros m val Hsize; [lia|]. simpl.
  destruct (m !! val) as [next|] eqn:E; [|discriminate]. intros Hnone.
  assert (size (delete val m) < depth) as Hsize'.
  { pose proof (map_size_delete val m) as Hdel. rewrite E in Hdel. simpl in Hdel.
    assert (size m ≠ 0)
      by (intros H0; apply map_size_empty_inv in H0; subst m;
          by rewrite lookup_empty in E).
    lia. }
  destruct (resolve depth (delete val m) next) as [v|] eqn:Hv.
  - destruct (decide (v = val)) as [->|Hne].
    + exists val. split; [done|].
      eapply tc_rtc_r; [apply tc_once; exact E|].
      apply resolve_reaches in Hv. eapply rtc_subrel; [|exact Hv].
      intros a b Hab. unfold refers in *. by apply lookup_delete_Some in Hab as [_ ?].
    + destruct (resolve_delete _ _ _ _ _ Hv Hne) as (Hr & _ & _). congruence.
  - apply IH in Hv; [|done]. apply cyclic_from_delete in Hv.
    destruct Hv as (y & Hreach & Hcycle). exists y. split; [|done].
    by eapply rtc_l.
Qed.

Lemma resolve_not_key depth : ∀ m (val v : string),
  resolve depth m val = Some v → m !! v = None.
Proof.
  induction depth as [|depth IH]; intros m val v; [done|]. simpl.
  destruct (m !! val) as [next|] eqn:E; [apply IH|]. by intros [= <-].
Qed.

(** X11.  [getValue] and the chains of references.  From a name that leads
    into a cycle of references it does not return: however much room the
    stack has, the calls use it up and the outcome is a RangeError.  From any
    other name the references end in a name that is not a key.  When no
    object inherits a member of that name, [getValue] returns it, in no more
    calls than the mapping has entries, plus one; when it is the name of an
    inherited member ([toString], [constructor], ...), [getValue] does not
    return it.  The store is as before in every case. *)
Theorem getValue_follows_references this st m (val : string) :
  entries_of (heap st) (get (heap st) this "variables") = Some m →
  (cyclic_from m val →
   ∀ depth, getValue depth this (Name val) st = (Throw RangeError, st)) ∧
  (¬ cyclic_from m val →
   ∃ v : string,
     rtc (refers m) val v ∧ m !! v = None ∧
     (v ∉ Object_prototype →
      ∀ depth, size m < depth →
               getValue depth this (Name val) st = (Ok (Name v), st)) ∧
     (v ∈ Object_prototype →
      ∀ depth, fst (getValue depth this (Name val) st) ≠ Ok (Name v))) ∧
  (∀ depth, snd (getValue depth this (Name val) st) = st).
Proof.
  intros Hm. split; [|split].
  - intros Hcyc depth. rewrite (getValue_follow _ _ _ _ Hm).
    pose proof (follow_resolve depth m val) as H.
    rewrite (resolve_cyclic _ _ _ Hcyc) in H. by rewrite H.
  - intros Hnot. destruct (resolve (S (size m)) m val) as [v|] eqn:Hv.
    + exists v. split; [by eapply resolve_reaches|].
      split; [by eapply resolve_not_key|]. split.
      * intros Hnone depth Hdepth. rewrite (getValue_follow _ _ _ _ Hm).
        pose proof (follow_resolve depth m val) as H.
        rewrite (resolve_le (S (size m)) depth m val v) in H by (done || lia).
        by rewrite H.
      * intros Hin depth. rewrite (getValue_follow _ _ _ _ Hm). cbn [fst].
        destruct (follow depth m (Name val)) as [r|] eqn:Hr; [|discriminate].
        intros [= ->]. by apply follow_final in Hr as [_ Hr].
    + destruct Hnot. eapply resolve_None_cyclic; [|exact Hv]. lia.
  - intros depth. by rewrite (getValue_follow _ _ _ _ Hm).
Qed.

(** X12.  What [getValue] returns is final: it is neither a key of the
    mapping nor the name of a member that the mapping inherits, so resolving
    it again gives the result itself, in one call.  The call changes nothing
    in the store, and with more room on the stack it returns the same. *)
Theorem getValue_idempotent depth this (val r : resolvable) st st' :
  getValue depth this val st = (Ok r, st') →
  st' = st ∧
  (∀ m, entries_of (heap st) (get (heap st) this "variables") = Some m →
        m !! property_key r = None ∧ property_key r ∉ Object_prototype) ∧
  (∀ depth', getValue (S depth') this r st = (Ok r, st)) ∧
  (∀ depth', depth ≤ depth' → getValue depth' this val st = (Ok r, st)).
Proof.
  intros Hrun.
  destruct (entries_of (heap st) (get (heap st) this "variables")) as [m|] eqn:Hm.
  - rewrite (getValue_follow _ _ _ _ Hm) in Hrun.
    destruct (follow depth m val) as [r'|] eqn:Hr; [|discriminate].
    injection Hrun as -> ->. split; [done|].
    destruct (follow_final _ _ _ _ Hr) as [Hkey Hmember].
    split; [by intros ? [= <-]|]. split.
    + intros depth'. rewrite (getValue_follow _ _ _ _ Hm), follow_unfold, Hkey.
      by rewrite bool_decide_false.
    + intros depth' Hle. rewrite (getValue_follow _ _ _ _ Hm).
      by rewrite (follow_le _ _ _ _ _ Hle Hr).
  - destruct depth as [|depth]; [discriminate|].
    simpl in Hrun. unfold bind, read, as_dict in Hrun. cbn [heap] in Hrun.
    rewrite Hm in Hrun. discriminate.
Qed.

(** ** Deriving again *)


(** ** Where identifiers come from *)

#[local] Hint Resolve counter_write counter_alloc counter_push counter_unshift
  counter_addLine counter_subContext counter_indent counter_dedent
  counter_formatExpression : rel.

Lemma generateTemplateKey_counter this pfx st :
  nextID (snd (generateTemplateKey this pfx st)) = (nextID st + 1)%Z.
Proof.
  unfold generateTemplateKey. unfold bind at 1. unfold generateID at 1.
  match goal with
  | |- context [snd (?m ?s)] =>
      assert (state_rel (on_counter eq) m) as H by rel; specialize (H s)
  end.
  unfold on_counter in H. by rewrite <- H.
Qed.

Section CounterUse.

Variable compileExpr : string → gmap string QWebVar → string → outcome string.

Lemma counter_exec_kept c :
  draws_identifier c = false → state_rel (on_counter eq) (exec compileExpr c).
Proof.
  pose proof (counter_new eq). pose proof (counter_generateCode eq).
  pose proof (counter_withParent eq). pose proof (counter_getValue eq).
  pose proof (counter_interpolate eq compileExpr).
  destruct c; try discriminate; intros _; simpl;
    unfold addIf, addElse, closeIf, stopProtectScope; rel.
Qed.

Lemma forget_state {A} (m : M A) st : snd (forget m st) = snd (m st).
Proof. unfold forget, bind. by destruct (m st) as [[a|e] st']. Qed.

Lemma counter_exec_step c st :
  (nextID st ≤ nextID (snd (exec compileExpr c st)) ≤ nextID st + 1)%Z.
Proof.
  assert (∀ {A} (m : M A) s, state_rel (on_counter eq) m → nextID (snd (m s)) = nextID s)
    as Hkept by (intros A m s Hm; symmetry; apply Hm).
  destruct (draws_identifier c) eqn:Hc.
  - destruct c as [| |this pfx| | | | | | | | | | | | | | | |];
      try discriminate; cbn [exec]; rewrite forget_state.
    + simpl. lia.
    + rewrite generateTemplateKey_counter. lia.
    + enough (nextID (snd (startProtectScope this st)) = nextID st + 1)%Z by lia.
      unfold startProtectScope. unfold bind at 1. unfold generateID at 1.
      match goal with
      | |- context [snd (?m ?s)] => rewrite (Hkept _ m s) by rel
      end.
      reflexivity.
    + enough (nextID (snd (startBlockScope this st)) = nextID st ∨
              nextID (snd (startBlockScope this st)) = nextID st + 1)%Z by lia.
      unfold startBlockScope. unfold bind, read, generateID.
      destruct (as_obj _ st) as [[root|e] s1] eqn:E1;
        apply (f_equal snd) in E1; rewrite as_obj_state in E1; simpl in E1; subst s1;
        [|by left].
      pose proof (counter_write eq root "shouldDefineScope" (VBool true) st) as H2.
      unfold on_counter in H2.
      destruct (write root _ _ st) as [[[]|e] s2] eqn:E2; cbn [snd] in H2; [|by left].
      right. rewrite H2.
      pose proof (Hkept _ (subContext this "subScopeID" (VNum (nextID s2)))
                    (mkState (heap s2) (nextID s2 + 1)) ltac:(rel)) as H3.
      destruct (subContext _ _ _ _) as [[ctx|e] s3]; cbn [snd nextID] in H3; [|done].
      pose proof (Hkept _ (addLine ctx ("const subScope_" +:+ pretty (nextID s2)
                    +:+ " = Object.assign(Object.create(context), scope);")) s3
                    ltac:(rel)) as H4.
      destruct (addLine _ _ _) as [[idx|e] s4]; cbn [snd] in *; unfold ret; cbn [snd]; lia.
  - pose proof (counter_exec_kept c Hc st) as H. unfold on_counter in H. lia.
Qed.

(** X14.  Only [generateID] moves the counter of the class, and the three
    methods that call it, [generateTemplateKey], [startProtectScope] and
    [startBlockScope]: any other call (making a context, emitting, deriving,
    formatting, a plain assignment) leaves the counter where it was, whether
    it returns or throws, so a run without a drawing call keeps the counter.
    While the counter is within the integers that a number holds exactly
    (from -2^53 at the start to no more than 2^53 if every drawing call of
    the run drew), each drawing call moves it by one at most: in the run it
    does not go back and advances by at most the number of drawing calls. *)
Theorem counter_moves_with_draws calls st :
  (Forall (λ c, draws_identifier c = false) calls →
   nextID (run compileExpr calls st) = nextID st) ∧
  ((- 2 ^ 53 ≤ nextID st)%Z →
   (nextID st + Z.of_nat (List.length (filter (λ c, draws_identifier c = true) calls))
    ≤ 2 ^ 53)%Z →
   (nextID st ≤ nextID (run compileExpr calls st)
    ≤ nextID st + Z.of_nat (List.length (filter (λ c, draws_identifier c = true) calls)))%Z).
Proof.
  assert (nextID st ≤ nextID (run compileExpr calls st)
          ≤ nextID st
            + Z.of_nat (List.length (filter (λ c, draws_identifier c = true) calls)))%Z as H.
  { revert st. induction calls as [|c calls IH]; intros st; [simpl; lia|].
    change (run compileExpr (c :: calls) st)
      with (run compileExpr calls (snd (exec compileExpr c st))).
    specialize (IH (snd (exec compileExpr c st))).
    pose proof (counter_exec_step c st) as Hstep.
    rewrite filter_cons. destruct (decide (draws_identifier c = true)) as [Hc|Hc].
    - simpl List.length. lia.
    - apply not_true_is_false in Hc.
      pose proof (counter_exec_kept c Hc st) as Hk. unfold on_counter in Hk. lia. }
  split; [|intros _ _; exact H]. intros Hnone.
  assert (filter (λ c, draws_identifier c = true) calls = []) as Hnil.
  { clear H. induction Hnone as [|c calls Hc _ IH]; [done|].
    rewrite filter_cons, decide_False by congruence. exact IH. }
  rewrite Hnil in H. simpl in H. lia.
Qed.

End CounterUse.

(** ** Template keys are unique *)

Lemma chars_append (a b : string) :
  list_ascii_of_string (a +:+ b) = list_ascii_of_string a ++ list_ascii_of_string b.
Proof.
  induction a as [|c a IH]; [done|]. rewrite append_cons. simpl. by rewrite IH.
Qed.

Lemma pretty_N_go_chars x : ∀ s,
  "_"%char ∉ list_ascii_of_string s → "_"%char ∉ list_ascii_of_string (pretty_N_go x s).
Proof.
  induction (N.lt_wf_0 x) as [x _ IH]. intros s Hs.
  assert (x = 0 ∨ 0 < x)%N as [->|Hx] by lia; [by rewrite pretty_N_go_0|].
  rewrite pretty_N_go_step by done. apply IH; [by apply N.div_lt|].
  simpl. rewrite not_elem_of_cons. split; [|done].
  unfold pretty_N_char. by repeat case_match.
Qed.

Lemma pretty_Z_chars (z : Z) : "_"%char ∉ list_ascii_of_string (pretty z).
Proof.
  assert (∀ p : positive, "_"%char ∉ list_ascii_of_string (pretty p)) as Hpos.
  { intros p. unfold pretty, pretty_positive, pretty, pretty_N.
    case_decide; [done|]. apply pretty_N_go_chars. simpl. apply not_elem_of_nil. }
  destruct z as [|p|p]; unfold pretty, pretty_Z.
  - simpl. rewrite not_elem_of_cons. split; [done|apply not_elem_of_nil].
  - apply Hpos.
  - rewrite chars_append. simpl. rewrite not_elem_of_cons. split; [done|apply Hpos].
Qed.

(** A list is cut in one way only at the first occurrence of an element. *)
Lemma first_occurrence {A} (c : A) (a b r r' : list A) :
  c ∉ a → c ∉ b → a ++ c :: r = b ++ c :: r' → a = b.
Proof.
  revert b. induction a as [|x a IH]; intros [|y b] Ha Hb H; simpl in H.
  - done.
  - injection H as <- _. by apply not_elem_of_cons in Hb as [? _].
  - injection H as -> _. by apply not_elem_of_cons in Ha as [? _].
  - injection H as -> H. f_equal.
    apply not_elem_of_cons in Ha as [_ Ha]. apply not_elem_of_cons in Hb as [_ Hb].
    by apply IH.
Qed.

(** The identifier can be read off a literal key, whatever the prefix. *)
Lemma literal_key_inj (p1 p2 : string) (id1 id2 : Z) :
  "'" +:+ p1 +:+ "__" +:+ pretty id1 +:+ "__'"
  = "'" +:+ p2 +:+ "__" +:+ pretty id2 +:+ "__'" →
  id1 = id2.
Proof.
  intros H. apply (f_equal list_ascii_of_string) in H.
  rewrite !chars_append in H. simpl in H. injection H as H.
  assert (∀ P D : list ascii,
            P ++ "_"%char :: "_"%char :: D ++ ["_"; "_"; "'"]%char
            = (P ++ "_"%char :: "_"%char :: D) ++ ["_"; "_"; "'"]%char) as Hassoc
    by (intros; by rewrite <- app_assoc).
  rewrite !Hassoc in H. apply (inj (λ l, l ++ _)) in H.
  apply (f_equal reverse) in H. rewrite !reverse_app, !reverse_cons in H.
  rewrite <- !app_assoc in H. simpl in H.
  apply first_occurrence in H.
  - apply (inj reverse) in H.
    apply (f_equal string_of_list_ascii) in H.
    rewrite !string_of_list_ascii_of_string in H. by apply (inj pretty).
  - rewrite elem_of_reverse. apply pretty_Z_chars.
  - rewrite elem_of_reverse. apply pretty_Z_chars.
Qed.

Lemma generateTemplateKey_shape this pfx st key :
  fst (generateTemplateKey this pfx st) = Ok key →
  key = "'" +:+ pfx +:+ "__" +:+ pretty (nextID st) +:+ "__'" ∨
  key = "k" +:+ pretty (nextID st).
Proof.
  unfold generateTemplateKey, bind, generateID, read. cbn [heap nextID].
  destruct (strict_eq _ _ && negb _); [intros [= <-]; by left|].
  destruct (as_num _ _) as [[n|e] s1]; [|discriminate].
  destruct (addLine _ _ _) as [[idx|e] s2]; [|discriminate].
  intros [= <-]. by right.
Qed.

Section KeysDistinct.

Variable compileExpr : string → gmap string QWebVar → string → outcome string.

(** X15.  Two calls of [generateTemplateKey] that return, on any contexts,
    with any prefixes and with any run of the compiler in between, return
    different keys: whether each of the keys is a literal or the name of a
    composite key, and even when one prefix contains the other one followed
    by the separator.  This is as long as the counter is within the integers
    that a number holds exactly: not below -2^53 at the first call and not
    past 2^53 when the later call is made. *)
Theorem generateTemplateKey_distinct c1 c2 prefix1 prefix2 between st key1 key2 :
  let r1 := generateTemplateKey c1 prefix1 st in
  let r2 := generateTemplateKey c2 prefix2 (run compileExpr between (snd r1)) in
  (- 2 ^ 53 ≤ nextID st)%Z →
  (nextID (run compileExpr between (snd r1)) ≤ 2 ^ 53)%Z →
  fst r1 = Ok key1 → fst r2 = Ok key2 → key1 ≠ key2.
Proof.
  intros r1 r2 _ _ H1 H2.
  pose proof (counter_run Z.le ltac:(lia) compileExpr between (snd r1)) as Hrun.
  unfold r1 in Hrun at 1. rewrite generateTemplateKey_counter in Hrun.
  apply generateTemplateKey_shape in H1, H2.
  set (id1 := nextID st) in *. set (id2 := nextID (run _ _ _)) in *.
  assert (id1 ≠ id2) as Hne by lia.
  destruct H1 as [-> | ->], H2 as [-> | ->]; intros Heq.
  - by apply literal_key_inj in Heq.
  - change ("'" +:+ prefix1 +:+ "__" +:+ pretty id1 +:+ "__'")
      with (String "'" (prefix1 +:+ "__" +:+ pretty id1 +:+ "__'")) in Heq.
    change ("k" +:+ pretty id2) with (String "k" (pretty id2)) in Heq. discriminate.
  - change ("'" +:+ prefix2 +:+ "__" +:+ pretty id2 +:+ "__'")
      with (String "'" (prefix2 +:+ "__" +:+ pretty id2 +:+ "__'")) in Heq.
    change ("k" +:+ pretty id1) with (String "k" (pretty id1)) in Heq. discriminate.
  - change ("k" +:+ pretty id1) with (String "k" (pretty id1)) in Heq.
    change ("k" +:+ pretty id2) with (String "k" (pretty id2)) in Heq.
    injection Heq as Heq. by apply (inj pretty) in Heq.
Qed.

End KeysDistinct.

(** ** Nested elements *)

(** X16.  [withParent] on a context without a parent, then again on the
    context it returned: the first call emits the assignment of the result
    (the ROOT asks for it) and the second one emits nothing, so only the
    outermost element of a template assigns the result; the first call does
    not throw when its guard does not hold, the second one never does; the
    ROOT's [rootNode] is the first node unless it was set before; each
    derived context has the node it was made for as [parentNode], and the
    original context has none, as before. *)
Theorem withParent_nested this root a st n items node1 node2 :
  emitting st this root a n items →
  (0 ≤ n + 2 < 2 ^ 32)%Z →
  ¬ second_root st this →
  truthy (get (heap st) this "parentNode") = false →
  truthy (get (heap st) root "shouldDefineResult") = true →
  node1 ≠ 0%Z →
  ∃ c1 st1 c2 st2,
    withParent this node1 st = (Ok c1, st1) ∧
    withParent c1 node2 st1 = (Ok c2, st2) ∧
    items_of (heap st1) (VRef a)
    = Some (items ++ [instruction n ("result = vn" +:+ pretty node1 +:+ ";")]) ∧
    items_of (heap st2) (VRef a) = items_of (heap st1) (VRef a) ∧
    get (heap st2) root "rootNode"
    = (if truthy (get (heap st) root "rootNode")
       then get (heap st) root "rootNode" else VNum node1) ∧
    get (heap st2) c1 "parentNode" = VNum node1 ∧
    get (heap st2) c2 "parentNode" = VNum node2 ∧
    get (heap st2) this "parentNode" = get (heap st) this "parentNode".
Proof.
  intros Hem Hrange Hguard Hparent Hresult Hnode.
  set (rootNode := get (heap st) root "rootNode") in *.
  pose proof (emitting_is_object _ _ _ _ _ _ Hem) as Hobj.
  set (sa := if truthy rootNode then st
             else with_attr st root "rootNode" (VNum node1)).
  assert (emitting sa this root a n items) as Hema.
  { unfold sa. destruct (truthy rootNode); [done|].
    apply emitting_with_attr_ne; [done|].
    by rewrite !elem_of_cons, elem_of_nil; intros [?|[?|[?|?]]]. }
  assert (∀ l k, k ≠ "rootNode" → get (heap sa) l k = get (heap st) l k) as Hframe.
  { intros l k Hk. unfold sa. destruct (truthy rootNode); [done|].
    unfold with_attr. destruct (set_own _ _ _ _) as [h'|] eqn:E; [|done].
    by apply (get_set_own_ne _ _ _ _ _ _ _ E). }
  assert (get (heap sa) root "rootNode"
          = if truthy rootNode then rootNode else VNum node1) as HrootNode.
  { unfold sa. destruct (truthy rootNode); [done|].
    unfold is_object in Hobj. unfold with_attr, set_own.
    destruct (heap st !! root) as [[proto props| |]|] eqn:E; try discriminate.
    cbn [heap]. eapply get_set_own_eq. unfold set_own. by rewrite E. }
  assert (truthy (get (heap sa) root "rootNode") = true) as Htruthy.
  { rewrite HrootNode. destruct (truthy rootNode) eqn:E; [done|].
    simpl. by apply negb_true_iff, Z.eqb_neq. }
  set (line := instruction n ("result = vn" +:+ pretty node1 +:+ ";")).
  set (sb := with_items sa a (items ++ [line])).
  assert (emitting sb this root a n (items ++ [line])) as Hemb
    by by apply (emitting_with_items _ _ _ _ _ items).
  assert (∀ l k, get (heap sb) l k = get (heap sa) l k) as Hframeb.
  { intros l k. apply get_set_items. cbn [items_of].
    rewrite (em_items _ _ _ _ _ _ Hema). eauto. }
  set (cell1 := Obj (Some this) {["parentNode" := VNum node1]}).
  set (s1 := mkState (heap sb ++ [cell1]) (nextID sb)).
  set (c1 := List.length (heap sb)).
  assert (this < c1) as Hthis.
  { destruct (decide (this < c1)); [done|].
    pose proof (em_root _ _ _ _ _ _ Hemb) as Hr.
    rewrite get_invalid in Hr by (unfold c1 in *; lia). discriminate. }
  assert (root < c1) as Hroot.
  { pose proof (owner_le _ _ _ _ (em_owner _ _ _ _ _ _ Hemb)). lia. }
  assert (withParent this node1 st = (Ok c1, s1)) as Hcall1.
  { unfold withParent.
    unfold bind at 1, read at 1. unfold bind at 1, read at 1.
    unfold bind at 1, read at 1. unfold bind at 1, read at 1.
    destruct (negb _ && strict_eq _ _ && (_ || _)) eqn:Hg.
    { exfalso. apply Hguard.
      apply andb_true_iff in Hg as [Hg Hp]. apply andb_true_iff in Hg as [Hallow Hr].
      unfold strict_eq in Hr. apply bool_decide_eq_true in Hr.
      split; [by apply negb_true_iff|]. split; [done|]. by apply orb_true_iff. }
    unfold bind at 1, read at 1. rewrite (em_root _ _ _ _ _ _ Hem).
    unfold bind at 1. rewrite as_obj_ok by done.
    unfold bind at 1, read at 1. fold rootNode.
    unfold bind at 1.
    assert (when (negb (truthy rootNode)) (write root "rootNode" (VNum node1)) st
            = (Ok tt, sa)) as ->.
    { unfold sa, when. destruct (truthy rootNode); [done|]. simpl.
      by apply write_with_attr. }
    unfold bind at 1, read at 1. rewrite Hframe, Hparent by done.
    unfold bind at 1. unfold bind at 1, read at 1.
    rewrite Hframe, (em_root _ _ _ _ _ _ Hem) by done.
    unfold bind at 1.
    rewrite as_obj_ok by apply (emitting_is_object _ _ _ _ _ _ Hema).
    unfold bind at 1, read at 1. rewrite Hframe, Hresult by done. unfold ret at 1.
    unfold bind at 1. unfold when. unfold bind at 1.
    rewrite (addLine_emitting _ _ _ _ _ _ _ Hema Hrange). fold line sb. unfold ret at 1.
    by rewrite subContext_ok. }
  assert (emitting s1 c1 root a n (items ++ [line])) as Hem1.
  { apply emitting_derived; [done|].
    by rewrite !elem_of_cons, elem_of_nil; intros [?|[?|[?|?]]]. }
  assert (get (heap s1) c1 "parentNode" = VNum node1) as Hpn1.
  { unfold s1, c1, cell1. cbn [heap]. by rewrite get_derived. }
  assert (∀ l k, l < c1 → get (heap s1) l k = get (heap sa) l k) as Hframe1.
  { intros l k Hl. unfold s1. cbn [heap]. rewrite get_alloc by done. apply Hframeb. }
  set (cell2 := Obj (Some c1) {["parentNode" := VNum node2]}).
  set (s2 := mkState (heap s1 ++ [cell2]) (nextID s1)).
  assert (List.length (heap s1) = S c1) as Hlen1
    by (unfold s1, c1; cbn [heap]; rewrite length_app; cbn [List.length]; lia).
  assert (withParent c1 node2 s1 = (Ok (S c1), s2)) as Hcall2.
  { unfold withParent.
    unfold bind at 1, read at 1. unfold bind at 1, read at 1.
    unfold bind at 1, read at 1. unfold bind at 1, read at 1.
    rewrite (em_root _ _ _ _ _ _ Hem1).
    assert (strict_eq (VRef c1) (VRef root) = false) as ->
      by (unfold strict_eq; apply bool_decide_eq_false; intros [= ?]; lia).
    rewrite andb_false_r. cbn [andb].
    unfold bind at 1, read at 1. rewrite (em_root _ _ _ _ _ _ Hem1).
    unfold bind at 1.
    rewrite as_obj_ok by apply (emitting_is_object _ _ _ _ _ _ Hem1).
    unfold bind at 1, read at 1. rewrite Hframe1, Htruthy by done.
    unfold bind at 1. unfold when at 1. cbn [negb]. unfold ret at 1.
    unfold bind at 1, read at 1. rewrite Hpn1.
    assert (truthy (VNum node1) = true) as ->
      by (simpl; by apply negb_true_iff, Z.eqb_neq).
    unfold bind at 1. unfold ret at 1. unfold bind at 1. unfold when at 1.
    unfold ret at 1. rewrite subContext_ok. by rewrite Hlen1. }
  exists c1, s1, (S c1), s2. split; [exact Hcall1|]. split; [exact Hcall2|].
  assert (heap s1 !! a = Some (Arr (items ++ [line]))) as Ha1
    by exact (em_items _ _ _ _ _ _ Hem1).
  assert (a < List.length (heap s1)) as Hlt by (eapply lookup_lt_Some; eassumption).
  split; [|split; [|split; [|split; [|split]]]].
  - cbn [items_of]. by rewrite Ha1.
  - unfold s2. cbn [items_of heap]. by rewrite lookup_app_l.
  - unfold s2. cbn [heap]. rewrite get_alloc by lia. rewrite Hframe1 by done.
    exact HrootNode.
  - unfold s2. cbn [heap]. rewrite get_alloc by lia. exact Hpn1.
  - unfold s2, cell2. cbn [heap]. rewrite <- Hlen1. by rewrite get_derived.
  - unfold s2. cbn [heap]. rewrite get_alloc by lia. rewrite Hframe1 by done.
    by apply Hframe.
Qed.

(** ** What the constructor establishes *)

Lemma emitting_app st this root a n items cells :
  emitting st this root a n items →
  emitting (mkState (heap st ++ cells) (nextID st)) this root a n items.
Proof.
  revert st. induction cells as [|c cells IH]; intros st Hem.
  - rewrite app_nil_r. by destruct st.
  - apply (emitting_alloc _ _ _ _ _ _ c) in Hem. apply IH in Hem.
    cbn [heap nextID] in Hem. by rewrite <- app_assoc in Hem.
Qed.

Lemma formattable_app st this root m name cells :
  formattable st this root m name →
  formattable (mkState (heap st ++ cells) (nextID st)) this root m name.
Proof.
  revert st. induction cells as [|c cells IH]; intros st Hf.
  - rewrite app_nil_r. by destruct st.
  - apply (formattable_alloc _ _ _ _ _ c) in Hf. apply IH in Hf.
    cbn [heap nextID] in Hf. by rewrite <- app_assoc in Hf.
Qed.

Lemma fresh_attributes_lookup this name :
  fresh_attributes this name !! "rootContext" = Some (VRef this) ∧
  fresh_attributes this name !! "indentLevel" = Some (VNum 0) ∧
  fresh_attributes this name !! "code" = Some (VRef (this + 1)) ∧
  fresh_attributes this name !! "variables" = Some (VRef (this + 2)) ∧
  fresh_attributes this name !! "subScopeID" = Some VNull.
Proof. repeat split; vm_compute; reflexivity. Qed.

Lemma new_CompilationContext_invariants name st :
  let c := List.length (heap st) in
  let st' := snd (new_CompilationContext name st) in
  emitting st' c c (c + 1) 0 [VStr "    let h = this.h;"] ∧
  formattable st' c c ∅ "scope".
Proof.
  intros c st'. unfold st'. rewrite new_CompilationContext_ok. cbn [snd]. fold c.
  destruct (fresh_attributes_lookup c name) as (Hroot & Hlevel & Hcode & Hvars & Hsub).
  set (cells := [Obj None (fresh_attributes c name); Arr [VStr "    let h = this.h;"];
                 Dict ∅; Arr []]).
  assert ((heap st ++ cells) !! c = Some (Obj None (fresh_attributes c name))) as Hcell0
    by (unfold c; rewrite lookup_app_r by lia; by rewrite Nat.sub_diag).
  assert (∀ k, get (heap st ++ cells) c k
               = default VUndef (fresh_attributes c name !! k)) as Hget.
  { intros k. rewrite get_unfold, Hcell0. by destruct (_ !! k). }
  assert (∀ i, (heap st ++ cells) !! (c + i) = cells !! i) as Hcell
    by (intros i; apply lookup_app_plus).
  split; split; cbn [heap].
  - by rewrite Hget, Hroot.
  - by rewrite owner_unfold, Hcell0, Hlevel.
  - by rewrite Hget, Hlevel.
  - by rewrite Hget, Hcode.
  - by rewrite Hcell.
  - by rewrite Hget, Hroot.
  - unfold is_object. by rewrite Hcell0.
  - rewrite Hget, Hvars.
    change (entries_of (heap st ++ cells) (VRef (c + 2)) = Some ∅).
    cbn [entries_of]. by rewrite Hcell.
  - by rewrite Hget, Hsub.
Qed.

(** X17.  Contexts made by the constructor share nothing but the counter of
    the class.  Each one is its own ROOT, at indent level 0, with a code
    array of its own that holds the h-binding line: a line added through the
    second context goes to its array at index 1 and leaves the array of the
    first as it was, and an [indent] through the second leaves the level of
    the first at 0.  Making them uses no identifier. *)
Theorem new_contexts_independent name1 name2 line st :
  ∃ c1 st1 c2 st2,
    new_CompilationContext name1 st = (Ok c1, st1) ∧
    new_CompilationContext name2 st1 = (Ok c2, st2) ∧
    c1 ≠ c2 ∧
    get (heap st2) c1 "rootContext" = VRef c1 ∧
    get (heap st2) c2 "rootContext" = VRef c2 ∧
    nextID st2 = nextID st ∧
    (∃ st3,
       addLine c2 line st2 = (Ok 1%Z, st3) ∧
       items_of (heap st3) (get (heap st3) c1 "code")
       = Some [VStr "    let h = this.h;"] ∧
       items_of (heap st3) (get (heap st3) c2 "code")
       = Some [VStr "    let h = this.h;"; instruction 0 line]) ∧
    (∃ st3,
       indent c2 st2 = (Ok tt, st3) ∧
       get (heap st3) c1 "indentLevel" = VNum 0 ∧
       get (heap st3) c2 "indentLevel" = VNum 1).
Proof.
  destruct (new_CompilationContext_invariants name1 st) as [Hem1 _].
  cbv zeta in Hem1.
  rewrite new_CompilationContext_ok in *. cbn [snd] in Hem1.
  set (c1 := List.length (heap st)) in *.
  set (st1 := mkState _ _) in *.
  destruct (new_CompilationContext_invariants name2 st1) as [Hem2 _].
  cbv zeta in Hem2.
  rewrite new_CompilationContext_ok in *. cbn [snd] in Hem2.
  set (c2 := List.length (heap st1)) in *.
  apply (emitting_app _ _ _ _ _ _
           [Obj None (fresh_attributes c2 name2); Arr [VStr "    let h = this.h;"];
            Dict ∅; Arr []]) in Hem1.
  set (st2 := mkState (heap st1 ++ _) _) in *.
  assert (c2 = c1 + 4) as Hc2
    by (unfold c2, st1, c1; cbn [heap]; rewrite length_app; simpl; lia).
  exists c1, st1, c2, st2. split; [done|].
  split; [apply new_CompilationContext_ok|].
  split; [lia|]. split; [apply Hem1|]. split; [apply Hem2|]. split; [done|].
  split.
  - rewrite (addLine_emitting _ _ _ _ _ _ line Hem2) by lia.
    eexists. split; [done|].
    assert (is_Some (items_of (heap st2) (VRef (c2 + 1)))) as Hsome
      by (cbn [items_of]; rewrite (em_items _ _ _ _ _ _ Hem2); eauto).
    cbn [with_items heap]. rewrite !get_set_items by done.
    rewrite (em_code _ _ _ _ _ _ Hem1), (em_code _ _ _ _ _ _ Hem2). cbn [items_of].
    rewrite list_lookup_insert_ne by lia.
    rewrite (em_items _ _ _ _ _ _ Hem1). split; [done|].
    rewrite list_lookup_insert_eq; [done|].
    eapply lookup_lt_Some. exact (em_items _ _ _ _ _ _ Hem2).
  - destruct (indent_ok _ _ _ _ (em_root _ _ _ _ _ _ Hem2)
                (emitting_is_object _ _ _ _ _ _ Hem2) (em_level _ _ _ _ _ _ Hem2))
      as [-> _].
    eexists. split; [done|].
    pose proof (emitting_is_object _ _ _ _ _ _ Hem2) as Hobj. unfold is_object in Hobj.
    unfold at_level, with_attr, set_own.
    destruct (heap st2 !! c2) as [[proto props| |]|] eqn:E; try discriminate.
    cbn [heap].
    assert (set_own (heap st2) c2 "indentLevel" (VNum (0 + 1))
            = Some (<[c2 := Obj proto (<["indentLevel" := VNum (0 + 1)]> props)]> (heap st2)))
      as Hset by (unfold set_own; by rewrite E).
    split; [|by apply (get_set_own_eq _ _ _ _ _ Hset)].
    rewrite <- (em_level _ _ _ _ _ _ Hem1). apply get_ext. intros l' Hl'.
    rewrite list_lookup_insert_ne by lia. done.
Qed.

(** ** What no method does *)

Section MethodsRespect.

Context (R : relation state) `{!PreOrder R}.
Variable compileExpr : string → gmap string QWebVar → string → outcome string.

Hypothesis R_counter : ∀ st id, R st (mkState (heap st) id).
Hypothesis R_write :
  ∀ l k v, k ∈ written_by_methods → state_rel R (write l k v).
Hypothesis R_push : ∀ a x, state_rel R (push a x).
Hypothesis R_subContext : ∀ this key v, state_rel R (subContext this key v).
Hypothesis R_new : ∀ name, state_rel R (new_CompilationContext name).

Lemma respect_generateID this : state_rel R (generateID this).
Proof. intros st. apply R_counter. Qed.

Lemma respect_rootNode l v : state_rel R (write l "rootNode" v).
Proof. apply R_write. unfold written_by_methods. set_solver. Qed.

Lemma respect_indentLevel l v : state_rel R (write l "indentLevel" v).
Proof. apply R_write. unfold written_by_methods. set_solver. Qed.

Lemma respect_shouldDefineScope l v : state_rel R (write l "shouldDefineScope" v).
Proof. apply R_write. unfold written_by_methods. set_solver. Qed.

Hint Resolve respect_generateID respect_rootNode respect_indentLevel
  respect_shouldDefineScope R_push R_subContext R_new : rel.

Lemma respect_addLine this line : state_rel R (addLine this line).
Proof. unfold addLine. rel. Qed.

Hint Resolve respect_addLine : rel.

Lemma respect_getValue depth this val : state_rel R (getValue depth this val).
Proof. revert val. induction depth as [|depth IH]; intros val; simpl; rel. Qed.

Lemma respect_formatExpression this expr :
  state_rel R (formatExpression compileExpr this expr).
Proof. unfold formatExpression. rel. Qed.

Hint Resolve respect_formatExpression respect_getValue : rel.

Lemma respect_String_replace_go fuel s f :
  (∀ m, state_rel R (f m)) → state_rel R (String_replace_go fuel s f).
Proof.
  intros Hf. revert s. induction fuel as [|fuel IH]; intros s; simpl; [rel|].
  destruct (INTERP_REGEXP s) as [[[before m] rest]|]; rel.
Qed.

Lemma respect_interpolate this s : state_rel R (interpolate compileExpr this s).
Proof.
  unfold interpolate.
  destruct (match String_match s with Some (m0 :: _) => _ | _ => false end).
  - rel.
  - apply rel_bind; [typeclasses eauto| |intros r; rel].
    apply respect_String_replace_go. intros m. rel.
Qed.

Lemma respect_exec c :
  (is_generateCode c = true → ∀ a x, state_rel R (unshift a x)) →
  (is_assign c = true → ∀ l k v, state_rel R (write l k v)) →
  state_rel R (exec compileExpr c).
Proof.
  intros Hunshift Hwrite. pose proof respect_interpolate.
  destruct c; simpl;
    unfold generateTemplateKey, generateCode, define_if, withParent,
      addIf, addElse, closeIf, indent, dedent,
      startProtectScope, stopProtectScope, startBlockScope;
    try specialize (Hunshift eq_refl); try specialize (Hwrite eq_refl); rel.
Qed.

Lemma respect_run calls :
  (Forall (λ c, is_generateCode c = false) calls ∨ ∀ a x, state_rel R (unshift a x)) →
  (Forall (λ c, is_assign c = false) calls ∨ ∀ l k v, state_rel R (write l k v)) →
  ∀ st, R st (run compileExpr calls st).
Proof.
  induction calls as [|c calls IH]; intros Hunshift Hwrite st; [reflexivity|].
  change (run compileExpr (c :: calls) st)
    with (run compileExpr calls (snd (exec compileExpr c st))).
  etransitivity; [apply (respect_exec c)|apply IH].
  - intros Hc. destruct Hunshift as [H|H]; [|exact H].
    apply Forall_cons in H as [H _]. congruence.
  - intros Hc. destruct Hwrite as [H|H]; [|exact H].
    apply Forall_cons in H as [H _]. congruence.
  - destruct Hunshift as [H|H]; [left|by right]. by apply Forall_cons in H as [_ H].
  - destruct Hwrite as [H|H]; [left|by right]. by apply Forall_cons in H as [_ H].
Qed.

End MethodsRespect.

#[global] Instance array_kept_preorder front : PreOrder (array_kept front).
Proof.
  split.
  - intros st a items Ha. exists [], []. by rewrite app_nil_r.
  - intros st1 st2 st3 H12 H23 a items Ha.
    destruct (H12 a items Ha) as (pre & more & Ha2 & Hpre).
    destruct (H23 a _ Ha2) as (pre' & more' & Ha3 & Hpre').
    exists (pre' ++ pre), (more ++ more'). split.
    + rewrite Ha3. by rewrite <- !app_assoc.
    + intros Hf. by rewrite Hpre, Hpre'.
Qed.

#[global] Instance mapping_kept_preorder : PreOrder mapping_kept.
Proof.
  split.
  - by intros st a m Ha.
  - intros st1 st2 st3 H12 H23 a m Ha. by apply H23, H12.
Qed.

#[global] Instance attributes_kept_preorder : PreOrder attributes_kept.
Proof.
  split.
  - by intros st.
  - intros st1 st2 st3 [Hlen12 H12] [Hlen23 H23]. split; [lia|].
    intros l k Hl Hk. rewrite H23 by (done || lia). by apply H12.
Qed.

Lemma set_own_other h t k v h' l c :
  set_own h t k v = Some h' → h !! l = Some c → (∀ p m, c ≠ Obj p m) →
  h' !! l = Some c.
Proof.
  intros Hset Hl Hc. rewrite (set_own_lookup _ _ _ _ _ l Hset).
  destruct (decide (l = t)) as [->|]; [|done].
  unfold set_own in Hset. rewrite Hl in Hset.
  destruct c; try discriminate. by destruct (Hc proto props).
Qed.

Lemma array_kept_same front st st' :
  (∀ a items, heap st !! a = Some (Arr items) → heap st' !! a = Some (Arr items)) →
  array_kept front st st'.
Proof.
  intros H a items Ha. exists [], []. rewrite app_nil_r. split; [by apply H|done].
Qed.

Lemma array_kept_write front l k v : state_rel (array_kept front) (write l k v).
Proof.
  intros st. unfold write. destruct (set_own _ _ _ _) as [h'|] eqn:E; [|reflexivity].
  apply array_kept_same. intros a items Ha. cbn [snd heap].
  by eapply set_own_other.
Qed.

Lemma array_kept_alloc front c : state_rel (array_kept front) (alloc c).
Proof.
  intros st. apply array_kept_same. intros a items Ha. cbn [alloc snd heap].
  rewrite lookup_app_l; [done|]. eapply lookup_lt_Some; eassumption.
Qed.

Lemma array_kept_push front a x : state_rel (array_kept front) (push a x).
Proof.
  intros st. unfold push.
  destruct (items_of (heap st) a) as [xs|] eqn:E; [|reflexivity].
  destruct a as [| | | | |l]; try discriminate. cbn [items_of] in E.
  destruct (heap st !! l) as [[| ys|]|] eqn:El; try discriminate. injection E as ->.
  intros a items Ha. cbn [set_items snd heap].
  destruct (decide (a = l)) as [->|Hne].
  - rewrite El in Ha. injection Ha as ->. exists [], [x].
    rewrite list_lookup_insert_eq by (eapply lookup_lt_Some; eassumption). done.
  - exists [], []. rewrite app_nil_r. by rewrite list_lookup_insert_ne.
Qed.

Lemma array_kept_unshift a x : state_rel (array_kept true) (unshift a x).
Proof.
  intros st. unfold unshift.
  destruct (items_of (heap st) a) as [xs|] eqn:E; [|reflexivity].
  destruct a as [| | | | |l]; try discriminate. cbn [items_of] in E.
  destruct (heap st !! l) as [[| ys|]|] eqn:El; try discriminate. injection E as ->.
  intros a items Ha. cbn [set_items snd heap].
  destruct (decide (a = l)) as [->|Hne].
  - rewrite El in Ha. injection Ha as ->. exists [x], [].
    rewrite list_lookup_insert_eq by (eapply lookup_lt_Some; eassumption).
    by rewrite app_nil_r.
  - exists [], []. rewrite app_nil_r. by rewrite list_lookup_insert_ne.
Qed.

Lemma array_kept_subContext front this key v :
  state_rel (array_kept front) (subContext this key v).
Proof.
  intros st. rewrite subContext_ok. apply array_kept_same. intros a items Ha.
  cbn [snd heap]. rewrite lookup_app_l; [done|]. eapply lookup_lt_Some; eassumption.
Qed.

Lemma array_kept_new front name :
  state_rel (array_kept front) (new_CompilationContext name).
Proof.
  intros st. rewrite new_CompilationContext_ok. apply array_kept_same.
  intros a items Ha. cbn [snd heap].
  rewrite lookup_app_l; [done|]. eapply lookup_lt_Some; eassumption.
Qed.





Lemma extends_attributes_kept st st' : extends st st' → attributes_kept st st'.
Proof. intros [Hlen H]. split; [done|]. intros l k Hl _. by apply H. Qed.

Lemma attributes_kept_write l k v :
  k ∈ written_by_methods → state_rel attributes_kept (write l k v).
Proof.
  intros Hk st. unfold write. destruct (set_own _ _ _ _) as [h'|] eqn:E; [|reflexivity].
  split; cbn [snd heap].
  - unfold set_own in E. destruct (heap st !! l) as [[| |]|]; try discriminate.
    injection E as <-. by rewrite length_insert.
  - intros l' k' _ Hk'. apply (get_set_own_ne _ _ _ _ _ _ _ E). by intros ->.
Qed.

Lemma extends_set_items l xs st :
  is_Some (items_of (heap st) (VRef l)) →
  extends st (snd (set_items (VRef l) xs st)).
Proof.
  intros Hsome. cbn [set_items snd]. split; cbn [heap].
  - by rewrite length_insert.
  - intros l' k' _. by apply get_set_items.
Qed.

Lemma extends_array a x :
  state_rel extends (push a x) ∧ state_rel extends (unshift a x).
Proof.
  split; intros st; unfold push, unshift;
    (destruct (items_of (heap st) a) as [xs|] eqn:E; [|reflexivity]);
    (destruct a as [| | | | |l]; try discriminate);
    apply extends_set_items; rewrite E; eauto.
Qed.

Lemma extends_new name : state_rel extends (new_CompilationContext name).
Proof.
  intros st. rewrite new_CompilationContext_ok. cbn [snd]. split; cbn [heap].
  - rewrite length_app. lia.
  - intros l k Hl. apply get_ext. intros l' Hl'. by rewrite lookup_app_l by lia.
Qed.

Section Invariants.

Variable compileExpr : string → gmap string QWebVar → string → outcome string.

(** X18.  Instructions are never lost.  Whatever the compiler calls, in any
    order and whether the calls return or throw, what a code array holds
    stays in it, in the same order and in one piece: the methods only add
    behind it, and [generateCode] alone adds in front of it. *)
Theorem instructions_never_lost calls st a items :
  heap st !! a = Some (Arr items) →
  ∃ pre more,
    heap (run compileExpr calls st) !! a = Some (Arr (pre ++ items ++ more)) ∧
    (Forall (λ c, is_generateCode c = false) calls → pre = []).
Proof.
  intros Ha.
  assert (∀ front,
            Forall (λ c, is_generateCode c = false) calls ∨ front = true →
            array_kept front st (run compileExpr calls st)) as Hkept.
  { intros front Hfront.
    apply (respect_run (array_kept front) compileExpr).
    - intros st0 id. by apply array_kept_same.
    - intros l k v _. apply array_kept_write.
    - apply array_kept_push.
    - apply array_kept_subContext.
    - apply array_kept_new.
    - destruct Hfront as [H| ->]; [by left|right]. apply array_kept_unshift.
    - right. apply array_kept_write. }
  destruct (decide (Forall (λ c, is_generateCode c = false) calls)) as [Hnone|Hsome].
  - destruct (Hkept false (or_introl Hnone) a items Ha) as (pre & more & Hrun & Hpre).
    exists pre, more. split; [exact Hrun|]. intros _. by apply Hpre.
  - destruct (Hkept true (or_intror eq_refl) a items Ha) as (pre & more & Hrun & _).
    exists pre, more. split; [exact Hrun|]. intros Hnone. by destruct Hsome.
Qed.


(** X20.  On the contexts that exist, the methods of the class assign three
    attributes only: [rootNode], [indentLevel] and [shouldDefineScope].  In
    any run without a plain assignment, every other attribute of every
    context reads as before, whether the calls return or throw.  So no
    method sets [parentNode] or [parentTextNode] on the context it is called
    on: [withParent] sets the parent on the context it derives. *)
Theorem methods_assign_three_attributes calls st l k :
  Forall (λ c, is_assign c = false) calls →
  l < List.length (heap st) →
  k ∉ written_by_methods →
  get (heap (run compileExpr calls st)) l k = get (heap st) l k.
Proof.
  intros Hcalls Hl Hk.
  assert (attributes_kept st (run compileExpr calls st)) as [_ H]; [|by apply H].
  apply (respect_run attributes_kept compileExpr).
  - intros st0 id. split; [done|]. by intros.
  - apply attributes_kept_write.
  - intros a x st0. apply extends_attributes_kept. apply extends_array.
  - intros this key v st0. apply extends_attributes_kept. apply extends_subContext.
  - intros name st0. apply extends_attributes_kept. apply extends_new.
  - right. intros a x st0. apply extends_attributes_kept. apply extends_array.
  - by left.
Qed.

End Invariants.

(** * Examples *)

Lemma generateTemplateKey_literal_witness :
  get (heap fresh) 0 "loopNumber" = VNum 0 ∧
  get (heap fresh) 0 "hasKey0" = VBool false ∧
  ∃ id, fst (generateID 0 fresh) = Ok id ∧
    generateTemplateKey 0 "x" fresh =
      (Ok ("'" +:+ "x" +:+ "__" +:+ pretty id +:+ "__'"),
       mkState (heap fresh) (nextID fresh + 1)).
Proof.
  split; [vm_compute; reflexivity|]. split; [vm_compute; reflexivity|].
  apply (generateTemplateKey_literal 0 "x" fresh); vm_compute; reflexivity.
Defined.

Lemma generateTemplateKey_composite_witness :
  get (heap in_loop) 0 "loopNumber" = VNum 1 ∧
  get (heap in_loop) 0 "hasKey0" = VBool false ∧
  ∃ id, fst (generateID 0 in_loop) = Ok id ∧
    generateTemplateKey 0 "x" in_loop =
      (Ok ("k" +:+ pretty id),
       mkState
         (<[1 := Arr ([VStr "    let h = this.h;"]
                      ++ [VStr (indentation 0 +:+ "let k" +:+ pretty id +:+ " = "
                                +:+ composite_key "x" id false 1 +:+ ";")])]>
            (heap in_loop))
         (nextID in_loop + 1)) ∧
    (1%Z = 1%Z → false = false →
     composite_key "x" id false 1 = "`" +:+ "x" +:+ "__" +:+ pretty id +:+ "__${key1}__`").
Proof.
  split; [vm_compute; reflexivity|]. split; [vm_compute; reflexivity|].
  apply (generateTemplateKey_composite 0 "x" in_loop 1 false 0 1
           [VStr "    let h = this.h;"]).
  - vm_compute. reflexivity.
  - vm_compute. reflexivity.
  - intros [H _]. discriminate H.
  - vm_compute. reflexivity.
  - lia.
  - vm_compute. reflexivity.
  - vm_compute. reflexivity.
Defined.

Lemma generateCode_prologue_witness :
  get (heap fresh) 0 "rootContext" = VRef 0 ∧
  get (heap fresh) 0 "code" = VRef 1 ∧
  heap fresh !! 1 = Some (Arr [VStr "    let h = this.h;"]) ∧
  generateCode 0 fresh =
    (Ok (VRef 1),
     with_items fresh 1 [VStr "    let result;"; VStr "    let h = this.h;"]).
Proof.
  split; [vm_compute; reflexivity|]. split; [vm_compute; reflexivity|].
  split; [vm_compute; reflexivity|].
  destruct (generateCode_prologue 0 0 fresh 1 [VStr "    let h = this.h;"])
    as [Hrun _].
  - vm_compute. reflexivity.
  - intros flag _. reflexivity.
  - vm_compute. reflexivity.
  - vm_compute. reflexivity.
  - rewrite Hrun. vm_compute. reflexivity.
Defined.

Lemma withParent_structural_violation_witness :
  let st := snd (write 0 "parentTextNode" (VNum 1) fresh) in
  second_root st 0 ∧
  withParent 0 2 st = (Throw (Error MULTIPLE_ROOTS), st) ∧
  withParent 0 3 (snd (withParent 0 2 st)) = (Throw (Error MULTIPLE_ROOTS), st).
Proof.
  cbv zeta.
  assert (second_root (snd (write 0 "parentTextNode" (VNum 1) fresh)) 0) as H.
  { split; [vm_compute; reflexivity|]. split; [vm_compute; reflexivity|].
    right. vm_compute. reflexivity. }
  split; [exact H|].
  exact (proj1 (withParent_structural_violation 0 _) H 2%Z 3%Z).
Defined.

(** On a fresh root, with [allowMultipleRoots] unset, two calls of
    [withParent] at the root level both return: neither throws. *)
Lemma withParent_twice_on_fresh_root :
  get (heap fresh) 0 "rootContext" = VRef 0 ∧
  get (heap fresh) 0 "allowMultipleRoots" = VBool false ∧
  fst (withParent 0 1 fresh) = Ok 4 ∧
  fst (withParent 0 2 (snd (withParent 0 1 fresh))) = Ok 5.
Proof. vm_compute. repeat split; reflexivity. Qed.

Lemma rootNode_write_once_witness :
  let st := snd (withParent 0 7 fresh) in
  truthy (get (heap st) 0 "rootNode") = true ∧
  get (heap (run_withParent [(0, 8%Z); (4, 9%Z)] st)) 0 "rootNode" =
    get (heap st) 0 "rootNode".
Proof.
  cbv zeta. split; [vm_compute; reflexivity|].
  apply (rootNode_write_once 0 (snd (withParent 0 7 fresh)) [(0, 8%Z); (4, 9%Z)]).
  vm_compute. reflexivity.
Defined.

(** The node [0] is a value that is not null; assigned first, it does not
    persist: the next [withParent] replaces it. *)
Lemma rootNode_zero_overwritten :
  let st1 := snd (withParent 0 0 fresh) in
  let st2 := snd (withParent 0 5 st1) in
  get (heap fresh) 0 "rootNode" = VNull ∧
  get (heap st1) 0 "rootNode" = VNum 0 ∧
  get (heap st2) 0 "rootNode" = VNum 5.
Proof. vm_compute. repeat split; reflexivity. Qed.

Lemma subContext_reads_witness :
  0 < List.length (heap fresh) ∧
  ∃ ctx st',
    subContext 0 "parentNode" (VNum 7) fresh = (Ok ctx, st') ∧
    (∀ h', h' !! ctx = heap st' !! ctx →
       get h' ctx "parentNode" = VNum 7 ∧
       ∀ k, k ≠ "parentNode" → get h' ctx k = get h' 0 k) ∧
    (∀ k w h', k ≠ "parentNode" →
       set_own (heap st') 0 k w = Some h' → get h' ctx k = w) ∧
    (∀ root k w h', k ≠ "parentNode" →
       owner (heap st') 0 k = Some root →
       set_own (heap st') root k w = Some h' → get h' ctx k = w).
Proof.
  split; [vm_compute; lia|].
  apply (subContext_reads 0 "parentNode" (VNum 7) fresh). vm_compute. lia.
Defined.

Lemma generateID_strictly_increasing_witness :
  let between := [New None; GenerateTemplateKey 0 "x"; StartProtectScope 0] in
  (- 2 ^ 53 ≤ nextID fresh)%Z ∧
  (nextID (run member_of_scope between (snd (generateID 0 fresh))) ≤ 2 ^ 53)%Z ∧
  ∃ id1 id2 : Z,
    fst (generateID 0 fresh) = Ok id1 ∧
    fst (generateID 4 (run member_of_scope between (snd (generateID 0 fresh)))) = Ok id2 ∧
    (id1 < id2)%Z.
Proof.
  cbv zeta.
  assert (- 2 ^ 53 ≤ nextID fresh)%Z as Hlow by by vm_compute.
  assert (nextID (run member_of_scope
                    [New None; GenerateTemplateKey 0 "x"; StartProtectScope 0]
                    (snd (generateID 0 fresh))) ≤ 2 ^ 53)%Z as Hhigh by by vm_compute.
  split; [exact Hlow|]. split; [exact Hhigh|].
  destruct (generateID_strictly_increasing member_of_scope 0 4
              [New None; GenerateTemplateKey 0 "x"; StartProtectScope 0] fresh Hlow Hhigh)
    as (id1 & id2 & H1 & H2 & Hlt & _).
  exists id1, id2. split; [exact H1|]. split; [exact H2|]. exact Hlt.
Defined.

Lemma fresh_formattable : formattable fresh 0 0 ∅ "scope".
Proof.
  split.
  - vm_compute. reflexivity.
  - vm_compute. reflexivity.
  - vm_compute. reflexivity.
  - vm_compute. reflexivity.
Qed.

Lemma interpolate_cases_witness :
  formattable fresh 0 0 ∅ "scope" ∧
  interpolate member_of_scope 0 "Hello {{name}}!" fresh =
    (Ok "`Hello ${scope.name}!`", scope_needed fresh 0) ∧
  interpolate member_of_scope 0 "{{x}}" fresh =
    (Ok "(scope.x)", scope_needed fresh 0).
Proof.
  split; [exact fresh_formattable|]. split.
  - destruct (interpolate_cases member_of_scope 0 0 fresh ∅ "scope"
                "Hello {{name}}!" fresh_formattable) as (_ & Hcomposite & _).
    rewrite Hcomposite; [vm_compute; reflexivity|].
    intros (inner & H & _).
    change ("{{" +:+ inner +:+ "}}") with (String "{" (String "{" (inner +:+ "}}"))) in H.
    discriminate H.
  - destruct (interpolate_cases member_of_scope 0 0 fresh ∅ "scope"
                "{{x}}" fresh_formattable) as (Hwhole & _).
    destruct Hwhole as [_ Hrun]; [|rewrite Hrun; vm_compute; reflexivity].
    exists "x". split; [reflexivity|]. split; [reflexivity|].
    intros u w H. change ("x" +:+ "}}") with (String "x" "}}") in H.
    destruct u as [|c u].
    + change ("" +:+ "}}" +:+ w) with (String "}" (String "}" w)) in H.
      discriminate H.
    + rewrite append_cons in H. injection H as _ H.
      apply (f_equal String.length) in H. rewrite !length_append in H.
      destruct w; [reflexivity|]. simpl in H. lia.
Defined.

Lemma fresh_emitting : emitting fresh 0 0 1 0 [VStr "    let h = this.h;"].
Proof.
  split.
  - vm_compute. reflexivity.
  - vm_compute. reflexivity.
  - vm_compute. reflexivity.
  - vm_compute. reflexivity.
  - vm_compute. reflexivity.
Qed.

Lemma addLine_returns_index_witness :
  get (heap fresh) 0 "indentLevel" = VNum 0 ∧
  get (heap fresh) 0 "code" = VRef 1 ∧
  heap fresh !! 1 = Some (Arr [VStr "    let h = this.h;"]) ∧
  ∃ st',
    addLine 0 "let x = 1;" fresh = (Ok 1%Z, st') ∧
    items_of (heap st') (get (heap st') 0 "code")
    = Some [VStr "    let h = this.h;"; VStr "    let x = 1;"].
Proof.
  split; [vm_compute; reflexivity|]. split; [vm_compute; reflexivity|].
  split; [vm_compute; reflexivity|].
  destruct (addLine_returns_index 0 "let x = 1;" fresh 0 1 [VStr "    let h = this.h;"])
    as (idx & st' & Hrun & Hcode & _ & Hidx & _).
  - vm_compute. reflexivity.
  - lia.
  - vm_compute. reflexivity.
  - vm_compute. reflexivity.
  - exists st'. split.
    + rewrite Hrun. f_equal. f_equal. simpl in Hidx. lia.
    + apply Hcode. vm_compute. reflexivity.
Defined.

Lemma addLine_level_range_witness :
  get (heap dedented) 0 "indentLevel" = VNum (-3) ∧
  get (heap dedented) 0 "code" = VRef 1 ∧
  heap dedented !! 1 = Some (Arr [VStr "    let h = this.h;"]) ∧
  addLine 0 "}" dedented = (Throw RangeError, dedented).
Proof.
  split; [vm_compute; reflexivity|]. split; [vm_compute; reflexivity|].
  split; [vm_compute; reflexivity|].
  destruct (addLine_level_range 0 "}" dedented (-3) 1 [VStr "    let h = this.h;"])
    as [Hfails _].
  - vm_compute. reflexivity.
  - vm_compute. reflexivity.
  - vm_compute. reflexivity.
  - apply Hfails. lia.
Defined.

Lemma indent_dedent_inverse_witness :
  get (heap fresh) 0 "rootContext" = VRef 0 ∧
  owner (heap fresh) 0 "indentLevel" = Some 0 ∧
  get (heap fresh) 0 "indentLevel" = VNum 0 ∧
  (do indent 0 in dedent 0) fresh = (Ok tt, fresh) ∧
  (do dedent 0 in indent 0) fresh = (Ok tt, fresh).
Proof.
  split; [vm_compute; reflexivity|]. split; [vm_compute; reflexivity|].
  split; [vm_compute; reflexivity|].
  apply (indent_dedent_inverse 0 0 fresh 0); [vm_compute; reflexivity..|lia].
Defined.

Lemma conditional_block_witness :
  emitting fresh 0 0 1 0 [VStr "    let h = this.h;"] ∧
  (do addIf 0 "x" in
   do addLines 0 ["a();"] in
   do addElse 0 in
   do addLines 0 ["b();"; "c();"] in
   closeIf 0) fresh =
    (Ok tt,
     with_items fresh 1
       [VStr "    let h = this.h;";
        VStr "    if (x) {";
        VStr "        a();";
        VStr "    } else {";
        VStr "        b();";
        VStr "        c();";
        VStr "    }"]).
Proof.
  split; [exact fresh_emitting|].
  destruct (conditional_block 0 0 1 fresh 0 [VStr "    let h = this.h;"] "x"
              ["a();"] ["b();"; "c();"] fresh_emitting) as [_ Hrun]; [lia|lia|].
  rewrite Hrun. reflexivity.
Defined.

Lemma protect_scope_bracket_witness :
  emitting fresh 0 0 1 0 [VStr "    let h = this.h;"] ∧
  (let* protectID := startProtectScope 0 in
   do addLines 0 ["scope.x = 1;"] in
   stopProtectScope 0 protectID) fresh =
    (Ok tt,
     with_items (scope_needed (mkState (heap fresh) 2) 0) 1
       [VStr "    let h = this.h;";
        VStr "    let _origScope1 = scope;";
        VStr "    scope = Object.assign(Object.create(context), scope);";
        VStr "    scope.x = 1;";
        VStr "    scope = _origScope1;"]).
Proof.
  split; [exact fresh_emitting|].
  rewrite (protect_scope_bracket 0 0 1 fresh 0 [VStr "    let h = this.h;"]
             ["scope.x = 1;"] fresh_emitting); [reflexivity|lia].
Defined.

Lemma derived_context_emits_witness :
  emitting fresh 0 0 1 0 [VStr "    let h = this.h;"] ∧
  ("parentNode" ∉ ["rootContext"; "indentLevel"; "code"]) ∧
  ("parentNode" ∉ method_names) ∧
  ∃ ctx st1,
    subContext 0 "parentNode" (VNum 1) fresh = (Ok ctx, st1) ∧
    (∃ idx st2,
       addLine ctx "f();" st1 = (Ok idx, st2) ∧
       ∀ c, c ∈ [0; ctx] →
            ∃ code', items_of (heap st2) (get (heap st2) c "code") = Some code' ∧
                     code' !! Z.to_nat idx = Some (instruction 0 "f();") ∧
                     take (Z.to_nat idx) code' = [VStr "    let h = this.h;"]) ∧
    (∃ st2,
       indent ctx st1 = (Ok tt, st2) ∧
       addLine 0 "f();" st2 =
         (Ok 1%Z,
          with_items st2 1 ([VStr "    let h = this.h;"] ++ [instruction (0 + 1) "f();"]))).
Proof.
  assert ("parentNode" ∉ ["rootContext"; "indentLevel"; "code"]) as Hkey
    by (rewrite !elem_of_cons, elem_of_nil; by intros [?|[?|[?|?]]]).
  assert ("parentNode" ∉ method_names) as Hattr.
  { intros H. apply (bool_decide_pack _) in H. vm_compute in H. exact H. }
  split; [exact fresh_emitting|]. split; [exact Hkey|]. split; [exact Hattr|].
  apply (derived_context_emits 0 0 1 fresh 0 [VStr "    let h = this.h;"]
           "parentNode" (VNum 1) "f();" fresh_emitting);
    [lia|lia|exact Hkey|exact Hattr].
Defined.

Lemma startBlockScope_scope_witness :
  emitting fresh 0 0 1 0 [VStr "    let h = this.h;"] ∧
  formattable fresh 0 0 ∅ "scope" ∧
  ∃ ctx st',
    startBlockScope 0 fresh = (Ok ctx, st') ∧
    items_of (heap st') (VRef 1)
    = Some [VStr "    let h = this.h;";
            VStr "    const subScope_1 = Object.assign(Object.create(context), scope);"] ∧
    fst (formatExpression member_of_scope ctx "x" st') = Ok "subScope_1.x" ∧
    fst (formatExpression member_of_scope 0 "x" st') = Ok "scope.x".
Proof.
  split; [exact fresh_emitting|]. split; [exact fresh_formattable|].
  destruct (startBlockScope_scope member_of_scope 0 0 1 fresh 0
              [VStr "    let h = this.h;"] ∅ "scope" fresh_emitting)
    as (ctx & st' & Hrun & _ & Hcode & Hfmt & _); [lia|exact fresh_formattable|].
  exists ctx, st'. split; [exact Hrun|]. split; [rewrite Hcode; reflexivity|].
  destruct (Hfmt "x") as [-> ->]. split; reflexivity.
Defined.

Lemma formatExpression_declares_scope_witness :
  formattable fresh 0 0 ∅ "scope" ∧
  ∃ st1 st2,
    snd (formatExpression member_of_scope 0 "x" fresh) = st1 ∧
    generateCode 0 st1 = (Ok (VRef 1), st2) ∧
    heap st2 !! 1 =
      Some (Arr [VStr "    let scope = Object.create(context);";
                 VStr "    let result;";
                 VStr "    let h = this.h;"]).
Proof.
  split; [exact fresh_formattable|].
  destruct (formatExpression_declares_scope member_of_scope 0 0 1 fresh ∅ "scope"
              [VStr "    let h = this.h;"] "x" fresh_formattable)
    as (st1 & st2 & before & Hfmt & Hgen & Hcode & _ & _).
  - vm_compute. reflexivity.
  - vm_compute. reflexivity.
  - exists st1, st2. split; [exact Hfmt|]. split; [exact Hgen|].
    subst st1.
    assert (generateCode 0 (snd (formatExpression member_of_scope 0 "x" fresh))
            = (Ok (VRef 1),
               with_items (scope_needed fresh 0) 1
                 [VStr "    let scope = Object.create(context);";
                  VStr "    let result;"; VStr "    let h = this.h;"])) as Hrun
      by (vm_compute; reflexivity).
    rewrite Hrun in Hgen. injection Hgen as <-. vm_compute. reflexivity.
Defined.

Lemma generateCode_twice_witness :
  get (heap fresh) 0 "code" = VRef 1 ∧
  heap fresh !! 1 = Some (Arr [VStr "    let h = this.h;"]) ∧
  (do generateCode 0 in generateCode 0) fresh =
    (Ok (VRef 1),
     with_items fresh 1
       [VStr "    let result;"; VStr "    let result;"; VStr "    let h = this.h;"]).
Proof.
  split; [vm_compute; reflexivity|]. split; [vm_compute; reflexivity|].
  rewrite (generateCode_twice 0 1 fresh [VStr "    let h = this.h;"]).
  - vm_compute. reflexivity.
  - vm_compute. reflexivity.
  - vm_compute. reflexivity.
Defined.

Lemma loop_cyclic : cyclic_from loop "a".
Proof.
  exists "a". split; [done|].
  eapply tc_l; [|apply tc_once]; unfold refers; vm_compute; reflexivity.
Defined.

Lemma getValue_follows_references_witness :
  entries_of (heap with_loop) (get (heap with_loop) 0 "variables") = Some loop ∧
  cyclic_from loop "a" ∧
  getValue 1000 0 (Name "a") with_loop = (Throw RangeError, with_loop).
Proof.
  split; [vm_compute; reflexivity|]. split; [exact loop_cyclic|].
  destruct (getValue_follows_references 0 with_loop loop "a") as [Hthrow _].
  - vm_compute. reflexivity.
  - apply Hthrow. exact loop_cyclic.
Defined.

Lemma getValue_idempotent_witness :
  getValue 3 0 (Name "a") with_chain = (Ok (Name "c"), with_chain) ∧
  getValue 1 0 (Name "c") with_chain = (Ok (Name "c"), with_chain) ∧
  getValue 7 0 (Name "a") with_chain = (Ok (Name "c"), with_chain).
Proof.
  assert (getValue 3 0 (Name "a") with_chain = (Ok (Name "c"), with_chain)) as Hrun
    by (vm_compute; reflexivity).
  split; [exact Hrun|].
  destruct (getValue_idempotent 3 0 (Name "a") (Name "c") with_chain with_chain Hrun)
    as (_ & _ & Hagain & Hmore).
  split; [apply Hagain|apply Hmore; lia].
Defined.


Lemma generateTemplateKey_distinct_witness :
  fst (generateTemplateKey 0 "a" fresh) = Ok "'a__1__'" ∧
  fst (generateTemplateKey 0 "a__1" (run member_of_scope [Indent 0]
         (snd (generateTemplateKey 0 "a" fresh)))) = Ok "'a__1__2__'" ∧
  "'a__1__'" ≠ "'a__1__2__'".
Proof.
  assert (fst (generateTemplateKey 0 "a" fresh) = Ok "'a__1__'") as H1
    by (vm_compute; reflexivity).
  assert (fst (generateTemplateKey 0 "a__1" (run member_of_scope [Indent 0]
                 (snd (generateTemplateKey 0 "a" fresh)))) = Ok "'a__1__2__'") as H2
    by (vm_compute; reflexivity).
  split; [exact H1|]. split; [exact H2|].
  apply (generateTemplateKey_distinct member_of_scope 0 0 "a" "a__1" [Indent 0] fresh
           _ _); [by vm_compute|by vm_compute|exact H1|exact H2].
Defined.

Lemma withParent_nested_witness :
  emitting fresh 0 0 1 0 [VStr "    let h = this.h;"] ∧
  ¬ second_root fresh 0 ∧
  ∃ c1 st1 c2 st2,
    withParent 0 1 fresh = (Ok c1, st1) ∧
    withParent c1 2 st1 = (Ok c2, st2) ∧
    items_of (heap st2) (VRef 1)
    = Some [VStr "    let h = this.h;"; VStr "    result = vn1;"] ∧
    get (heap st2) 0 "rootNode" = VNum 1 ∧
    get (heap st2) 0 "parentNode" = VNull.
Proof.
  assert (¬ second_root fresh 0) as Hguard.
  { intros (_ & _ & [H|H]); vm_compute in H; discriminate H. }
  split; [exact fresh_emitting|]. split; [exact Hguard|].
  destruct (withParent_nested 0 0 1 fresh 0 [VStr "    let h = this.h;"] 1 2
              fresh_emitting)
    as (c1 & st1 & c2 & st2 & H1 & H2 & Hcode1 & Hcode2 & HrootNode & _ & _ & Hparent);
    [lia|exact Hguard|vm_compute; reflexivity|vm_compute; reflexivity|lia|].
  exists c1, st1, c2, st2. split; [exact H1|]. split; [exact H2|].
  split; [by rewrite Hcode2, Hcode1|]. split; [rewrite HrootNode; reflexivity|].
  rewrite Hparent. vm_compute. reflexivity.
Defined.

Lemma instructions_never_lost_witness :
  heap fresh !! 1 = Some (Arr [VStr "    let h = this.h;"]) ∧
  ∃ more,
    heap (run member_of_scope
            [AddIf 0 "x"; WithParent 0 1; Interpolate 0 "{{y}}"; CloseIf 0] fresh) !! 1
    = Some (Arr ([] ++ [VStr "    let h = this.h;"] ++ more)).
Proof.
  split; [vm_compute; reflexivity|].
  destruct (instructions_never_lost member_of_scope
              [AddIf 0 "x"; WithParent 0 1; Interpolate 0 "{{y}}"; CloseIf 0]
              fresh 1 [VStr "    let h = this.h;"])
    as (pre & more & Hrun & Hpre); [vm_compute; reflexivity|].
  exists more. rewrite Hrun, Hpre; [reflexivity|].
  repeat constructor.
Defined.


Lemma methods_assign_three_attributes_witness :
  ("parentNode" ∉ written_by_methods) ∧
  get (heap (run member_of_scope
               [WithParent 0 1; StartProtectScope 0; GenerateCode 0] fresh)) 0 "parentNode"
  = get (heap fresh) 0 "parentNode".
Proof.
  assert ("parentNode" ∉ written_by_methods) as Hk
    by (unfold written_by_methods; rewrite !elem_of_cons, elem_of_nil;
        by intros [?|[?|[?|?]]]).
  split; [exact Hk|].
  apply (methods_assign_three_attributes member_of_scope).
  - repeat constructor.
  - vm_compute. lia.
  - exact Hk.
Defined.

Lemma formatExpression_repeatable_witness :
  formattable fresh 0 0 ∅ "scope" ∧
  formatExpression member_of_scope 0 "y"
    (snd (formatExpression member_of_scope 0 "x" fresh))
  = (Ok "scope.y", snd (formatExpression member_of_scope 0 "x" fresh)).
Proof.
  split; [exact fresh_formattable|].
  destruct (formatExpression_repeatable member_of_scope 0 0 fresh ∅ "scope" "x" "y"
              fresh_formattable) as [Hrun _].
  exact Hrun.
Defined.
